(** * tac08 hardware-abstraction layer ([src/hal_core.cpp])

    A shallow embedding of the palette table, the letterboxing coordinate
    mapper, the back-buffer copy, the input aggregator and the frame
    lifecycle of [hal_core.cpp], followed by the properties the
    specification states about them; then the joystick selection of
    [GFX_Init], the touch mask, the mouse state, the timers and the
    game-state files, with the properties the code shows of them.

    Conventions of the embedding.
    - C [int] and the SDL integer fields are [Z]; [uint8_t] stores are
      written out with [to_u8], the 64-to-32 bit cast of a finger id with
      [to_int32].  Signed [int] arithmetic is left unwrapped (overflow is
      undefined in the source).
    - [double] and [float] values are IEEE 754 binary64 and binary32
      numbers, [spec_float] of the standard library, with its correctly
      rounded [/] and [*]; conversions from [int] are exact.  The cast
      [(int)d] truncates toward zero; out of the [int] range, where the
      source is undefined, it gives [INT_MIN] as the x86 conversion does.
    - The file's [static] variables and the part of the SDL window state
      the code reads are the fields of one record, [Hal], threaded through
      every function.
    - An access outside a [std::array] is undefined in the source; a
      function that can perform one returns [option], [None] standing for
      the undefined access.
    - What SDL reports (mouse state, tick and performance counters, the
      button counts of the joysticks) is an argument of the function that
      asks for it; the files behind [SDL_RWFromFile] are a finite map from
      file to contents, together with the file each path designates. *)

From Stdlib Require Import ZArith QArith Qround Qminmax Bool Lia SpecFloat.
From stdpp Require Import base list strings gmap.

Local Open Scope Z_scope.

(** ** Machine integers *)

(** Store into a [uint8_t]. *)
Definition to_u8 (z : Z) : Z := z mod 2 ^ 8.

(** Conversion of a 64-bit integer to [int]. *)
Definition to_int32 (z : Z) : Z := (z + 2 ^ 31) mod 2 ^ 32 - 2 ^ 31.

(** Integer used as a condition. *)
Definition truthy (z : Z) : bool := negb (z =? 0).

(** ** Floating point *)

Definition double := spec_float.
Definition float := spec_float.

Definition INT_MIN : Z := - 2 ^ 31.
Definition INT_MAX : Z := 2 ^ 31 - 1.

(** [(double)n] and [(float)n] for an [int] [n]. *)
Definition double_of_int (n : Z) : double := binary_normalize 53 1024 n 0 false.
Definition float_of_int (n : Z) : float := binary_normalize 24 128 n 0 false.

(** [a / b] and [a * b] on [double], [a * b] on [float]. *)
Definition ddiv (a b : double) : double := SFdiv 53 1024 a b.
Definition dmul (a b : double) : double := SFmul 53 1024 a b.
Definition fmul (a b : float) : float := SFmul 24 128 a b.

(** [a > b] on [double]. *)
Definition dgt (a b : double) : bool := SFltb b a.

(** [(int)d] for a [double] or [float] [d]: truncation toward zero. *)
Definition int_of_double (d : spec_float) : Z :=
  match d with
  | S754_zero _ => 0
  | S754_finite s m e =>
      let a := if 0 <=? e then Z.pos m * 2 ^ e else Z.quot (Z.pos m) (2 ^ (- e)) in
      let v := if s then - a else a in
      if (INT_MIN <=? v) && (v <? 2 ^ 31) then v else INT_MIN
  | _ => INT_MIN
  end.

(** ** SDL constants and events *)

(** Key codes, modifier and hat masks, with the values of the SDL2 headers. *)
Module SDL.
Definition SDLK_RETURN : Z := 13.
Definition SDLK_ESCAPE : Z := 27.
Definition SDLK_p : Z := 112.
Definition SDLK_q : Z := 113.
Definition SDLK_r : Z := 114.
Definition SDLK_t : Z := 116.
Definition SDLK_x : Z := 120.
Definition SDLK_z : Z := 122.
Definition SDLK_SCANCODE_MASK : Z := Z.shiftl 1 30.
Definition SDLK_F11 : Z := Z.lor 68 SDLK_SCANCODE_MASK.
Definition SDLK_RIGHT : Z := Z.lor 79 SDLK_SCANCODE_MASK.
Definition SDLK_LEFT : Z := Z.lor 80 SDLK_SCANCODE_MASK.
Definition SDLK_DOWN : Z := Z.lor 81 SDLK_SCANCODE_MASK.
Definition SDLK_UP : Z := Z.lor 82 SDLK_SCANCODE_MASK.
Definition KMOD_CTRL : Z := Z.lor 64 128.
Definition SDL_HAT_UP : Z := 1.
Definition SDL_HAT_RIGHT : Z := 2.
Definition SDL_HAT_DOWN : Z := 4.
Definition SDL_HAT_LEFT : Z := 8.
End SDL.
Import SDL.

Inductive KeyEventType := SDL_KEYDOWN | SDL_KEYUP.
Inductive JoyButtonEventType := SDL_JOYBUTTONDOWN | SDL_JOYBUTTONUP.
Inductive FingerEventType := SDL_FINGERDOWN | SDL_FINGERUP | SDL_FINGERMOTION.

(** [SDL_TouchFingerEvent]: the fields [processTouchEvent] reads. *)
Record SDL_TouchFingerEvent := {
  tf_type : FingerEventType;
  fingerId : Z;            (* SDL_FingerID, a 64-bit integer *)
  tf_x : float;            (* normalized, 0..1 *)
  tf_y : float
}.

(** [SDL_Event], one constructor per member of the union that the code
    inspects.  [SDL_JOYHATMOTION] carries the value that
    [SDL_JoystickGetHat(joystick, 0)] reports while the event is handled. *)
Inductive SDL_Event :=
| SDL_QUIT
| KeyboardEvent (type : KeyEventType) (sym : Z) (kmod : Z)
| SDL_MOUSEWHEEL (wheel_y : Z)
| SDL_JOYAXISMOTION (axis : Z) (value : Z)
| SDL_JOYHATMOTION (hatval : Z)
| JoyButtonEvent (type : JoyButtonEventType) (button : Z) (state : Z)
| TouchFingerEvent (tfinger : SDL_TouchFingerEvent)
| OtherEvent.

Definition is_keydown (t : KeyEventType) : bool :=
  match t with SDL_KEYDOWN => true | SDL_KEYUP => false end.

(** ** Touch points *)

(** Modelled from the spec: the enumerators of [TouchInfo::State], declared
    in [hal_core.h].  The spec gives them as independently OR-able bits with
    [None] the empty set; their positions are left open here. *)
Class TouchFlags := {
  JustPressed_bit : Z;
  Pressed_bit : Z;
  JustReleased_bit : Z;
  flag_bits_range :
    0 <= JustPressed_bit < 31 /\ 0 <= Pressed_bit < 31 /\
    0 <= JustReleased_bit < 31;
  flag_bits_distinct :
    JustPressed_bit <> Pressed_bit /\ JustPressed_bit <> JustReleased_bit /\
    Pressed_bit <> JustReleased_bit
}.

Module TouchState.
Definition None : Z := 0.
Definition JustPressed `{TouchFlags} : Z := Z.shiftl 1 JustPressed_bit.
Definition Pressed `{TouchFlags} : Z := Z.shiftl 1 Pressed_bit.
Definition JustReleased `{TouchFlags} : Z := Z.shiftl 1 JustReleased_bit.
End TouchState.

(** Modelled from the spec: the fields of [TouchInfo], declared in
    [hal_core.h]: last known position and the state flag set. *)
Record TouchInfo := { ti_x : Z; ti_y : Z; ti_state : Z }.

(** Modelled from the spec: [TouchInfo{}], the empty record. *)
Definition TouchInfo_default : TouchInfo :=
  {| ti_x := 0; ti_y := 0; ti_state := TouchState.None |}.

(** ** The state *)

Definition pixel_t := Z.

Record SDL_Rect := { r_x : Z; r_y : Z; r_w : Z; r_h : Z }.

Record Hal := {
  (* SDL side *)
  win_w : Z;                       (* SDL_GetWindowSize *)
  win_h : Z;
  fullscreen : bool;               (* SDL_WINDOW_FULLSCREEN_DESKTOP *)
  pending : list SDL_Event;        (* the queue behind SDL_PollEvent *)
  (* statics of hal_core.cpp *)
  screenWidth : Z;
  screenHeight : Z;
  original_palette : list pixel_t; (* std::array<pixel_t, 256> *)
  palette : list pixel_t;
  debug_trace_state : bool;
  reload_requested : bool;
  keyState : Z;
  joyState : Z;
  hatState : Z;
  simState : Z;
  mouseWheel : Z;
  touchState : list TouchInfo      (* std::array<TouchInfo, 8> *)
}.

Definition set_fullscreen (v : bool) (s : Hal) : Hal :=
  {| win_w := win_w s; win_h := win_h s; fullscreen := v; pending := pending s;
     screenWidth := screenWidth s; screenHeight := screenHeight s;
     original_palette := original_palette s; palette := palette s;
     debug_trace_state := debug_trace_state s;
     reload_requested := reload_requested s;
     keyState := keyState s; joyState := joyState s; hatState := hatState s;
     simState := simState s; mouseWheel := mouseWheel s;
     touchState := touchState s |}.

Definition set_pending (v : list SDL_Event) (s : Hal) : Hal :=
  {| win_w := win_w s; win_h := win_h s; fullscreen := fullscreen s; pending := v;
     screenWidth := screenWidth s; screenHeight := screenHeight s;
     original_palette := original_palette s; palette := palette s;
     debug_trace_state := debug_trace_state s;
     reload_requested := reload_requested s;
     keyState := keyState s; joyState := joyState s; hatState := hatState s;
     simState := simState s; mouseWheel := mouseWheel s;
     touchState := touchState s |}.

Definition set_screen (w h : Z) (s : Hal) : Hal :=
  {| win_w := win_w s; win_h := win_h s; fullscreen := fullscreen s;
     pending := pending s;
     screenWidth := w; screenHeight := h;
     original_palette := original_palette s; palette := palette s;
     debug_trace_state := debug_trace_state s;
     reload_requested := reload_requested s;
     keyState := keyState s; joyState := joyState s; hatState := hatState s;
     simState := simState s; mouseWheel := mouseWheel s;
     touchState := touchState s |}.

Definition set_original_palette (v : list pixel_t) (s : Hal) : Hal :=
  {| win_w := win_w s; win_h := win_h s; fullscreen := fullscreen s;
     pending := pending s;
     screenWidth := screenWidth s; screenHeight := screenHeight s;
     original_palette := v; palette := palette s;
     debug_trace_state := debug_trace_state s;
     reload_requested := reload_requested s;
     keyState := keyState s; joyState := joyState s; hatState := hatState s;
     simState := simState s; mouseWheel := mouseWheel s;
     touchState := touchState s |}.

Definition set_palette (v : list pixel_t) (s : Hal) : Hal :=
  {| win_w := win_w s; win_h := win_h s; fullscreen := fullscreen s;
     pending := pending s;
     screenWidth := screenWidth s; screenHeight := screenHeight s;
     original_palette := original_palette s; palette := v;
     debug_trace_state := debug_trace_state s;
     reload_requested := reload_requested s;
     keyState := keyState s; joyState := joyState s; hatState := hatState s;
     simState := simState s; mouseWheel := mouseWheel s;
     touchState := touchState s |}.

Definition set_debug_trace_state (v : bool) (s : Hal) : Hal :=
  {| win_w := win_w s; win_h := win_h s; fullscreen := fullscreen s;
     pending := pending s;
     screenWidth := screenWidth s; screenHeight := screenHeight s;
     original_palette := original_palette s; palette := palette s;
     debug_trace_state := v;
     reload_requested := reload_requested s;
     keyState := keyState s; joyState := joyState s; hatState := hatState s;
     simState := simState s; mouseWheel := mouseWheel s;
     touchState := touchState s |}.

Definition set_reload_requested (v : bool) (s : Hal) : Hal :=
  {| win_w := win_w s; win_h := win_h s; fullscreen := fullscreen s;
     pending := pending s;
     screenWidth := screenWidth s; screenHeight := screenHeight s;
     original_palette := original_palette s; palette := palette s;
     debug_trace_state := debug_trace_state s;
     reload_requested := v;
     keyState := keyState s; joyState := joyState s; hatState := hatState s;
     simState := simState s; mouseWheel := mouseWheel s;
     touchState := touchState s |}.

Definition set_keyState (v : Z) (s : Hal) : Hal :=
  {| win_w := win_w s; win_h := win_h s; fullscreen := fullscreen s;
     pending := pending s;
     screenWidth := screenWidth s; screenHeight := screenHeight s;
     original_palette := original_palette s; palette := palette s;
     debug_trace_state := debug_trace_state s;
     reload_requested := reload_requested s;
     keyState := v; joyState := joyState s; hatState := hatState s;
     simState := simState s; mouseWheel := mouseWheel s;
     touchState := touchState s |}.

Definition set_joyState (v : Z) (s : Hal) : Hal :=
  {| win_w := win_w s; win_h := win_h s; fullscreen := fullscreen s;
     pending := pending s;
     screenWidth := screenWidth s; screenHeight := screenHeight s;
     original_palette := original_palette s; palette := palette s;
     debug_trace_state := debug_trace_state s;
     reload_requested := reload_requested s;
     keyState := keyState s; joyState := v; hatState := hatState s;
     simState := simState s; mouseWheel := mouseWheel s;
     touchState := touchState s |}.

Definition set_hatState (v : Z) (s : Hal) : Hal :=
  {| win_w := win_w s; win_h := win_h s; fullscreen := fullscreen s;
     pending := pending s;
     screenWidth := screenWidth s; screenHeight := screenHeight s;
     original_palette := original_palette s; palette := palette s;
     debug_trace_state := debug_trace_state s;
     reload_requested := reload_requested s;
     keyState := keyState s; joyState := joyState s; hatState := v;
     simState := simState s; mouseWheel := mouseWheel s;
     touchState := touchState s |}.

Definition set_simState (v : Z) (s : Hal) : Hal :=
  {| win_w := win_w s; win_h := win_h s; fullscreen := fullscreen s;
     pending := pending s;
     screenWidth := screenWidth s; screenHeight := screenHeight s;
     original_palette := original_palette s; palette := palette s;
     debug_trace_state := debug_trace_state s;
     reload_requested := reload_requested s;
     keyState := keyState s; joyState := joyState s; hatState := hatState s;
     simState := v; mouseWheel := mouseWheel s;
     touchState := touchState s |}.

Definition set_mouseWheel (v : Z) (s : Hal) : Hal :=
  {| win_w := win_w s; win_h := win_h s; fullscreen := fullscreen s;
     pending := pending s;
     screenWidth := screenWidth s; screenHeight := screenHeight s;
     original_palette := original_palette s; palette := palette s;
     debug_trace_state := debug_trace_state s;
     reload_requested := reload_requested s;
     keyState := keyState s; joyState := joyState s; hatState := hatState s;
     simState := simState s; mouseWheel := v;
     touchState := touchState s |}.

Definition set_touchState (v : list TouchInfo) (s : Hal) : Hal :=
  {| win_w := win_w s; win_h := win_h s; fullscreen := fullscreen s;
     pending := pending s;
     screenWidth := screenWidth s; screenHeight := screenHeight s;
     original_palette := original_palette s; palette := palette s;
     debug_trace_state := debug_trace_state s;
     reload_requested := reload_requested s;
     keyState := keyState s; joyState := joyState s; hatState := hatState s;
     simState := simState s; mouseWheel := mouseWheel s;
     touchState := v |}.

(** [arr[i]] on a [std::array] held as a list, with an [int] index. *)
Definition array_get {A} (arr : list A) (i : Z) : option A :=
  if i <? 0 then None else arr !! Z.to_nat i.

(** The statics as initialised at program start, in a window of the given
    size with the given events pending.  [config::INIT_SCREEN_WIDTH] and
    [config::INIT_SCREEN_HEIGHT] are taken as arguments. *)
Definition hal_init (winx winy init_w init_h : Z) (evs : list SDL_Event) : Hal :=
  {| win_w := winx; win_h := winy; fullscreen := false; pending := evs;
     screenWidth := init_w; screenHeight := init_h;
     original_palette := replicate 256 0; palette := replicate 256 0;
     debug_trace_state := false; reload_requested := false;
     keyState := 0; joyState := 0; hatState := 0; simState := 0;
     mouseWheel := 0;
     touchState := replicate 8 TouchInfo_default |}.

(** ** Coordinate mapper *)

(** [getDisplayArea(win, &scale)]: the letterboxed destination rectangle
    and the scale factor. *)
Definition getDisplayArea (s : Hal) : SDL_Rect * double :=
  let winx := win_w s in
  let winy := win_h s in
  let xscale := ddiv (double_of_int winx) (double_of_int (screenWidth s)) in
  let yscale := ddiv (double_of_int winy) (double_of_int (screenHeight s)) in
  if dgt (dmul xscale (double_of_int (screenHeight s))) (double_of_int winy)
  then
    let w := int_of_double (dmul yscale (double_of_int (screenWidth s))) in
    ({| r_x := Z.quot winx 2 - Z.quot w 2; r_y := 0; r_w := w; r_h := winy |},
     yscale)
  else
    let h := int_of_double (dmul xscale (double_of_int (screenHeight s))) in
    ({| r_x := 0; r_y := Z.quot winy 2 - Z.quot h 2; r_w := winx; r_h := h |},
     xscale).

(** [scaleMouse(x, y)]: window coordinates to virtual-display pixels. *)
Definition scaleMouse (s : Hal) (x y : Z) : Z * Z :=
  let '(r, scale) := getDisplayArea s in
  let x := x - r_x r in
  let y := y - r_y r in
  (int_of_double (ddiv (double_of_int x) scale),
   int_of_double (ddiv (double_of_int y) scale)).

(** ** Palette table *)

(** What [GFX_GetPaletteInfo(name)] returns ([hal_palette.h]): a pointer to
    a table of packed 0xRRGGBB values, and the table's size. *)
Record PaletteInfo := { pal_size : nat; pal : nat -> Z }.

Section Palette.
(** [SDL_MapRGB] for the texture's pixel format. *)
Variable SDL_MapRGB : Z -> Z -> Z -> pixel_t.
(** The palette registry of [hal_palette.h]. *)
Variable GFX_GetPaletteInfo : string -> PaletteInfo.

Definition GFX_GetPixel (r g b : Z) : pixel_t := SDL_MapRGB r g b.

(** One iteration of the loop of [GFX_SelectPalette]. *)
Definition select_entry (info : PaletteInfo) (s : Hal) (i : nat) : Hal :=
  let p := pal info i in
  let pix := GFX_GetPixel (Z.land (Z.shiftr p 16) 255)
                          (Z.land (Z.shiftr p 8) 255) (Z.land p 255) in
  set_palette (<[i := pix]> (palette s))
    (set_original_palette (<[i := pix]> (original_palette s)) s).

(** [GFX_SelectPalette(name)].  A table larger than the 256-entry arrays
    would be written out of bounds. *)
Definition GFX_SelectPalette (name : string) (s : Hal) : option Hal :=
  let info := GFX_GetPaletteInfo name in
  if (256 <? pal_size info)%nat then None
  else Some (foldl (select_entry info) s (seq 0 (pal_size info))).

Definition GFX_RestorePalette (s : Hal) : Hal :=
  set_palette (original_palette s) s.

(** The index is a [uint8_t]. *)
Definition GFX_RestorePaletteIndex (i : Z) (s : Hal) : Hal :=
  let i := Z.to_nat (to_u8 i) in
  set_palette (<[i := original_palette s !!! i]> (palette s)) s.

Definition GFX_SetPaletteIndex (i r g b : Z) (s : Hal) : Hal :=
  let i := Z.to_nat (to_u8 i) in
  set_palette (<[i := GFX_GetPixel (to_u8 r) (to_u8 g) (to_u8 b)]> (palette s)) s.
End Palette.

Definition GFX_SetBackBufferSize (x y : Z) (s : Hal) : Hal := set_screen x y s.

(** ** Framebuffer compositor *)

(** The memory behind the locked texture, addressed in pixels from the
    pointer [SDL_LockTexture] returns, with a log of the source offsets read
    and of the destination offsets written (most recent first). *)
Record Surface := {
  pixels_mem : Z -> pixel_t;
  src_reads : list Z;
  dst_writes : list Z
}.

Inductive result (A : Type) :=
| Ok (a : A)
| Throw (msg : string).
Arguments Ok {A} a.
Arguments Throw {A} msg.

Section Compositor.
(** [sizeof(pixel_t)], from [hal_core.h]. *)
Variable sizeof_pixel_t : Z.
(** The palette-indexed source, by byte offset from [buffer]. *)
Variable buffer : Z -> Z.
Variable pal : list pixel_t.

(** [palette[buffer[o]]]; the byte read is a [uint8_t]. *)
Definition source_pixel (o : Z) : pixel_t := pal !!! Z.to_nat (to_u8 (buffer o)).

(** [pixels[x] = palette[buffer[x]]], the two pointers being [po] pixels
    and [bo] bytes past where they started. *)
Definition copy_pixel (po bo x : Z) (m : Surface) : Surface :=
  {| pixels_mem := fun a =>
       if a =? po + x then source_pixel (bo + x) else pixels_mem m a;
     src_reads := (bo + x) :: src_reads m;
     dst_writes := (po + x) :: dst_writes m |}.

(** The inner loop, from column [x] on; it copies two pixels per turn. *)
Fixpoint copy_row (fuel : nat) (po bo buffer_w x : Z) (m : Surface) : Surface :=
  match fuel with
  | O => m
  | S fuel =>
      if x <? buffer_w then
        let m := copy_pixel po bo x m in
        let x := x + 1 in
        let m := copy_pixel po bo x m in
        copy_row fuel po bo buffer_w (x + 1) m
      else m
  end.

(** The outer loop, with [rows] rows left. *)
Fixpoint copy_rows (rows : nat) (pitch po bo buffer_w : Z) (m : Surface) : Surface :=
  match rows with
  | O => m
  | S rows =>
      let m := copy_row (Z.to_nat buffer_w) po bo buffer_w 0 m in
      copy_rows rows pitch (po + Z.quot pitch sizeof_pixel_t) (bo + buffer_w)
        buffer_w m
  end.

(** [GFX_CopyBackBuffer(buffer, buffer_w, buffer_h)]; [res] and [pitch]
    are what [SDL_LockTexture] hands back. *)
Definition GFX_CopyBackBuffer (res pitch buffer_w buffer_h : Z) (m : Surface)
  : result Surface :=
  if res <? 0 then Throw "SDL_LockTexture Error: "
  else Ok (copy_rows (Z.to_nat buffer_h) pitch 0 0 buffer_w m).
End Compositor.

(** ** Input aggregator *)

Definition set_state_bit (state bit : Z) (condition value : bool) : Z :=
  if condition then
    if value then to_u8 (Z.lor state (Z.shiftl 1 bit))
    else to_u8 (Z.land state (Z.lnot (Z.shiftl 1 bit)))
  else state.

(** [touchState.size()] *)
Definition touchState_size : Z := 8.

Definition INP_GetTouchInfo (idx : Z) (s : Hal) : option TouchInfo :=
  if (idx <? 0) && (idx >=? touchState_size) then Some TouchInfo_default
  else array_get (touchState s) idx.

Section Touch.
Context `{TouchFlags}.
Import TouchState.

(** The body of the loop of [flushTouchEvents]. *)
Definition flush_slot (t : TouchInfo) : TouchInfo :=
  let st := ti_state t in
  let st := if truthy (Z.land st JustPressed)
            then Z.land st (Z.lnot JustPressed) else st in
  let st := if truthy (Z.land st JustReleased) then TouchState.None else st in
  {| ti_x := ti_x t; ti_y := ti_y t; ti_state := st |}.

Definition flushTouchEvents (s : Hal) : Hal :=
  set_touchState (map flush_slot (touchState s)) s.

Definition processTouchEvent (ev : SDL_TouchFingerEvent) (s : Hal) : option Hal :=
  if fingerId ev <? touchState_size then
    let idx := to_int32 (fingerId ev) in
    match array_get (touchState s) idx with
    | Datatypes.None => Datatypes.None
    | Some ti =>
        let x := int_of_double (fmul (tf_x ev) (float_of_int (win_w s))) in
        let y := int_of_double (fmul (tf_y ev) (float_of_int (win_h s))) in
        let '(x, y) := scaleMouse s x y in
        let st := ti_state ti in
        let st := match tf_type ev with
                  | SDL_FINGERDOWN => Z.lor st (Z.lor JustPressed Pressed)
                  | _ => st
                  end in
        let st := match tf_type ev with
                  | SDL_FINGERMOTION => Z.lor st Pressed
                  | _ => st
                  end in
        let st := match tf_type ev with
                  | SDL_FINGERUP => Z.lor st JustReleased
                  | _ => st
                  end in
        Some (set_touchState
                (<[Z.to_nat idx := {| ti_x := x; ti_y := y; ti_state := st |}]>
                   (touchState s)) s)
    end
  else Some s.

(** [GFX_ToggleFullScreen()]: the full-screen flag of the window, as
    [SDL_GetWindowFlags] reports it, is flipped.  What
    [SDL_SetWindowFullscreen] does to the window besides, a new size and
    the window events SDL queues for it, is SDL's and is not modelled. *)
Definition GFX_ToggleFullScreen (s : Hal) : Hal :=
  set_fullscreen (negb (fullscreen s)) s.

(** The nine [set_state_bit] calls of the key-down/key-up branch. *)
Definition key_bits (sym : Z) (down : bool) (k : Z) : Z :=
  let k := set_state_bit k 0 (sym =? SDLK_LEFT) down in
  let k := set_state_bit k 1 (sym =? SDLK_RIGHT) down in
  let k := set_state_bit k 2 (sym =? SDLK_UP) down in
  let k := set_state_bit k 3 (sym =? SDLK_DOWN) down in
  let k := set_state_bit k 4 (sym =? SDLK_z) down in
  let k := set_state_bit k 5 (sym =? SDLK_x) down in
  let k := set_state_bit k 6 (sym =? SDLK_p) down in
  let k := set_state_bit k 6 (sym =? SDLK_RETURN) down in
  set_state_bit k 7 (sym =? SDLK_ESCAPE) down.

Definition axis_bits (axis value : Z) (j : Z) : Z :=
  let j := set_state_bit j 0 (axis =? 0) (value <? -1500) in
  let j := set_state_bit j 1 (axis =? 0) (value >? 1500) in
  let j := set_state_bit j 2 (axis =? 1) (value <? -1500) in
  set_state_bit j 3 (axis =? 1) (value >? 1500).

Definition hat_bits (hatval : Z) (h : Z) : Z :=
  let h := set_state_bit h 0 true (truthy (Z.land hatval SDL_HAT_LEFT)) in
  let h := set_state_bit h 1 true (truthy (Z.land hatval SDL_HAT_RIGHT)) in
  let h := set_state_bit h 2 true (truthy (Z.land hatval SDL_HAT_UP)) in
  set_state_bit h 3 true (truthy (Z.land hatval SDL_HAT_DOWN)).

Definition button_bits (button state : Z) (j : Z) : Z :=
  let j := set_state_bit j 4 (button =? 1) (truthy state) in
  let j := set_state_bit j 5 (button =? 0) (truthy state) in
  set_state_bit j 6 (button =? 7) (truthy state).

(** [INP_ProcessInputEvents(ev)]: the returned flag and the new state.
    [mouseWheel += ev.wheel.y] is written without wrap-around: an overflow
    of the [int] is undefined in the source, and what is proved of the
    counter is proved of the runs that have none ([wheel_in_int]). *)
Definition INP_ProcessInputEvents (ev : SDL_Event) (s : Hal) : option (bool * Hal) :=
  match ev with
  | KeyboardEvent t sym kmod =>
      if is_keydown t && (sym =? SDLK_F11) then
        Some (true, GFX_ToggleFullScreen s)
      else if is_keydown t && (sym =? SDLK_q) && truthy (Z.land kmod KMOD_CTRL) then
        Some (false, s)
      else if is_keydown t && (sym =? SDLK_t) && truthy (Z.land kmod KMOD_CTRL) then
        Some (true, set_debug_trace_state (negb (debug_trace_state s)) s)
      else if is_keydown t && (sym =? SDLK_r) && truthy (Z.land kmod KMOD_CTRL) then
        Some (true, set_reload_requested true s)
      else
        Some (true, set_keyState (key_bits sym (is_keydown t) (keyState s)) s)
  | SDL_MOUSEWHEEL y => Some (true, set_mouseWheel (mouseWheel s + y) s)
  | SDL_JOYAXISMOTION axis value =>
      Some (true, set_joyState (axis_bits axis value (joyState s)) s)
  | SDL_JOYHATMOTION hatval =>
      Some (true, set_hatState (hat_bits hatval (hatState s)) s)
  | JoyButtonEvent _ button state =>
      Some (true, set_joyState (button_bits button state (joyState s)) s)
  | TouchFingerEvent tf =>
      match processTouchEvent tf s with
      | Some s => Some (true, s)
      | Datatypes.None => Datatypes.None
      end
  | SDL_QUIT | OtherEvent => Some (true, s)
  end.

(** [SDL_PollEvent(&e)] *)
Definition SDL_PollEvent (s : Hal) : option SDL_Event * Hal :=
  match pending s with
  | [] => (Datatypes.None, s)
  | e :: q => (Some e, set_pending q s)
  end.

(** [EVT_ProcessEvents()].  Both arms of the [while] body return, so the
    body runs at most once per call. *)
Definition EVT_ProcessEvents (s : Hal) : option (bool * Hal) :=
  match SDL_PollEvent s with
  | (Some e, s) =>
      match e with
      | SDL_QUIT => Some (false, s)
      | _ => INP_ProcessInputEvents e s
      end
  | (Datatypes.None, s) => Some (true, s)
  end.
End Touch.

Definition INP_GetInputState (s : Hal) : Z :=
  Z.lor (Z.lor (Z.lor (keyState s) (joyState s)) (hatState s)) (simState s).

Definition INP_SetSimState (state : Z) (s : Hal) : Hal :=
  set_simState (to_u8 state) s.

(** ** Frame lifecycle *)

Definition HAL_StartFrame (s : Hal) : Hal :=
  set_reload_requested false (set_simState 0 s).

Definition HAL_EndFrame `{TouchFlags} (s : Hal) : Hal := flushTouchEvents s.

Definition DEBUG_ReloadRequested (s : Hal) : bool := reload_requested s.

(** ** Joystick selection *)

(** The loop of [GFX_Init] over the attached joysticks, from joystick [n]
    on; [numbuttons] lists what [SDL_JoystickNumButtons] reports for each. *)
Fixpoint scan_joysticks (numbuttons : list Z) (n joystick_index : Z) : Z :=
  match numbuttons with
  | [] => joystick_index
  | nb :: rest =>
      scan_joysticks rest (n + 1)
        (if (joystick_index =? -1) && (nb >? 1) then n else joystick_index)
  end.

(** The index [GFX_Init] hands to [SDL_JoystickOpen], if it opens one. *)
Definition GFX_Init_joystick (numbuttons : list Z) : option Z :=
  let joystick_index := scan_joysticks numbuttons 0 (-1) in
  if joystick_index >=? 0 then Some joystick_index else None.

(** ** Back buffer creation *)

Section BackBuffer.
Variable SDL_MapRGB : Z -> Z -> Z -> pixel_t.
Variable GFX_GetPaletteInfo : string -> PaletteInfo.

(** [GFX_CreateBackBuffer(x, y)]; [texture] tells whether
    [SDL_CreateTexture] returned a texture.  The inner [option] is that of
    [GFX_SelectPalette]. *)
Definition GFX_CreateBackBuffer (texture : bool) (x y : Z) (s : Hal)
  : result (option Hal) :=
  let s := set_screen x y s in
  if negb texture then Throw "SDL_CreateTexture Error: "
  else
    Ok (GFX_RestorePalette <$> GFX_SelectPalette SDL_MapRGB GFX_GetPaletteInfo "pico8" s).
End BackBuffer.

(** ** Touch mask *)

(** One turn of the loop of [INP_GetTouchMask]; the mask is a [uint8_t]. *)
Definition touch_mask_step (s : Hal) (mask : Z) (n : nat) : Z :=
  match touchState s !! n with
  | Some t =>
      if negb (ti_state t =? TouchState.None)
      then to_u8 (Z.lor mask (Z.shiftl 1 (Z.of_nat n)))
      else mask
  | None => mask
  end.

Definition INP_GetTouchMask (s : Hal) : Z :=
  foldl (touch_mask_step s) 0 (seq 0 (Z.to_nat touchState_size)).

(** ** Mouse *)

(** The button masks of [SDL_mouse.h]. *)
Definition SDL_BUTTON (x : Z) : Z := Z.shiftl 1 (x - 1).
Definition SDL_BUTTON_LEFT : Z := 1.
Definition SDL_BUTTON_MIDDLE : Z := 2.
Definition SDL_BUTTON_RIGHT : Z := 3.

(** Modelled from the spec: [MouseState], declared in [hal_core.h]: the
    position in virtual-display coordinates, the button mask and the wheel
    delta. *)
Record MouseState := { ms_x : Z; ms_y : Z; ms_buttons : Z; ms_wheel : Z }.

(** [INP_GetMouseState()]; [b], [x] and [y] are what [SDL_GetMouseState]
    reports. *)
Definition INP_GetMouseState (b x y : Z) (s : Hal) : MouseState * Hal :=
  let '(x, y) := scaleMouse s x y in
  let buttons := if truthy (Z.land b (SDL_BUTTON SDL_BUTTON_LEFT)) then 1 else 0 in
  let buttons :=
    Z.lor buttons (if truthy (Z.land b (SDL_BUTTON SDL_BUTTON_RIGHT)) then 2 else 0) in
  let buttons :=
    Z.lor buttons (if truthy (Z.land b (SDL_BUTTON SDL_BUTTON_MIDDLE)) then 4 else 0) in
  ({| ms_x := x; ms_y := y; ms_buttons := buttons; ms_wheel := mouseWheel s |},
   set_mouseWheel 0 s).

(** ** Timers *)

(** Arithmetic on [uint32_t] and [uint64_t] wraps. *)
Definition to_u32 (z : Z) : Z := z mod 2 ^ 32.
Definition to_u64 (z : Z) : Z := z mod 2 ^ 64.

(** [TIME_GetElapsedTime_ms(start)], [ticks] being what [SDL_GetTicks]
    returns. *)
Definition TIME_GetElapsedTime_ms (ticks start : Z) : Z := to_u32 (ticks - start).

(** [((now - start) * per_second) / SDL_GetPerformanceFrequency()] on
    [uint64_t]; a division by zero is undefined. *)
Definition elapsed_profile_time (per_second now frequency start : Z) : option Z :=
  if frequency =? 0 then None
  else Some (to_u64 (to_u64 (now - start) * per_second) / frequency).

Definition TIME_GetElapsedProfileTime_us (now frequency start : Z) : option Z :=
  elapsed_profile_time 1000000 now frequency start.

Definition TIME_GetElapsedProfileTime_ms (now frequency start : Z) : option Z :=
  elapsed_profile_time 1000 now frequency start.

(** ** Files *)

(** [name.c_str()] as a C function reads it: the characters before the
    first NUL. *)
Fixpoint c_str (name : string) : string :=
  match name with
  | EmptyString => EmptyString
  | String c rest =>
      if Ascii.eqb c Ascii.zero then EmptyString else String c (c_str rest)
  end.

(** The part of the file system behind [SDL_RWFromFile]: the file a path
    designates (several paths can designate one file: [./a] and [a], a
    link, another letter case where the system folds it), the contents of
    the files that exist, whether a file can be opened for writing, and the
    number of [SDL_RWops] handles that are open. *)
Record FileSystem := {
  file_of : string -> string;
  files : gmap string string;
  can_write : string -> bool;
  open_handles : nat
}.

(** [SDL_RWFromFile(path, "r")]: the contents behind the handle, if the
    file exists. *)
Definition SDL_RWFromFile_r (path : string) (fs : FileSystem)
  : option (string * FileSystem) :=
  match files fs !! file_of fs path with
  | Some content =>
      Some (content, {| file_of := file_of fs; files := files fs;
                        can_write := can_write fs;
                        open_handles := S (open_handles fs) |})
  | None => None
  end.

(** [SDL_RWFromFile(path, "w")]: the file is created or emptied. *)
Definition SDL_RWFromFile_w (path : string) (fs : FileSystem) : option FileSystem :=
  if can_write fs path then
    Some {| file_of := file_of fs;
            files := <[file_of fs path := ""]> (files fs);
            can_write := can_write fs;
            open_handles := S (open_handles fs) |}
  else None.

(** [SDL_RWwrite(file, data, length, 1)] on a file just opened for writing
    under [path]. *)
Definition SDL_RWwrite (path data : string) (fs : FileSystem) : FileSystem :=
  {| file_of := file_of fs;
     files := <[file_of fs path := data]> (files fs);
     can_write := can_write fs;
     open_handles := open_handles fs |}.

Definition SDL_RWclose (fs : FileSystem) : FileSystem :=
  {| file_of := file_of fs; files := files fs; can_write := can_write fs;
     open_handles := Nat.pred (open_handles fs) |}.

Section Files.
(** The in-place transforms of [crypt.h]. *)
Variable encrypt : string -> string.
Variable decrypt : string -> string.
(** What [SDL_GetPrefPath("0xcafed00d", "tac08")] returns. *)
Variable pref_path : string.

(** [FILE_LoadFile(name)]: the data returned and the file system left
    behind.  [SDL_RWsize] gives the length of the contents, and
    [SDL_RWread] reads all of them. *)
Definition FILE_LoadFile (name : string) (fs : FileSystem) : string * FileSystem :=
  let data := "" in
  match SDL_RWFromFile_r (c_str name) fs with
  | Some (content, fs) =>
      let sz := String.length content in
      if negb (sz =? 0)%nat then
        let data := content in
        (decrypt data, SDL_RWclose fs)
      else (decrypt data, fs)
  | None => (decrypt data, fs)
  end.

Definition FILE_LoadGameState (name : string) (fs : FileSystem)
  : string * FileSystem :=
  FILE_LoadFile (pref_path +:+ name) fs.

Definition FILE_SaveGameState (name data : string) (fs : FileSystem) : FileSystem :=
  let data := encrypt data in
  let name := pref_path +:+ name in
  match SDL_RWFromFile_w (c_str name) fs with
  | Some fs => SDL_RWclose (SDL_RWwrite (c_str name) data fs)
  | None => fs
  end.
End Files.

(** ** Running the handler over a sequence of events *)

Section Runs.
Context `{TouchFlags}.

(** The state after [INP_ProcessInputEvents(ev)]. *)
Definition handle (ev : SDL_Event) (s : Hal) : option Hal :=
  snd <$> INP_ProcessInputEvents ev s.

(** The state after the events of [evs] were handled in order. *)
Fixpoint handle_all (evs : list SDL_Event) (s : Hal) : option Hal :=
  match evs with
  | [] => Some s
  | ev :: evs =>
      match handle ev s with
      | Some s => handle_all evs s
      | None => None
      end
  end.
End Runs.

(** ** Vocabulary of the properties *)

(** The physical keys whose branch of [key_bits] writes bit [b]. *)
Definition keys_of_bit (b : Z) : list Z :=
  match b with
  | 0 => [SDLK_LEFT]
  | 1 => [SDLK_RIGHT]
  | 2 => [SDLK_UP]
  | 3 => [SDLK_DOWN]
  | 4 => [SDLK_z]
  | 5 => [SDLK_x]
  | 6 => [SDLK_p; SDLK_RETURN]
  | 7 => [SDLK_ESCAPE]
  | _ => []
  end.

(** Whether the most recent event among the keys [ks] was a key-down;
    [init] when no event of [evs] concerns them. *)
Definition last_event_down (ks : list Z) (evs : list SDL_Event) (init : bool) : bool :=
  fold_left (fun acc ev =>
               match ev with
               | KeyboardEvent t sym _ =>
                   if existsb (Z.eqb sym) ks then is_keydown t else acc
               | _ => acc
               end) evs init.

(** "The most recent event for physical key [k] was a down event". *)
Definition key_held (k : Z) (evs : list SDL_Event) : bool :=
  last_event_down [k] evs false.

(** The OR, over the physical keys mapped to bit [b], of [key_held]. *)
Definition or_of_held_keys (b : Z) (evs : list SDL_Event) : bool :=
  existsb (fun k => key_held k evs) (keys_of_bit b).

(** Flag [f] is set in the state of touch point [t]. *)
Definition has_flag (f : Z) (t : TouchInfo) : bool := truthy (Z.land (ti_state t) f).

Definition is_finger_down (ev : SDL_Event) : bool :=
  match ev with
  | TouchFingerEvent tf =>
      match tf_type tf with SDL_FINGERDOWN => true | _ => false end
  | _ => false
  end.

(** The finger id of a touch event designates a slot or is at or above the
    capacity; every other event qualifies. *)
Definition finger_in_range (ev : SDL_Event) : Prop :=
  match ev with
  | TouchFingerEvent tf => 0 <= fingerId tf
  | _ => True
  end.

(** The statics hold arrays of the declared sizes. *)
Definition arrays_ok (s : Hal) : Prop :=
  length (touchState s) = 8%nat /\
  length (palette s) = 256%nat /\ length (original_palette s) = 256%nat.

(** The flags an event of each type ORs into its slot. *)
Definition event_flags `{TouchFlags} (ty : FingerEventType) : Z :=
  match ty with
  | SDL_FINGERDOWN => Z.lor TouchState.JustPressed TouchState.Pressed
  | SDL_FINGERMOTION => TouchState.Pressed
  | SDL_FINGERUP => TouchState.JustReleased
  end.

(** The virtual-display position [processTouchEvent] stores. *)
Definition touch_position (s : Hal) (ev : SDL_TouchFingerEvent) : Z * Z :=
  scaleMouse s (int_of_double (fmul (tf_x ev) (float_of_int (win_w s))))
               (int_of_double (fmul (tf_y ev) (float_of_int (win_h s)))).

(** A call of the palette interface after a palette was selected. *)
Inductive PaletteOp :=
| OpSetIndex (i r g b : Z)
| OpRestoreIndex (i : Z)
| OpRestoreAll.

Definition apply_op (M : Z -> Z -> Z -> pixel_t) (s : Hal) (op : PaletteOp) : Hal :=
  match op with
  | OpSetIndex i r g b => GFX_SetPaletteIndex M i r g b s
  | OpRestoreIndex i => GFX_RestorePaletteIndex i s
  | OpRestoreAll => GFX_RestorePalette s
  end.

(** The native pixel [GFX_SelectPalette] computes for entry [i] of a table. *)
Definition entry_pixel (M : Z -> Z -> Z -> pixel_t) (info : PaletteInfo) (i : nat)
  : pixel_t :=
  let p := pal info i in
  GFX_GetPixel M (Z.land (Z.shiftr p 16) 255) (Z.land (Z.shiftr p 8) 255) (Z.land p 255).

(** Both palettes are 256-entry arrays. *)
Definition palettes_ok (s : Hal) : Prop :=
  length (palette s) = 256%nat /\ length (original_palette s) = 256%nat.

(** [n] turns of the inner loop from column [x], without the loop test. *)
Fixpoint copy_pairs (buffer : Z -> Z) (pal : list pixel_t) (n : nat)
         (po bo x : Z) (m : Surface) : Surface :=
  match n with
  | O => m
  | S n =>
      copy_pairs buffer pal n po bo (x + 2)
        (copy_pixel buffer pal po bo (x + 1) (copy_pixel buffer pal po bo x m))
  end.

(** The number of columns the inner loop covers: [w] rounded up to even. *)
Definition covered (w : Z) : Z := 2 * ((w + 1) / 2).

(** The mapper over exact rationals: the computation of [getDisplayArea]
    with every [double] replaced by the rational it approximates. *)
Module Exact.
Definition int_of_Q (d : Q) : Z := Z.quot (Qnum d) (Zpos (Qden d)).

Definition display_area (winx winy screenWidth screenHeight : Z) : SDL_Rect * Q :=
  let xscale := (inject_Z winx / inject_Z screenWidth)%Q in
  let yscale := (inject_Z winy / inject_Z screenHeight)%Q in
  if negb (Qle_bool (xscale * inject_Z screenHeight) (inject_Z winy))
  then
    let w := int_of_Q (yscale * inject_Z screenWidth) in
    ({| r_x := Z.quot winx 2 - Z.quot w 2; r_y := 0; r_w := w; r_h := winy |},
     yscale)
  else
    let h := int_of_Q (xscale * inject_Z screenHeight) in
    ({| r_x := 0; r_y := Z.quot winy 2 - Z.quot h 2; r_w := winx; r_h := h |},
     xscale).
End Exact.

(** The scale as the specification words it. *)
Definition spec_scale (w_phys h_phys w_virt h_virt : Z) : Q :=
  Qmin (inject_Z w_phys / inject_Z w_virt) (inject_Z h_phys / inject_Z h_virt).

(** The rational a finite [double] stands for: mantissa times a power of
    two, written over 2^1074 (no binary64 exponent is below -1074). *)
Definition double_value (d : double) : Q :=
  match d with
  | S754_finite s m e =>
      (inject_Z ((if s then Z.neg m else Z.pos m) * 2 ^ (e + 1074))
       / inject_Z (2 ^ 1074))%Q
  | _ => 0%Q
  end.

(** The value of a positive finite [double], times 2^1074: a whole
    number, no binary64 exponent being below -1074. *)
Definition scaled (m : positive) (e : Z) : Z := Z.pos m * 2 ^ (e + 1074).

(** [d] is the positive finite binary64 number [a / b]. *)
Definition exact_ratio (d : double) (a b : Z) : bool :=
  match d with
  | S754_finite false m e =>
      valid_binary 53 1024 d && (Z.pos m * 2 ^ (e + 1074) * b =? a * 2 ^ 1074)
  | _ => false
  end.

(** On the sizes of [s] the quotients and products of [getDisplayArea]
    are the exact ones: nothing is lost to rounding. *)
Definition unrounded (s : Hal) : bool :=
  let winx := win_w s in
  let winy := win_h s in
  let sw := screenWidth s in
  let sh := screenHeight s in
  let xscale := ddiv (double_of_int winx) (double_of_int sw) in
  let yscale := ddiv (double_of_int winy) (double_of_int sh) in
  exact_ratio (double_of_int winy) winy 1
  && exact_ratio xscale winx sw
  && exact_ratio yscale winy sh
  && exact_ratio (dmul xscale (double_of_int sh)) (winx * sh) sw
  && exact_ratio (dmul yscale (double_of_int sw)) (winy * sw) sh.

(** The sum of the wheel movements among [evs]. *)
Definition wheel_total (evs : list SDL_Event) : Z :=
  foldr (fun ev acc => match ev with SDL_MOUSEWHEEL y => y + acc | _ => acc end) 0 evs.

(** Every [ev.wheel.y] among [evs] is an [int], and no
    [mouseWheel += ev.wheel.y] takes the counter, an [int] that holds [w]
    before them, out of the range of [int]. *)
Fixpoint wheel_in_int (w : Z) (evs : list SDL_Event) : bool :=
  match evs with
  | [] => true
  | SDL_MOUSEWHEEL y :: evs =>
      (INT_MIN <=? y) && (y <=? INT_MAX)
      && (INT_MIN <=? w + y) && (w + y <=? INT_MAX) && wheel_in_int (w + y) evs
  | _ :: evs => wheel_in_int w evs
  end.


(** A call of the input and frame interface. *)
Inductive HalCall :=
| CallProcessInputEvents (ev : SDL_Event)
| CallProcessEvents
| CallSetSimState (state : Z)
| CallGetMouseState (b x y : Z)
| CallStartFrame
| CallEndFrame.

Definition call `{TouchFlags} (c : HalCall) (s : Hal) : option Hal :=
  match c with
  | CallProcessInputEvents ev => handle ev s
  | CallProcessEvents => snd <$> EVT_ProcessEvents s
  | CallSetSimState state => Some (INP_SetSimState state s)
  | CallGetMouseState b x y => Some (snd (INP_GetMouseState b x y s))
  | CallStartFrame => Some (HAL_StartFrame s)
  | CallEndFrame => Some (HAL_EndFrame s)
  end.

Fixpoint calls `{TouchFlags} (cs : list HalCall) (s : Hal) : option Hal :=
  match cs with
  | [] => Some s
  | c :: cs =>
      match call c s with
      | Some s => calls cs s
      | None => None
      end
  end.

(** What holds of the four masks in every state the interface can reach:
    each fits its [uint8_t]; the joystick mask uses bits 0 to 6 and never
    asserts two opposite directions of an axis; the hat mask uses bits 0
    to 3. *)
Definition masks_ok (s : Hal) : Prop :=
  0 <= keyState s < 256 /\ 0 <= joyState s < 128 /\
  0 <= hatState s < 16 /\ 0 <= simState s < 256 /\
  Z.testbit (joyState s) 0 && Z.testbit (joyState s) 1 = false /\
  Z.testbit (joyState s) 2 && Z.testbit (joyState s) 3 = false.


(** The key-down of F11, on which the handler calls
    [GFX_ToggleFullScreen]. *)
Definition is_fullscreen_toggle (ev : SDL_Event) : bool :=
  match ev with
  | KeyboardEvent SDL_KEYDOWN sym _ => sym =? SDLK_F11
  | _ => false
  end.

(** A call whose event, if it carries one, can be handled. *)
Definition call_in_range (c : HalCall) : Prop :=
  match c with
  | CallProcessInputEvents ev => finger_in_range ev
  | _ => True
  end.

(** The static an event of each type is routed to. *)
Inductive EventKind := KeyKind | WheelKind | JoyKind | HatKind | TouchKind | NoKind.

Definition kind_of (ev : SDL_Event) : EventKind :=
  match ev with
  | KeyboardEvent _ _ _ => KeyKind
  | SDL_MOUSEWHEEL _ => WheelKind
  | SDL_JOYAXISMOTION _ _ | JoyButtonEvent _ _ _ => JoyKind
  | SDL_JOYHATMOTION _ => HatKind
  | TouchFingerEvent _ => TouchKind
  | SDL_QUIT | OtherEvent => NoKind
  end.

Definition is_start_frame (c : HalCall) : bool :=
  match c with CallStartFrame => true | _ => false end.

(** Slot [i] of the table holds a touch point whose state is not [None]. *)
Definition slot_active (s : Hal) (i : Z) : bool :=
  match touchState s !! Z.to_nat i with
  | Some t => negb (ti_state t =? TouchState.None)
  | None => false
  end.

(** ** Sample inputs *)

(** A flag assignment, for evaluating the definitions. *)
#[export] Instance sample_flags : TouchFlags :=
  {| JustPressed_bit := 0; Pressed_bit := 1; JustReleased_bit := 2;
     flag_bits_range := ltac:(lia);
     flag_bits_distinct := ltac:(lia) |}.

(** A 640x480 window on the 128x128 virtual display, nothing pending. *)
Definition sample_hal : Hal := hal_init 640 480 128 128 [].

(** A finger event in the middle of the window. *)
Definition sample_touch (ty : FingerEventType) (id : Z) : SDL_TouchFingerEvent :=
  {| tf_type := ty; fingerId := id;
     tf_x := SFdiv 24 128 (float_of_int 1) (float_of_int 2);
     tf_y := SFdiv 24 128 (float_of_int 1) (float_of_int 2) |}.

(** A touch point that was put down in the current frame. *)
Definition fresh_touch : TouchInfo :=
  {| ti_x := 64; ti_y := 64;
     ti_state := Z.lor TouchState.JustPressed TouchState.Pressed |}.

(** [sample_hal] with [fresh_touch] in slot 0. *)
Definition pressed_hal : Hal :=
  set_touchState (<[0%nat := fresh_touch]> (touchState sample_hal)) sample_hal.

(** A registry with one 16-entry table of greys under every name. *)
Definition sample_registry (name : string) : PaletteInfo :=
  {| pal_size := 16; pal := fun i => Z.of_nat i * 1118481 |}.

(** RGB565 packing, the pixel format of the texture. *)
Definition rgb565 (r g b : Z) : pixel_t :=
  Z.lor (Z.lor (Z.shiftl (Z.shiftr r 3) 11) (Z.shiftl (Z.shiftr g 2) 5)) (Z.shiftr b 3).

(** An empty surface with empty access logs. *)
Definition sample_surface : Surface :=
  {| pixels_mem := fun _ => 0; src_reads := []; dst_writes := [] |}.

(** An empty file system in which every file can be created and no two
    paths designate the same file. *)
Definition sample_fs : FileSystem :=
  {| file_of := fun path => path; files := ∅; can_write := fun _ => true;
     open_handles := 0 |}.

(** * Properties *)

(** ** Bit-level facts *)

Lemma shiftl_1_testbit (b i : Z) :
  0 <= b -> Z.testbit (Z.shiftl 1 b) i = (b =? i).
Proof.
  intros Hb. rewrite Z.shiftl_1_l. now apply Z.pow2_bits_eqb.
Qed.

Lemma to_u8_testbit (z i : Z) :
  Z.testbit (to_u8 z) i = (i <? 8) && Z.testbit z i.
Proof. unfold to_u8. apply Z.testbit_mod_pow2. lia. Qed.

Lemma to_u8_range (z : Z) : 0 <= to_u8 z < 256.
Proof. unfold to_u8. change (2 ^ 8) with 256. apply Z.mod_pos_bound. lia. Qed.

(** What [set_state_bit] does to each of the eight bits. *)
Lemma set_state_bit_testbit (state bit : Z) (condition value : bool) (i : Z) :
  0 <= bit -> 0 <= i < 8 ->
  Z.testbit (set_state_bit state bit condition value) i =
  if condition && (bit =? i) then value else Z.testbit state i.
Proof.
  intros Hb Hi. unfold set_state_bit.
  destruct condition; simpl; [|reflexivity].
  assert (Hlt : (i <? 8) = true) by (apply Z.ltb_lt; lia).
  destruct value; rewrite to_u8_testbit, Hlt; simpl.
  - rewrite Z.lor_spec, shiftl_1_testbit by lia.
    destruct (bit =? i); [apply orb_true_r | apply orb_false_r].
  - rewrite Z.land_spec, Z.lnot_spec, shiftl_1_testbit by lia.
    destruct (bit =? i); [apply andb_false_r | apply andb_true_r].
Qed.

(** A [uint8_t] stays a [uint8_t]. *)
Lemma set_state_bit_range (state bit : Z) (condition value : bool) :
  0 <= state < 256 -> 0 <= set_state_bit state bit condition value < 256.
Proof.
  intros Hs. unfold set_state_bit.
  destruct condition; [destruct value; apply to_u8_range | exact Hs].
Qed.

Ltac bit_cases i :=
  let E := fresh "E" in
  assert (E : i = 0 \/ i = 1 \/ i = 2 \/ i = 3 \/ i = 4 \/ i = 5 \/ i = 6 \/ i = 7)
    by lia;
  repeat (destruct E as [E | E]; [subst i | ]); [.. | subst i].

(** ** Joystick axis *)

Lemma axis_bits_testbit (axis value j i : Z) :
  0 <= i < 8 ->
  Z.testbit (axis_bits axis value j) i =
  if (axis =? 0) && (i =? 0) then value <? -1500
  else if (axis =? 0) && (i =? 1) then value >? 1500
  else if (axis =? 1) && (i =? 2) then value <? -1500
  else if (axis =? 1) && (i =? 3) then value >? 1500
  else Z.testbit j i.
Proof.
  intros Hi. unfold axis_bits.
  rewrite !set_state_bit_testbit by lia.
  bit_cases i; simpl; destruct (axis =? 0), (axis =? 1); reflexivity.
Qed.

Lemma axis_bits_other_axis (axis value j : Z) :
  axis <> 0 -> axis <> 1 -> axis_bits axis value j = j.
Proof.
  intros H0 H1. unfold axis_bits, set_state_bit.
  apply Z.eqb_neq in H0, H1. now rewrite H0, H1.
Qed.

(** C7.  A joystick-axis event on axis 0 or 1 writes the two direction bits
    of that axis (bits 2*axis and 2*axis+1) from the value alone: beyond
    the deadzone 1500 the bit of the value's direction is set and the
    opposite one cleared, within the deadzone both are cleared, so the two
    are never both set afterwards; every other bit of the joystick mask is
    kept, and an event on another axis changes nothing, so that no axis
    event makes two opposite bits both set.  With axis 0 and
    value -2000 bit 0 is set and bit 1 clear; a following value 0 on axis 0
    clears bit 0. *)
Theorem joy_axis_deadzone `{TouchFlags} (s : Hal) (axis value : Z) :
  exists s',
    INP_ProcessInputEvents (SDL_JOYAXISMOTION axis value) s = Some (true, s') /\
    let neg := Z.testbit (joyState s') (2 * axis) in
    let pos := Z.testbit (joyState s') (2 * axis + 1) in
    (axis = 0 \/ axis = 1 ->
       neg = (value <? -1500) /\ pos = (value >? 1500) /\
       (value < -1500 -> neg = true /\ pos = false) /\
       (1500 < value -> neg = false /\ pos = true) /\
       (-1500 <= value <= 1500 -> neg = false /\ pos = false) /\
       neg && pos = false /\
       (forall i, 0 <= i < 8 -> i <> 2 * axis -> i <> 2 * axis + 1 ->
          Z.testbit (joyState s') i = Z.testbit (joyState s) i)) /\
    (axis <> 0 -> axis <> 1 -> joyState s' = joyState s) /\
    (forall a, a = 0 \/ a = 1 ->
       Z.testbit (joyState s) (2 * a) && Z.testbit (joyState s) (2 * a + 1) = false ->
       Z.testbit (joyState s') (2 * a) && Z.testbit (joyState s') (2 * a + 1) = false) /\
    (keyState s' = keyState s /\ hatState s' = hatState s /\
     simState s' = simState s /\ touchState s' = touchState s) /\
    (exists s1 s2,
       handle (SDL_JOYAXISMOTION 0 (-2000)) s = Some s1 /\
       Z.testbit (joyState s1) 0 = true /\ Z.testbit (joyState s1) 1 = false /\
       handle (SDL_JOYAXISMOTION 0 0) s1 = Some s2 /\
       Z.testbit (joyState s2) 0 = false).
Proof.
  eexists. split; [reflexivity|]. cbn zeta. simpl joyState.
  split; [|split; [|split; [|split]]].
  - intros Hax.
    assert (Hneg : Z.testbit (axis_bits axis value (joyState s)) (2 * axis)
                   = (value <? -1500)).
    { rewrite axis_bits_testbit by lia. destruct Hax; subst axis; reflexivity. }
    assert (Hpos : Z.testbit (axis_bits axis value (joyState s)) (2 * axis + 1)
                   = (value >? 1500)).
    { rewrite axis_bits_testbit by lia. destruct Hax; subst axis; reflexivity. }
    rewrite Hneg, Hpos, Z.gtb_ltb.
    split; [reflexivity|]. split; [reflexivity|].
    split; [intros Hv; split; [apply Z.ltb_lt | apply Z.ltb_ge]; lia|].
    split; [intros Hv; split; [apply Z.ltb_ge | apply Z.ltb_lt]; lia|].
    split; [intros Hv; split; apply Z.ltb_ge; lia|].
    split.
    + destruct (Z.ltb_spec value (-1500)), (Z.ltb_spec 1500 value);
        try reflexivity; lia.
    + intros i Hi Hn Hp. rewrite axis_bits_testbit by lia.
      destruct Hax; subst axis; bit_cases i; simpl; try reflexivity; lia.
  - intros H0 H1. now apply axis_bits_other_axis.
  - intros a Ha Hpre. rewrite !axis_bits_testbit by lia.
    rewrite Z.gtb_ltb.
    destruct Ha; subst a; cbn in Hpre |- *;
      destruct (axis =? 0), (axis =? 1); cbn; try exact Hpre;
      destruct (Z.ltb_spec value (-1500)), (Z.ltb_spec 1500 value);
      try reflexivity; lia.
  - repeat split.
  - set (s1 := set_joyState (axis_bits 0 (-2000) (joyState s)) s).
    exists s1, (set_joyState (axis_bits 0 0 (joyState s1)) s1).
    subst s1. split; [reflexivity|].
    cbn [joyState set_joyState].
    rewrite !axis_bits_testbit by lia.
    split; [reflexivity|]. split; [reflexivity|]. split; reflexivity.
Qed.

(** An event on axis 2 with value -2000, beyond the deadzone, sets no bit:
    the joystick mask stays 0.  And with bits 4 and 5 of the mask set, the
    two that a third axis would have, an event on axis 2 with value 0
    clears neither. *)
Lemma joy_axis_unmapped_counterexample :
  (exists s',
     handle (SDL_JOYAXISMOTION 2 (-2000)) sample_hal = Some s' /\
     -2000 < -1500 /\ joyState sample_hal = 0 /\ joyState s' = 0) /\
  (exists s',
     handle (SDL_JOYAXISMOTION 2 0) (set_joyState 48 sample_hal) = Some s' /\
     Z.testbit (joyState s') (2 * 2) = true /\
     Z.testbit (joyState s') (2 * 2 + 1) = true).
Proof.
  split.
  - eexists. split; [reflexivity|]. split; [lia|]. split; reflexivity.
  - eexists. split; [reflexivity|]. split; reflexivity.
Qed.

(** ** Combination of the four masks and the start of a frame *)

Lemma key_bits_testbit (sym : Z) (down : bool) (k i : Z) :
  0 <= i < 8 ->
  Z.testbit (key_bits sym down k) i =
  if existsb (Z.eqb sym) (keys_of_bit i) then down else Z.testbit k i.
Proof.
  intros Hi. unfold key_bits.
  rewrite !set_state_bit_testbit by lia.
  bit_cases i; simpl; rewrite ?orb_false_r, ?andb_true_r, ?andb_false_r;
    try reflexivity.
  destruct (sym =? SDLK_RETURN), (sym =? SDLK_p); reflexivity.
Qed.

(** C4.  [INP_GetInputState] is the bitwise OR of the keyboard, joystick,
    hat and simulated masks.  [HAL_StartFrame] sets the simulated mask to
    zero and the reload flag to false and changes no other variable, the
    three other masks and the touch table included; a mask injected with
    [INP_SetSimState] is gone from the combined state once it has run.
    When the keyboard's and the simulated bit 2 are set the combined bit 2
    is set; it stays set after the key-up of the up-arrow, which clears
    the keyboard's bit 2 only, and once [HAL_StartFrame] has run it is
    whatever the joystick and hat masks hold. *)
Theorem input_state_is_or_of_sources `{TouchFlags} (s : Hal) :
  INP_GetInputState s
    = Z.lor (Z.lor (Z.lor (keyState s) (joyState s)) (hatState s)) (simState s) /\
  (forall i, Z.testbit (INP_GetInputState s) i
             = Z.testbit (keyState s) i || Z.testbit (joyState s) i
               || Z.testbit (hatState s) i || Z.testbit (simState s) i) /\
  (let s' := HAL_StartFrame s in
   simState s' = 0 /\ DEBUG_ReloadRequested s' = false /\
   keyState s' = keyState s /\ joyState s' = joyState s /\
   hatState s' = hatState s /\ touchState s' = touchState s /\
   s' = set_reload_requested false (set_simState 0 s)) /\
  (forall state,
     INP_GetInputState (HAL_StartFrame (INP_SetSimState state s))
     = Z.lor (Z.lor (keyState s) (joyState s)) (hatState s)) /\
  (Z.testbit (keyState s) 2 = true -> Z.testbit (simState s) 2 = true ->
   Z.testbit (INP_GetInputState s) 2 = true /\
   forall kmod, exists s1,
     INP_ProcessInputEvents (KeyboardEvent SDL_KEYUP SDLK_UP kmod) s = Some (true, s1) /\
     Z.testbit (keyState s1) 2 = false /\
     simState s1 = simState s /\
     Z.testbit (INP_GetInputState s1) 2 = true /\
     simState (HAL_StartFrame s1) = 0 /\
     Z.testbit (INP_GetInputState (HAL_StartFrame s1)) 2
       = Z.testbit (joyState s) 2 || Z.testbit (hatState s) 2).
Proof.
  split; [reflexivity|]. split; [|split; [|split]].
  - intros i. unfold INP_GetInputState. now rewrite !Z.lor_spec.
  - cbn zeta. repeat split.
  - intros state. unfold INP_GetInputState. cbn. apply Z.lor_0_r.
  - intros Hk Hs. split.
    + unfold INP_GetInputState. rewrite !Z.lor_spec, Hk. reflexivity.
    + intros kmod.
      exists (set_keyState (key_bits SDLK_UP false (keyState s)) s).
      split; [reflexivity|].
      assert (Hk' : Z.testbit (key_bits SDLK_UP false (keyState s)) 2 = false).
      { rewrite key_bits_testbit by lia. reflexivity. }
      unfold INP_GetInputState, HAL_StartFrame.
      cbn [keyState joyState hatState simState set_keyState set_simState
           set_reload_requested].
      rewrite !Z.lor_spec, Hk', Hs, Z.testbit_0_l, !orb_false_r, orb_true_r.
      repeat split.
Qed.

(** ** The handler, event by event *)

Section Handler.
Context `{TouchFlags}.

Lemma to_int32_small (z : Z) : - 2 ^ 31 <= z < 2 ^ 31 -> to_int32 z = z.
Proof.
  intros Hz. unfold to_int32. rewrite Z.mod_small; lia.
Qed.

Lemma array_get_Some {A} (arr : list A) (i : Z) :
  0 <= i < Z.of_nat (length arr) -> exists a, array_get arr i = Some a.
Proof.
  intros Hi. unfold array_get.
  destruct (i <? 0) eqn:E; [lia|].
  destruct (lookup_lt_is_Some_2 arr (Z.to_nat i)) as [a Ha]; [lia|].
  now exists a.
Qed.

Lemma array_get_None {A} (arr : list A) (i : Z) :
  i < 0 \/ Z.of_nat (length arr) <= i -> array_get arr i = None.
Proof.
  intros Hi. unfold array_get.
  destruct (i <? 0) eqn:E; [reflexivity|].
  apply lookup_ge_None. lia.
Qed.

(** What [processTouchEvent] leaves alone. *)
Lemma processTouchEvent_frame (tf : SDL_TouchFingerEvent) (s s' : Hal) :
  processTouchEvent tf s = Some s' ->
  keyState s' = keyState s /\ joyState s' = joyState s /\
  hatState s' = hatState s /\ simState s' = simState s /\
  palette s' = palette s /\ original_palette s' = original_palette s /\
  pending s' = pending s /\
  length (touchState s') = length (touchState s).
Proof.
  unfold processTouchEvent.
  destruct (fingerId tf <? touchState_size); [|intros [= <-]; repeat split].
  destruct (array_get (touchState s) (to_int32 (fingerId tf))); [|discriminate].
  destruct (scaleMouse s _ _) as [x y]. intros [= <-].
  cbn. rewrite length_insert. repeat split.
Qed.

Lemma processTouchEvent_defined (tf : SDL_TouchFingerEvent) (s : Hal) :
  length (touchState s) = 8%nat -> 0 <= fingerId tf ->
  exists s', processTouchEvent tf s = Some s'.
Proof.
  intros Hlen Hid. unfold processTouchEvent, touchState_size.
  destruct (fingerId tf <? 8) eqn:E; [|eauto].
  apply Z.ltb_lt in E.
  rewrite to_int32_small by lia.
  destruct (array_get_Some (touchState s) (fingerId tf)) as [t Ht]; [lia|].
  rewrite Ht. destruct (scaleMouse s _ _). eauto.
Qed.

Lemma handle_arrays_ok (ev : SDL_Event) (s s' : Hal) :
  handle ev s = Some s' -> arrays_ok s -> arrays_ok s'.
Proof.
  unfold handle, INP_ProcessInputEvents, arrays_ok.
  destruct ev as [|t sym kmod| | | | |tf|]; cbn;
    try (intros [= <-]; trivial).
  - repeat match goal with |- context [if ?c then _ else _] => destruct c end;
      cbn; intros [= <-]; trivial.
  - destruct (processTouchEvent tf s) as [s1|] eqn:E; [|discriminate].
    cbn. intros [= <-]. apply processTouchEvent_frame in E.
    destruct E as (_ & _ & _ & _ & -> & -> & _ & ->). trivial.
Qed.

Lemma handle_defined (ev : SDL_Event) (s : Hal) :
  arrays_ok s -> finger_in_range ev -> exists s', handle ev s = Some s'.
Proof.
  intros (Hlen & _) Hr. unfold handle.
  destruct ev as [|t sym kmod| | | | |tf|]; cbn; eauto.
  - repeat match goal with |- context [if ?c then _ else _] => destruct c end;
      cbn; eauto.
  - destruct (processTouchEvent_defined tf s Hlen Hr) as [s' ->]. cbn. eauto.
Qed.

Lemma handle_all_defined (evs : list SDL_Event) (s : Hal) :
  arrays_ok s -> Forall finger_in_range evs -> exists s', handle_all evs s = Some s'.
Proof.
  intros Hok Hall. revert s Hok.
  induction Hall as [|ev evs Hev _ IH]; intros s Hok; cbn; [eauto|].
  destruct (handle_defined ev s Hok Hev) as [s1 E]. rewrite E.
  apply IH. eapply handle_arrays_ok; eauto.
Qed.

(** The keyboard mask after one event: a key-down or key-up of a mapped key
    writes its bit, anything else keeps the mask. *)
Lemma handle_keyState_testbit (ev : SDL_Event) (s s' : Hal) (i : Z) :
  handle ev s = Some s' -> 0 <= i < 8 ->
  Z.testbit (keyState s') i =
  match ev with
  | KeyboardEvent t sym _ =>
      if existsb (Z.eqb sym) (keys_of_bit i) then is_keydown t
      else Z.testbit (keyState s) i
  | _ => Z.testbit (keyState s) i
  end.
Proof.
  intros Hh Hi. unfold handle, INP_ProcessInputEvents in Hh.
  destruct ev as [|t sym kmod| | | | |tf|]; cbn in Hh;
    try (injection Hh as <-; reflexivity).
  - assert (Hhot : forall k, (sym =? k) = true ->
                     existsb (Z.eqb k) (keys_of_bit i) = false ->
                     existsb (Z.eqb sym) (keys_of_bit i) = false).
    { intros k Hk. apply Z.eqb_eq in Hk. now subst k. }
    destruct (is_keydown t && (sym =? SDLK_F11)) eqn:E1.
    { injection Hh as <-. apply andb_prop in E1 as [_ E1].
      rewrite (Hhot _ E1); [reflexivity|]. bit_cases i; reflexivity. }
    destruct (is_keydown t && (sym =? SDLK_q) && truthy (Z.land kmod KMOD_CTRL)) eqn:E2.
    { injection Hh as <-. apply andb_prop in E2 as [E2 _].
      apply andb_prop in E2 as [_ E2].
      rewrite (Hhot _ E2); [reflexivity|]. bit_cases i; reflexivity. }
    destruct (is_keydown t && (sym =? SDLK_t) && truthy (Z.land kmod KMOD_CTRL)) eqn:E3.
    { injection Hh as <-. apply andb_prop in E3 as [E3 _].
      apply andb_prop in E3 as [_ E3].
      rewrite (Hhot _ E3); [reflexivity|]. bit_cases i; reflexivity. }
    destruct (is_keydown t && (sym =? SDLK_r) && truthy (Z.land kmod KMOD_CTRL)) eqn:E4.
    { injection Hh as <-. apply andb_prop in E4 as [E4 _].
      apply andb_prop in E4 as [_ E4].
      rewrite (Hhot _ E4); [reflexivity|]. bit_cases i; reflexivity. }
    injection Hh as <-. cbn [keyState set_keyState].
    now apply key_bits_testbit.
  - destruct (processTouchEvent tf s) as [s1|] eqn:E; [|discriminate].
    cbn in Hh. injection Hh as <-.
    apply processTouchEvent_frame in E. destruct E as (-> & _). reflexivity.
Qed.

(** The keyboard mask after a run: each bit is decided by the last event
    among the keys that write it. *)
Lemma handle_all_keyState_testbit (evs : list SDL_Event) (s s' : Hal) (i : Z) :
  handle_all evs s = Some s' -> 0 <= i < 8 ->
  Z.testbit (keyState s') i
  = last_event_down (keys_of_bit i) evs (Z.testbit (keyState s) i).
Proof.
  revert s. induction evs as [|ev evs IH]; intros s Hrun Hi; cbn in Hrun.
  - injection Hrun as <-. reflexivity.
  - destruct (handle ev s) as [s1|] eqn:E; [|discriminate].
    rewrite (IH s1 Hrun Hi), (handle_keyState_testbit ev s s1 i E Hi).
    unfold last_event_down. cbn [fold_left].
    destruct ev; reflexivity.
Qed.

Lemma last_event_down_snoc (ks : list Z) (evs : list SDL_Event) (init : bool)
      (t : KeyEventType) (k kmod : Z) :
  In k ks ->
  last_event_down ks (evs ++ [KeyboardEvent t k kmod]) init = is_keydown t.
Proof.
  intros Hin. unfold last_event_down. rewrite fold_left_app. cbn.
  assert (E : existsb (Z.eqb k) ks = true).
  { apply existsb_exists. exists k. split; [exact Hin | apply Z.eqb_refl]. }
  now rewrite E.
Qed.

End Handler.

(** ** Keyboard mask *)

Lemma hal_init_arrays_ok (winx winy w h : Z) (evs : list SDL_Event) :
  arrays_ok (hal_init winx winy w h evs).
Proof. repeat split. Qed.

(** C3, as the code has it.  After any sequence of events each keyboard
    mask bit tells whether the most recent key event among the physical
    keys mapped to that bit was a key-down (and keeps its earlier value
    when the sequence has no such event): a bit follows the last writer.
    So a sequence ending in a down of a mapped key leaves its bit set
    however many downs came before, and one ending in an up leaves it
    clear.  For the bits written by one key (0 to 5 and 7) this is the OR
    over the keys of "the key's most recent event was a down"; bit 6,
    written by both P and RETURN, follows the last of their events. *)
Theorem keyboard_bit_last_writer `{TouchFlags} (s : Hal) (evs : list SDL_Event) :
  arrays_ok s -> Forall finger_in_range evs ->
  exists s',
    handle_all evs s = Some s' /\
    forall b, 0 <= b < 8 ->
      Z.testbit (keyState s') b
      = last_event_down (keys_of_bit b) evs (Z.testbit (keyState s) b) /\
      (b <> 6 -> Z.testbit (keyState s) b = false ->
       Z.testbit (keyState s') b = or_of_held_keys b evs) /\
      (forall evs0 t k kmod,
         evs = evs0 ++ [KeyboardEvent t k kmod] -> In k (keys_of_bit b) ->
         Z.testbit (keyState s') b = is_keydown t).
Proof.
  intros Hok Hall.
  destruct (handle_all_defined evs s Hok Hall) as [s' Hrun].
  exists s'. split; [exact Hrun|].
  intros b Hb.
  pose proof (handle_all_keyState_testbit evs s s' b Hrun Hb) as Hbit.
  split; [exact Hbit|]. split.
  - intros Hb6 Hinit. rewrite Hbit, Hinit.
    unfold or_of_held_keys, key_held.
    bit_cases b; cbn [keys_of_bit existsb]; rewrite ?orb_false_r;
      try reflexivity.
    congruence.
  - intros evs0 t k kmod -> Hin. rewrite Hbit.
    now apply last_event_down_snoc.
Qed.

Lemma keyboard_bit_last_writer_witness :
  exists s',
    handle_all [KeyboardEvent SDL_KEYDOWN SDLK_RETURN 0;
                KeyboardEvent SDL_KEYDOWN SDLK_p 0;
                KeyboardEvent SDL_KEYUP SDLK_p 0]
               (hal_init 640 480 128 128 []) = Some s' /\
    forall b, 0 <= b < 8 ->
      Z.testbit (keyState s') b
      = last_event_down (keys_of_bit b)
          [KeyboardEvent SDL_KEYDOWN SDLK_RETURN 0;
           KeyboardEvent SDL_KEYDOWN SDLK_p 0;
           KeyboardEvent SDL_KEYUP SDLK_p 0]
          (Z.testbit (keyState (hal_init 640 480 128 128 [])) b) /\
      (b <> 6 -> Z.testbit (keyState (hal_init 640 480 128 128 [])) b = false ->
       Z.testbit (keyState s') b
       = or_of_held_keys b [KeyboardEvent SDL_KEYDOWN SDLK_RETURN 0;
                            KeyboardEvent SDL_KEYDOWN SDLK_p 0;
                            KeyboardEvent SDL_KEYUP SDLK_p 0]) /\
      (forall evs0 t k kmod,
         [KeyboardEvent SDL_KEYDOWN SDLK_RETURN 0;
          KeyboardEvent SDL_KEYDOWN SDLK_p 0;
          KeyboardEvent SDL_KEYUP SDLK_p 0] = evs0 ++ [KeyboardEvent t k kmod] ->
         In k (keys_of_bit b) ->
         Z.testbit (keyState s') b = is_keydown t).
Proof.
  apply (keyboard_bit_last_writer (hal_init 640 480 128 128 [])).
  - apply hal_init_arrays_ok.
  - repeat constructor.
Defined.

(** With RETURN held, a press and release of P leaves bit 6 clear, although
    the most recent event of RETURN is a key-down. *)
Lemma keyboard_or_of_held_keys_counterexample :
  let evs := [KeyboardEvent SDL_KEYDOWN SDLK_RETURN 0;
              KeyboardEvent SDL_KEYDOWN SDLK_p 0;
              KeyboardEvent SDL_KEYUP SDLK_p 0] in
  exists s',
    handle_all evs (hal_init 640 480 128 128 []) = Some s' /\
    key_held SDLK_RETURN evs = true /\
    or_of_held_keys 6 evs = true /\
    Z.testbit (keyState s') 6 = false.
Proof.
  cbv zeta. eexists. split; [vm_compute; reflexivity|].
  split; [reflexivity|]. split; reflexivity.
Qed.

(** ** Touch points *)

Section TouchFacts.
Context `{TouchFlags}.
Import TouchState.

Lemma land_bit (x b : Z) :
  0 <= b -> Z.land x (Z.shiftl 1 b) = if Z.testbit x b then Z.shiftl 1 b else 0.
Proof.
  intros Hb. apply Z.bits_inj'. intros n Hn.
  rewrite Z.land_spec, shiftl_1_testbit by exact Hb.
  destruct (b =? n) eqn:E.
  - apply Z.eqb_eq in E. subst n.
    destruct (Z.testbit x b); [now rewrite shiftl_1_testbit, Z.eqb_refl|].
    now rewrite Z.testbit_0_l.
  - rewrite andb_false_r.
    destruct (Z.testbit x b); [now rewrite shiftl_1_testbit, E|].
    now rewrite Z.testbit_0_l.
Qed.

Lemma bit_truthy (x b : Z) :
  0 <= b -> truthy (Z.land x (Z.shiftl 1 b)) = Z.testbit x b.
Proof.
  intros Hb. rewrite land_bit by exact Hb. unfold truthy.
  destruct (Z.testbit x b); [|reflexivity].
  rewrite Z.shiftl_1_l.
  assert (0 < 2 ^ b) by (apply Z.pow_pos_nonneg; lia).
  destruct (2 ^ b =? 0) eqn:E; [apply Z.eqb_eq in E; lia | reflexivity].
Qed.

Lemma has_JustPressed (t : TouchInfo) :
  has_flag JustPressed t = Z.testbit (ti_state t) JustPressed_bit.
Proof. apply bit_truthy. pose proof flag_bits_range. lia. Qed.

Lemma has_Pressed (t : TouchInfo) :
  has_flag Pressed t = Z.testbit (ti_state t) Pressed_bit.
Proof. apply bit_truthy. pose proof flag_bits_range. lia. Qed.

Lemma has_JustReleased (t : TouchInfo) :
  has_flag JustReleased t = Z.testbit (ti_state t) JustReleased_bit.
Proof. apply bit_truthy. pose proof flag_bits_range. lia. Qed.

(** The state [flushTouchEvents] leaves in a slot. *)
Lemma flush_slot_state (t : TouchInfo) :
  ti_state (flush_slot t) =
  if has_flag JustReleased t then TouchState.None
  else Z.land (ti_state t) (Z.lnot JustPressed).
Proof.
  pose proof flag_bits_range as (Hjp & Hp & Hjr).
  pose proof flag_bits_distinct as (D1 & D2 & D3).
  unfold flush_slot. cbn [ti_state]. rewrite has_JustReleased.
  unfold JustPressed, JustReleased. rewrite !bit_truthy by lia.
  assert (Hclr : Z.testbit (Z.land (ti_state t) (Z.lnot (Z.shiftl 1 JustPressed_bit)))
                           JustReleased_bit
                 = Z.testbit (ti_state t) JustReleased_bit).
  { rewrite Z.land_spec, Z.lnot_spec, shiftl_1_testbit by lia.
    destruct (JustPressed_bit =? JustReleased_bit) eqn:E;
      [apply Z.eqb_eq in E; lia | apply andb_true_r]. }
  destruct (Z.testbit (ti_state t) JustPressed_bit) eqn:Ejp.
  - rewrite Hclr. reflexivity.
  - destruct (Z.testbit (ti_state t) JustReleased_bit); [reflexivity|].
    apply Z.bits_inj'. intros n Hn.
    rewrite Z.land_spec, Z.lnot_spec, shiftl_1_testbit by lia.
    destruct (JustPressed_bit =? n) eqn:E; [|now rewrite andb_true_r].
    apply Z.eqb_eq in E. subst n. now rewrite Ejp.
Qed.

(** Bit by bit: [JustPressed] goes, everything goes when [JustReleased]
    was set, and the rest stays. *)
Lemma flush_slot_testbit (t : TouchInfo) (b : Z) :
  0 <= b ->
  Z.testbit (ti_state (flush_slot t)) b =
  negb (has_flag JustReleased t) && negb (b =? JustPressed_bit)
  && Z.testbit (ti_state t) b.
Proof.
  intros Hb. pose proof flag_bits_range as (Hjp & Hp & Hjr).
  rewrite flush_slot_state.
  destruct (has_flag JustReleased t); [apply Z.testbit_0_l|].
  unfold JustPressed.
  rewrite Z.land_spec, Z.lnot_spec, shiftl_1_testbit by lia.
  rewrite (Z.eqb_sym JustPressed_bit b). cbn. apply andb_comm.
Qed.

Lemma flushTouchEvents_slot (s : Hal) (i : nat) :
  touchState (flushTouchEvents s) !! i = flush_slot <$> touchState s !! i.
Proof. unfold flushTouchEvents. cbn. apply list_lookup_fmap. Qed.

Lemma event_flags_testbit (ty : FingerEventType) (b : Z) :
  0 <= b ->
  Z.testbit (event_flags ty) b =
  match ty with
  | SDL_FINGERDOWN => (JustPressed_bit =? b) || (Pressed_bit =? b)
  | SDL_FINGERMOTION => Pressed_bit =? b
  | SDL_FINGERUP => JustReleased_bit =? b
  end.
Proof.
  intros Hb. pose proof flag_bits_range as (Hjp & Hp & Hjr).
  unfold event_flags, JustPressed, Pressed, JustReleased.
  destruct ty; rewrite ?Z.lor_spec, !shiftl_1_testbit by lia; reflexivity.
Qed.

(** [processTouchEvent] on a finger id that designates a slot. *)
Lemma processTouchEvent_routed (ev : SDL_TouchFingerEvent) (s : Hal) (t : TouchInfo) :
  0 <= fingerId ev < 8 ->
  touchState s !! Z.to_nat (fingerId ev) = Some t ->
  processTouchEvent ev s =
  Some (set_touchState
          (<[Z.to_nat (fingerId ev) :=
               {| ti_x := fst (touch_position s ev);
                  ti_y := snd (touch_position s ev);
                  ti_state := Z.lor (ti_state t) (event_flags (tf_type ev)) |}]>
             (touchState s)) s).
Proof.
  intros Hid Ht. unfold processTouchEvent, touchState_size, touch_position.
  destruct (fingerId ev <? 8) eqn:E; [|apply Z.ltb_ge in E; lia].
  rewrite to_int32_small by lia.
  unfold array_get. destruct (fingerId ev <? 0) eqn:E0; [apply Z.ltb_lt in E0; lia|].
  rewrite Ht. destruct (scaleMouse s _ _) as [x y]. cbn [fst snd].
  destruct (tf_type ev); reflexivity.
Qed.

(** [processTouchEvent] on a finger id at or above the capacity. *)
Lemma processTouchEvent_dropped (ev : SDL_TouchFingerEvent) (s : Hal) :
  8 <= fingerId ev -> processTouchEvent ev s = Some s.
Proof.
  intros Hid. unfold processTouchEvent, touchState_size.
  destruct (fingerId ev <? 8) eqn:E; [apply Z.ltb_lt in E; lia | reflexivity].
Qed.

(** Every event keeps every slot and only adds flags to it; an event that
    is not a finger-down adds nothing to [JustPressed]. *)
Lemma handle_slot (ev : SDL_Event) (s s' : Hal) (i : nat) (t : TouchInfo) :
  arrays_ok s -> finger_in_range ev ->
  handle ev s = Some s' -> touchState s !! i = Some t ->
  exists t',
    touchState s' !! i = Some t' /\
    (forall b, 0 <= b -> Z.testbit (ti_state t) b = true ->
               Z.testbit (ti_state t') b = true) /\
    (is_finger_down ev = false ->
     Z.testbit (ti_state t') JustPressed_bit = Z.testbit (ti_state t) JustPressed_bit).
Proof.
  intros (Hlen & _) Hr Hh Ht.
  assert (Hsame : touchState s' = touchState s ->
                  exists t', touchState s' !! i = Some t' /\
                    (forall b, 0 <= b -> Z.testbit (ti_state t) b = true ->
                               Z.testbit (ti_state t') b = true) /\
                    (is_finger_down ev = false ->
                     Z.testbit (ti_state t') JustPressed_bit
                     = Z.testbit (ti_state t) JustPressed_bit)).
  { intros ->. exists t. auto. }
  unfold handle, INP_ProcessInputEvents in Hh.
  destruct ev as [|ty sym kmod| | | | |tf|]; cbn in Hh;
    try (injection Hh as <-; apply Hsame; reflexivity).
  - repeat match type of Hh with context [if ?c then _ else _] => destruct c end;
      injection Hh as <-; apply Hsame; reflexivity.
  - destruct (processTouchEvent tf s) as [s1|] eqn:E; [|discriminate].
    cbn in Hh. injection Hh as <-. cbn in Hr.
    destruct (Z_lt_le_dec (fingerId tf) 8) as [Hlt | Hge].
    2:{ rewrite processTouchEvent_dropped in E by exact Hge.
        injection E as <-. apply Hsame. reflexivity. }
    destruct (lookup_lt_is_Some_2 (touchState s) (Z.to_nat (fingerId tf)))
      as [t0 Ht0]; [lia|].
    rewrite (processTouchEvent_routed tf s t0) in E by (lia || exact Ht0).
    injection E as <-. cbn [touchState set_touchState].
    destruct (decide (Z.to_nat (fingerId tf) = i)) as [<- | Hne].
    + rewrite list_lookup_insert_eq by lia.
      eexists. split; [reflexivity|]. cbn [ti_state].
      assert (t0 = t) by congruence. subst t0.
      pose proof flag_bits_range as (Hjp & Hp & Hjr).
      pose proof flag_bits_distinct as (D1 & D2 & D3).
      split.
      * intros b Hb Hset. rewrite Z.lor_spec, Hset. reflexivity.
      * intros Hnd. rewrite Z.lor_spec, event_flags_testbit by lia.
        cbn in Hnd. destruct (tf_type tf); [discriminate| |].
        -- destruct (JustReleased_bit =? JustPressed_bit) eqn:E;
             [apply Z.eqb_eq in E; lia | apply orb_false_r].
        -- destruct (Pressed_bit =? JustPressed_bit) eqn:E;
             [apply Z.eqb_eq in E; lia | apply orb_false_r].
    + rewrite list_lookup_insert_ne by exact Hne.
      exists t. auto.
Qed.
End TouchFacts.

Section TouchFrames.
Context `{TouchFlags}.
Import TouchState.

Lemma handle_all_slot (evs : list SDL_Event) (s s' : Hal) (i : nat) (t : TouchInfo) :
  arrays_ok s -> Forall finger_in_range evs ->
  handle_all evs s = Some s' -> touchState s !! i = Some t ->
  exists t',
    touchState s' !! i = Some t' /\
    (forall b, 0 <= b -> Z.testbit (ti_state t) b = true ->
               Z.testbit (ti_state t') b = true) /\
    (forallb (fun ev => negb (is_finger_down ev)) evs = true ->
     Z.testbit (ti_state t') JustPressed_bit = Z.testbit (ti_state t) JustPressed_bit).
Proof.
  intros Hok Hall. revert s t Hok.
  induction Hall as [|ev evs Hev _ IH]; intros s t Hok Hrun Ht; cbn in Hrun.
  - injection Hrun as <-. exists t. auto.
  - destruct (handle ev s) as [s1|] eqn:E; [|discriminate].
    destruct (handle_slot ev s s1 i t Hok Hev E Ht) as (t1 & Ht1 & Hmono1 & Hjp1).
    destruct (IH s1 t1 (handle_arrays_ok ev s s1 E Hok) Hrun Ht1)
      as (t' & Ht' & Hmono & Hjp).
    exists t'. split; [exact Ht'|]. split.
    + intros b Hb Hset. apply Hmono; [exact Hb|]. now apply Hmono1.
    + cbn [forallb]. intros Hnd. apply andb_prop in Hnd as [Hnd1 Hnd2].
      rewrite Hjp by exact Hnd2. apply Hjp1.
      now destruct (is_finger_down ev).
Qed.

Lemma HAL_EndFrame_arrays_ok (s : Hal) : arrays_ok s -> arrays_ok (HAL_EndFrame s).
Proof.
  intros (Ht & Hp & Ho). unfold arrays_ok, HAL_EndFrame, flushTouchEvents. cbn.
  now rewrite length_map.
Qed.

(** C2.  [HAL_EndFrame] rewrites the state of every slot: a slot holding
    [JustReleased] becomes [None], any other slot loses [JustPressed] and
    keeps its remaining flags, [Pressed] among them.  Through the next
    frame, whatever events arrive, the slot keeps the [Pressed] it had when
    it held no [JustReleased]; as long as none of the events is a
    finger-down (motion events, then) [JustPressed] stays absent; and with
    no event at all a slot that held [JustReleased] is still [None]. *)
Theorem touch_edges_last_one_frame (s : Hal) (i : nat) (t : TouchInfo)
        (evs : list SDL_Event) :
  arrays_ok s -> touchState s !! i = Some t -> Forall finger_in_range evs ->
  (exists t1,
     touchState (HAL_EndFrame s) !! i = Some t1 /\
     ti_state t1 = (if has_flag JustReleased t then TouchState.None
                    else Z.land (ti_state t) (Z.lnot JustPressed)) /\
     has_flag JustPressed t1 = false /\
     (has_flag JustReleased t = true -> ti_state t1 = TouchState.None) /\
     (has_flag JustReleased t = false -> has_flag Pressed t1 = has_flag Pressed t)) /\
  (exists s2 t2,
     handle_all evs (HAL_StartFrame (HAL_EndFrame s)) = Some s2 /\
     touchState s2 !! i = Some t2 /\
     (forallb (fun ev => negb (is_finger_down ev)) evs = true ->
      has_flag JustPressed t2 = false) /\
     (has_flag Pressed t = true -> has_flag JustReleased t = false ->
      has_flag Pressed t2 = true) /\
     (evs = [] -> has_flag JustReleased t = true -> ti_state t2 = TouchState.None)).
Proof.
  intros Hok Ht Hall.
  pose proof flag_bits_range as (Hjp & Hp & Hjr).
  pose proof flag_bits_distinct as (D1 & D2 & D3).
  assert (Ht1 : touchState (HAL_EndFrame s) !! i = Some (flush_slot t)).
  { unfold HAL_EndFrame. now rewrite flushTouchEvents_slot, Ht. }
  assert (Hjp1 : has_flag JustPressed (flush_slot t) = false).
  { rewrite has_JustPressed, flush_slot_testbit by lia.
    rewrite Z.eqb_refl. cbn. now rewrite andb_false_r. }
  assert (Hp1 : has_flag JustReleased t = false ->
                has_flag Pressed (flush_slot t) = has_flag Pressed t).
  { intros Hnr. rewrite !has_Pressed, flush_slot_testbit, Hnr by lia.
    destruct (Pressed_bit =? JustPressed_bit) eqn:E;
      [apply Z.eqb_eq in E; lia | reflexivity]. }
  assert (Hr1 : has_flag JustReleased t = true ->
                ti_state (flush_slot t) = TouchState.None).
  { intros Hr. now rewrite flush_slot_state, Hr. }
  split.
  - exists (flush_slot t). split; [exact Ht1|].
    split; [apply flush_slot_state|]. auto.
  - assert (Hok1 : arrays_ok (HAL_StartFrame (HAL_EndFrame s))).
    { apply HAL_EndFrame_arrays_ok in Hok. exact Hok. }
    destruct (handle_all_defined evs _ Hok1 Hall) as [s2 Hrun].
    destruct (handle_all_slot evs _ s2 i (flush_slot t) Hok1 Hall Hrun Ht1)
      as (t2 & Ht2 & Hmono & Hkeep).
    exists s2, t2. split; [exact Hrun|]. split; [exact Ht2|]. split; [|split].
    + intros Hnd. rewrite has_JustPressed, (Hkeep Hnd), <- has_JustPressed.
      exact Hjp1.
    + intros Hpr Hnr. rewrite has_Pressed. apply Hmono; [lia|].
      rewrite <- has_Pressed, (Hp1 Hnr). exact Hpr.
    + intros -> Hr. cbn in Hrun. injection Hrun as <-.
      change (touchState (HAL_StartFrame (HAL_EndFrame s)))
        with (touchState (HAL_EndFrame s)) in Ht2.
      rewrite Ht1 in Ht2. injection Ht2 as <-. now apply Hr1.
Qed.

(** C5, as the code has it.  A finger event whose id is in 0..7 is written
    to the slot of that id: the slot receives the position mapped to
    virtual-display pixels and its state is ORed with
    [JustPressed|Pressed] on a down, [Pressed] on a motion (a [JustPressed]
    already there stays) and [JustReleased] on an up; no other slot
    changes.  An event whose id is 8 or more changes nothing and raises
    nothing. *)
Theorem touch_event_routing (s : Hal) (ev : SDL_TouchFingerEvent) :
  arrays_ok s -> 0 <= fingerId ev ->
  exists s',
    processTouchEvent ev s = Some s' /\
    (8 <= fingerId ev -> s' = s) /\
    (fingerId ev < 8 ->
     exists t t',
       touchState s !! Z.to_nat (fingerId ev) = Some t /\
       touchState s' !! Z.to_nat (fingerId ev) = Some t' /\
       (ti_x t', ti_y t') = touch_position s ev /\
       ti_state t' = Z.lor (ti_state t) (event_flags (tf_type ev)) /\
       (tf_type ev = SDL_FINGERDOWN ->
        has_flag JustPressed t' = true /\ has_flag Pressed t' = true) /\
       (tf_type ev = SDL_FINGERMOTION ->
        has_flag Pressed t' = true /\
        has_flag JustPressed t' = has_flag JustPressed t) /\
       (tf_type ev = SDL_FINGERUP -> has_flag JustReleased t' = true) /\
       (forall j, j <> Z.to_nat (fingerId ev) ->
                  touchState s' !! j = touchState s !! j)).
Proof.
  intros (Hlen & _) Hid.
  pose proof flag_bits_range as (Hjp & Hp & Hjr).
  pose proof flag_bits_distinct as (D1 & D2 & D3).
  destruct (Z_lt_le_dec (fingerId ev) 8) as [Hlt | Hge].
  2:{ exists s. split; [now apply processTouchEvent_dropped|].
      split; [reflexivity | lia]. }
  destruct (lookup_lt_is_Some_2 (touchState s) (Z.to_nat (fingerId ev)))
    as [t Ht]; [lia|].
  eexists. split; [apply (processTouchEvent_routed ev s t); [lia | exact Ht]|].
  split; [lia|]. intros _.
  exists t. eexists. split; [exact Ht|].
  cbn [touchState set_touchState].
  split; [apply list_lookup_insert_eq; lia|].
  cbn [ti_x ti_y ti_state].
  split; [now destruct (touch_position s ev)|].
  split; [reflexivity|].
  rewrite has_JustPressed, has_Pressed, has_JustReleased, has_JustPressed.
  cbn [ti_state]. rewrite !Z.lor_spec, !event_flags_testbit by lia.
  split; [|split; [|split]].
  - intros ->. rewrite !Z.eqb_refl, !orb_true_r. split; reflexivity.
  - intros ->. rewrite Z.eqb_refl, orb_true_r. split; [reflexivity|].
    destruct (Pressed_bit =? JustPressed_bit) eqn:E;
      [apply Z.eqb_eq in E; lia | apply orb_false_r].
  - intros ->. rewrite Z.eqb_refl. apply orb_true_r.
  - intros j Hj. apply list_lookup_insert_ne. congruence.
Qed.
End TouchFrames.

Lemma pressed_hal_arrays_ok : arrays_ok pressed_hal.
Proof. repeat split. Qed.

Lemma touch_edges_last_one_frame_witness :
  exists s2 t2,
    handle_all [TouchFingerEvent (sample_touch SDL_FINGERMOTION 0)]
               (HAL_StartFrame (HAL_EndFrame pressed_hal)) = Some s2 /\
    touchState s2 !! 0%nat = Some t2 /\
    has_flag TouchState.JustPressed t2 = false /\
    has_flag TouchState.Pressed t2 = true.
Proof.
  destruct (touch_edges_last_one_frame pressed_hal 0 fresh_touch
              [TouchFingerEvent (sample_touch SDL_FINGERMOTION 0)])
    as (_ & s2 & t2 & Hrun & Ht2 & Hjp & Hp & _).
  - apply pressed_hal_arrays_ok.
  - reflexivity.
  - repeat constructor. cbn. lia.
  - exists s2, t2. split; [exact Hrun|]. split; [exact Ht2|].
    split; [apply Hjp | apply Hp]; reflexivity.
Defined.

Lemma touch_event_routing_witness :
  exists s',
    processTouchEvent (sample_touch SDL_FINGERDOWN 3) sample_hal = Some s' /\
    exists t', touchState s' !! 3%nat = Some t' /\
               has_flag TouchState.JustPressed t' = true /\
               has_flag TouchState.Pressed t' = true.
Proof.
  destruct (touch_event_routing sample_hal (sample_touch SDL_FINGERDOWN 3))
    as (s' & Hrun & _ & Hslot).
  - apply hal_init_arrays_ok.
  - cbn. lia.
  - exists s'. split; [exact Hrun|].
    destruct Hslot as (t & t' & _ & Ht' & _ & _ & Hdown & _); [cbn; lia|].
    exists t'. split; [exact Ht'|]. apply Hdown. reflexivity.
Defined.

(** A touch in the middle of the 640x480 window lands in the middle of the
    128x128 display. *)
Example touch_position_middle :
  touch_position sample_hal (sample_touch SDL_FINGERDOWN 0) = (64, 64).
Proof. reflexivity. Qed.

(** A finger-down with id 9 is not routed to slot 9 mod 8 = 1: the state
    is returned as it was, slot 1 still empty. *)
Lemma touch_modulo_routing_counterexample :
  processTouchEvent (sample_touch SDL_FINGERDOWN 9) sample_hal = Some sample_hal /\
  touchState sample_hal !! Z.to_nat (9 mod 8) = Some TouchInfo_default /\
  has_flag TouchState.JustPressed TouchInfo_default = false /\
  has_flag TouchState.Pressed TouchInfo_default = false.
Proof. repeat split. Qed.

(** ** Event polling *)

Section Polling.
Context `{TouchFlags}.

(** A call consumes the event at the head of the queue and no other. *)
Lemma EVT_ProcessEvents_pending (s s' : Hal) (e : SDL_Event) (q : list SDL_Event)
      (b : bool) :
  pending s = e :: q -> EVT_ProcessEvents s = Some (b, s') -> pending s' = q.
Proof.
  intros Hq. unfold EVT_ProcessEvents, SDL_PollEvent. rewrite Hq.
  unfold INP_ProcessInputEvents.
  destruct e as [|ty sym kmod| | | | |tf|]; cbn;
    try (intros [= <- <-]; reflexivity).
  - repeat match goal with |- context [if ?c then _ else _] => destruct c end;
      intros [= <- <-]; reflexivity.
  - destruct (processTouchEvent tf (set_pending q s)) as [s1|] eqn:E;
      [|discriminate].
    intros [= <- <-]. apply processTouchEvent_frame in E.
    destruct E as (_ & _ & _ & _ & _ & _ & -> & _). reflexivity.
Qed.

(** A call returns false only on a window-quit event or on the quit hotkey
    at the head of the queue. *)
Lemma EVT_ProcessEvents_false (s s' : Hal) :
  EVT_ProcessEvents s = Some (false, s') ->
  exists e q, pending s = e :: q /\
    (e = SDL_QUIT \/
     exists kmod, e = KeyboardEvent SDL_KEYDOWN SDLK_q kmod /\
                  truthy (Z.land kmod KMOD_CTRL) = true).
Proof.
  unfold EVT_ProcessEvents, SDL_PollEvent.
  destruct (pending s) as [|e q]; [discriminate|].
  intros Hr. exists e, q. split; [reflexivity|].
  unfold INP_ProcessInputEvents in Hr.
  destruct e as [|ty sym kmod| | | | |tf|]; cbn in Hr;
    try discriminate; [left; reflexivity| |].
  - right. exists kmod.
    destruct (is_keydown ty && (sym =? SDLK_F11)); [discriminate|].
    destruct (is_keydown ty && (sym =? SDLK_q) && truthy (Z.land kmod KMOD_CTRL))
      eqn:E.
    + apply andb_prop in E as [E E3]. apply andb_prop in E as [E1 E2].
      apply Z.eqb_eq in E2. subst sym.
      destruct ty; [|discriminate]. split; [reflexivity | exact E3].
    + repeat match type of Hr with context [if ?c then _ else _] => destruct c end;
        discriminate.
  - destruct (processTouchEvent tf _); discriminate.
Qed.
End Polling.

(** C6, on a queue of two key-downs.  One call of [EVT_ProcessEvents]
    handles the left-arrow, returns true and leaves the right-arrow
    pending, so the keyboard mask is 1; handling both events gives 3. *)
Theorem EVT_ProcessEvents_handles_one_event :
  let q := [KeyboardEvent SDL_KEYDOWN SDLK_LEFT 0;
            KeyboardEvent SDL_KEYDOWN SDLK_RIGHT 0] in
  exists s',
    EVT_ProcessEvents (hal_init 640 480 128 128 q) = Some (true, s') /\
    pending s' = [KeyboardEvent SDL_KEYDOWN SDLK_RIGHT 0] /\
    keyState s' = 1 /\
    keyState <$> handle_all q (hal_init 640 480 128 128 []) = Some 3.
Proof.
  cbv zeta. eexists. split; [vm_compute; reflexivity|].
  repeat split.
Qed.

(** ** Touch query *)

(** The guard of [INP_GetTouchInfo] holds for no index: every call indexes
    the table. *)
Lemma INP_GetTouchInfo_unguarded (idx : Z) (s : Hal) :
  INP_GetTouchInfo idx s = array_get (touchState s) idx.
Proof.
  unfold INP_GetTouchInfo, touchState_size.
  destruct (idx <? 0) eqn:E1; [|reflexivity].
  destruct (idx >=? 8) eqn:E2; [|reflexivity].
  apply Z.ltb_lt in E1. apply Z.geb_le in E2. lia.
Qed.

(** C10, at the indices 8 and -1.  [INP_GetTouchInfo] does not return the
    default record there: it indexes the eight-slot table out of bounds,
    as it does for every index outside 0..7. *)
Theorem INP_GetTouchInfo_out_of_bounds :
  INP_GetTouchInfo 8 sample_hal = None /\
  INP_GetTouchInfo (-1) sample_hal = None /\
  (forall idx s, length (touchState s) = 8%nat -> idx < 0 \/ 8 <= idx ->
                 INP_GetTouchInfo idx s = None) /\
  (forall idx s, 0 <= idx < 8 ->
                 INP_GetTouchInfo idx s = touchState s !! Z.to_nat idx).
Proof.
  split; [reflexivity|]. split; [reflexivity|]. split.
  - intros idx s Hlen Hidx. rewrite INP_GetTouchInfo_unguarded.
    apply array_get_None. lia.
  - intros idx s Hidx. rewrite INP_GetTouchInfo_unguarded.
    unfold array_get. destruct (idx <? 0) eqn:E; [apply Z.ltb_lt in E; lia|].
    reflexivity.
Qed.

(** ** Coordinate mapper *)

(** [(int)(a / b * c)] in exact arithmetic is the integer quotient of [a*c]
    by [b]. *)
Lemma int_of_scaled (a b c : Z) :
  0 < b ->
  Exact.int_of_Q (inject_Z a / inject_Z b * inject_Z c) = Z.quot (a * c) b.
Proof.
  intros Hb. destruct b as [|p|p]; try lia.
  unfold Exact.int_of_Q. cbn.
  rewrite Pos.mul_1_r, Z.mul_1_r. reflexivity.
Qed.

(** [a / b * c > d] in exact arithmetic compares [a*c] with [d*b]. *)
Lemma scaled_gt (a b c d : Z) :
  0 < b ->
  negb (Qle_bool (inject_Z a / inject_Z b * inject_Z c) (inject_Z d))
  = (d * b <? a * c).
Proof.
  intros Hb. destruct b as [|p|p]; try lia.
  unfold Qle_bool. cbn.
  rewrite Pos.mul_1_r, Pos.mul_1_l, !Z.mul_1_r.
  destruct (Z.leb_spec (a * c) (d * Z.pos p)), (Z.ltb_spec (d * Z.pos p) (a * c));
    try reflexivity; lia.
Qed.

Lemma Qle_frac (a b c d : Z) :
  0 < b -> 0 < d ->
  (inject_Z a / inject_Z b <= inject_Z c / inject_Z d)%Q <-> a * d <= c * b.
Proof.
  intros Hb Hd. destruct b as [|p|p]; try lia. destruct d as [|q|q]; try lia.
  unfold Qle. cbn. rewrite !Z.mul_1_r. reflexivity.
Qed.

(** The exact mapper in integer terms. *)
Lemma exact_display_area_eq (winx winy sw sh : Z) :
  0 < sw -> 0 < sh ->
  Exact.display_area winx winy sw sh =
  if winy * sw <? winx * sh then
    let w := Z.quot (winy * sw) sh in
    ({| r_x := Z.quot winx 2 - Z.quot w 2; r_y := 0; r_w := w; r_h := winy |},
     (inject_Z winy / inject_Z sh)%Q)
  else
    let h := Z.quot (winx * sh) sw in
    ({| r_x := 0; r_y := Z.quot winy 2 - Z.quot h 2; r_w := winx; r_h := h |},
     (inject_Z winx / inject_Z sw)%Q).
Proof.
  intros Hw Hh. unfold Exact.display_area.
  rewrite scaled_gt by exact Hw.
  rewrite !int_of_scaled by assumption.
  reflexivity.
Qed.

Lemma quot_half_margins (outer inner : Z) :
  0 <= inner <= outer ->
  let x := Z.quot outer 2 - Z.quot inner 2 in
  0 <= x /\ x + inner <= outer /\ -1 <= (outer - (x + inner)) - x <= 1.
Proof.
  intros Hio. cbv zeta.
  rewrite !Z.quot_div_nonneg by lia.
  pose proof (Z.div_mod outer 2). pose proof (Z.mod_pos_bound outer 2).
  pose proof (Z.div_mod inner 2). pose proof (Z.mod_pos_bound inner 2).
  lia.
Qed.

(** In exact arithmetic the mapper does what the specification says: the
    scale is the smaller of the two ratios window/virtual, the rectangle
    is the virtual size times the scale (truncated by the cast), it spans
    the window in one direction at least and is placed at
    window/2 - size/2 in each direction, inside the window, with margins
    that differ by one pixel at most. *)
Lemma exact_mapper_letterbox (winx winy sw sh : Z) :
  0 < winx -> 0 < winy -> 0 < sw -> 0 < sh ->
  let r := fst (Exact.display_area winx winy sw sh) in
  let scale := snd (Exact.display_area winx winy sw sh) in
  (scale == spec_scale winx winy sw sh)%Q /\
  r_w r = Exact.int_of_Q (scale * inject_Z sw) /\
  r_h r = Exact.int_of_Q (scale * inject_Z sh) /\
  (r_w r = winx /\ (inject_Z winx == scale * inject_Z sw)%Q \/
   r_h r = winy /\ (inject_Z winy == scale * inject_Z sh)%Q) /\
  r_x r = Z.quot winx 2 - Z.quot (r_w r) 2 /\
  r_y r = Z.quot winy 2 - Z.quot (r_h r) 2 /\
  (0 <= r_w r /\ 0 <= r_x r /\ r_x r + r_w r <= winx) /\
  (0 <= r_h r /\ 0 <= r_y r /\ r_y r + r_h r <= winy) /\
  -1 <= (winx - (r_x r + r_w r)) - r_x r <= 1 /\
  -1 <= (winy - (r_y r + r_h r)) - r_y r <= 1.
Proof.
  intros Hwx Hwy Hsw Hsh. cbv zeta. unfold spec_scale.
  rewrite exact_display_area_eq by assumption.
  assert (Hback : forall a b, 0 < b -> (inject_Z a == inject_Z a / inject_Z b * inject_Z b)%Q).
  { intros a b Hb. field. intros E.
    apply (inject_Z_injective b 0) in E. lia. }
  destruct (Z.ltb_spec (winy * sw) (winx * sh)) as [Hlt | Hge];
    cbn [fst snd r_x r_y r_w r_h].
  - assert (Hq : 0 <= Z.quot (winy * sw) sh <= winx).
    { rewrite Z.quot_div_nonneg by lia. split.
      - apply Z.div_pos; lia.
      - apply Z.lt_le_incl, Z.div_lt_upper_bound; lia. }
    pose proof (quot_half_margins winx _ Hq) as Hm. cbv zeta in Hm.
    split; [rewrite Q.min_r; [reflexivity | apply Qle_frac; lia]|].
    rewrite !int_of_scaled by lia.
    rewrite Z.quot_mul by lia.
    rewrite Z.sub_diag.
    split; [reflexivity|]. split; [reflexivity|].
    split; [right; split; [reflexivity | now apply Hback]|].
    repeat split; lia.
  - assert (Hq : 0 <= Z.quot (winx * sh) sw <= winy).
    { rewrite Z.quot_div_nonneg by lia. split.
      - apply Z.div_pos; lia.
      - apply Z.div_le_upper_bound; lia. }
    pose proof (quot_half_margins winy _ Hq) as Hm. cbv zeta in Hm.
    split; [rewrite Q.min_l; [reflexivity | apply Qle_frac; lia]|].
    rewrite !int_of_scaled by lia.
    rewrite Z.quot_mul by lia.
    rewrite Z.sub_diag.
    split; [reflexivity|]. split; [reflexivity|].
    split; [left; split; [reflexivity | now apply Hback]|].
    repeat split; lia.
Qed.

Lemma digits2_pos_bounds (m : positive) :
  2 ^ (Z.pos (digits2_pos m) - 1) <= Z.pos m < 2 ^ Z.pos (digits2_pos m).
Proof.
  induction m as [p IH | p IH |]; cbn [digits2_pos].
  - rewrite Pos2Z.inj_succ.
    replace (Z.succ (Z.pos (digits2_pos p)) - 1) with (Z.succ (Z.pos (digits2_pos p) - 1)) by lia.
    rewrite !Z.pow_succ_r by lia. lia.
  - rewrite Pos2Z.inj_succ.
    replace (Z.succ (Z.pos (digits2_pos p)) - 1) with (Z.succ (Z.pos (digits2_pos p) - 1)) by lia.
    rewrite !Z.pow_succ_r by lia. lia.
  - cbn. lia.
Qed.

Lemma bounded_binary64 (m : positive) (e : Z) :
  bounded 53 1024 m e = true ->
  -1074 <= e /\ Z.pos m < 2 ^ 53 /\ (-1074 < e -> 2 ^ 52 <= Z.pos m).
Proof.
  unfold bounded, canonical_mantissa, fexp, emin. intros Hb.
  apply andb_prop in Hb as [Hc _]. apply Z.eqb_eq in Hc.
  pose proof (digits2_pos_bounds m) as Hd.
  change (3 - 1024 - 53) with (-1074) in Hc.
  destruct (Z.max_spec (Z.pos (digits2_pos m) + e - 53) (-1074)) as [[Hlt E] | [Hge E]];
    rewrite E in Hc.
  - subst e. split; [lia|]. split; [|lia].
    assert (Z.pos (digits2_pos m) < 53) by lia.
    apply Z.lt_le_trans with (2 ^ Z.pos (digits2_pos m)); [lia|].
    apply Z.pow_le_mono_r; lia.
  - assert (Ed : Z.pos (digits2_pos m) = 53) by lia.
    rewrite Ed in Hd. change (53 - 1) with 52 in Hd. lia.
Qed.

(** On valid positive numbers [<] compares the values. *)
Lemma SFltb_scaled (m1 m2 : positive) (e1 e2 : Z) :
  bounded 53 1024 m1 e1 = true -> bounded 53 1024 m2 e2 = true ->
  SFltb (S754_finite false m1 e1) (S754_finite false m2 e2)
  = (Z.pos m1 * 2 ^ (e1 + 1074) <? Z.pos m2 * 2 ^ (e2 + 1074)).
Proof.
  intros H1 H2.
  apply bounded_binary64 in H1 as (He1 & Hm1 & Hn1).
  apply bounded_binary64 in H2 as (He2 & Hm2 & Hn2).
  unfold SFltb, SFcompare.
  assert (Hpow : forall a b, -1074 <= a -> a < b ->
                             2 * 2 ^ (a + 1074) <= 2 ^ (b + 1074)).
  { intros a b Ha Hab. rewrite <- Z.pow_succ_r by lia.
    apply Z.pow_le_mono_r; lia. }
  assert (Hpos : forall a, -1074 <= a -> 0 < 2 ^ (a + 1074)).
  { intros a Ha. apply Z.pow_pos_nonneg; lia. }
  change (2 ^ 53) with (2 * 2 ^ 52) in *.
  destruct (Z.compare_spec e1 e2) as [E | Hlt | Hgt].
  - subst e2. rewrite Pos.compare_cont_spec.
    pose proof (Hpos e1 He1).
    destruct (Pos.compare_spec m1 m2) as [E | Hl | Hg]; cbn [Pos.switch_Eq];
      symmetry; [apply Z.ltb_ge | apply Z.ltb_lt | apply Z.ltb_ge]; nia.
  - pose proof (Hpow e1 e2 He1 Hlt). pose proof (Hpos e1 He1).
    specialize (Hn2 ltac:(lia)).
    symmetry. apply Z.ltb_lt. nia.
  - pose proof (Hpow e2 e1 He2 Hgt). pose proof (Hpos e2 He2).
    specialize (Hn1 ltac:(lia)).
    symmetry. apply Z.ltb_ge. nia.
Qed.

Lemma exact_ratio_inv (d : double) (a b : Z) :
  exact_ratio d a b = true ->
  exists m e, d = S754_finite false m e /\ bounded 53 1024 m e = true /\
              Z.pos m * 2 ^ (e + 1074) * b = a * 2 ^ 1074.
Proof.
  unfold exact_ratio. destruct d as [| | |[] m e]; try discriminate.
  intros Hr. apply andb_prop in Hr as [Hv He]. apply Z.eqb_eq in He.
  exists m, e. auto.
Qed.

(** [>] on exact ratios is the comparison of the cross products. *)
Lemma dgt_exact (x y : double) (a1 b1 a2 b2 : Z) :
  exact_ratio x a1 b1 = true -> exact_ratio y a2 b2 = true ->
  0 < b1 -> 0 < b2 ->
  dgt x y = (a2 * b1 <? a1 * b2).
Proof.
  intros Hx Hy Hb1 Hb2.
  apply exact_ratio_inv in Hx as (m1 & e1 & -> & Hv1 & E1).
  apply exact_ratio_inv in Hy as (m2 & e2 & -> & Hv2 & E2).
  unfold dgt. rewrite SFltb_scaled by assumption.
  set (X := Z.pos m1 * 2 ^ (e1 + 1074)) in *.
  set (Y := Z.pos m2 * 2 ^ (e2 + 1074)) in *.
  assert (HK : 0 < 2 ^ 1074) by (apply Z.pow_pos_nonneg; lia).
  set (K := 2 ^ 1074) in *.
  destruct (Z.ltb_spec Y X) as [Hlt | Hge], (Z.ltb_spec (a2 * b1) (a1 * b2)) as [Hl | Hg];
    try reflexivity; exfalso.
  - assert (Y * (b1 * b2) < X * (b1 * b2)) by (apply Z.mul_lt_mono_pos_r; lia).
    assert (a1 * b2 * K <= a2 * b1 * K) by (apply Z.mul_le_mono_nonneg_r; lia).
    nia.
  - assert (X * (b1 * b2) <= Y * (b1 * b2)) by (apply Z.mul_le_mono_nonneg_r; lia).
    assert (a2 * b1 * K < a1 * b2 * K) by (apply Z.mul_lt_mono_pos_r; lia).
    nia.
Qed.

(** The cast of an exact ratio is the integer quotient. *)
Lemma int_of_exact (x : double) (a b : Z) :
  exact_ratio x a b = true -> 0 < b -> 0 <= a -> Z.quot a b < 2 ^ 31 ->
  int_of_double x = Z.quot a b.
Proof.
  intros Hx Hb Ha Hr.
  apply exact_ratio_inv in Hx as (m & e & -> & Hv & E).
  apply bounded_binary64 in Hv as (He & _).
  assert (HK : 0 < 2 ^ 1074) by (apply Z.pow_pos_nonneg; lia).
  rewrite Z.quot_div_nonneg in * by lia.
  assert (Hq : (Z.pos m * 2 ^ (e + 1074)) / 2 ^ 1074 = a / b).
  { rewrite <- (Z.div_mul_cancel_r _ (2 ^ 1074) b) by lia.
    rewrite E. rewrite (Z.mul_comm (2 ^ 1074) b).
    apply Z.div_mul_cancel_r; lia. }
  assert (Hv : (if 0 <=? e then Z.pos m * 2 ^ e else Z.quot (Z.pos m) (2 ^ (- e)))
               = a / b).
  { rewrite <- Hq. destruct (Z.leb_spec 0 e) as [Hpos | Hneg].
    - rewrite Z.pow_add_r, Z.mul_assoc by lia. symmetry. apply Z.div_mul. lia.
    - assert (Hp : 0 < 2 ^ (- e)) by (apply Z.pow_pos_nonneg; lia).
      rewrite Z.quot_div_nonneg by lia.
      replace 1074 with ((e + 1074) + - e) at 2 by lia.
      rewrite (Z.pow_add_r 2 (e + 1074) (- e)) by lia.
      symmetry. rewrite (Z.mul_comm (2 ^ (e + 1074)) (2 ^ (- e))).
      apply Z.div_mul_cancel_r; [lia|].
      apply Z.neq_sym, Z.lt_neq, Z.pow_pos_nonneg; lia. }
  unfold int_of_double. cbv zeta. rewrite Hv.
  assert (0 <= a / b) by (apply Z.div_pos; lia).
  unfold INT_MIN.
  destruct (Z.leb_spec (- 2 ^ 31) (a / b)); [|lia].
  destruct (Z.ltb_spec (a / b) (2 ^ 31)); [reflexivity | lia].
Qed.

Lemma double_value_exact (x : double) (a b : Z) :
  exact_ratio x a b = true -> 0 < b ->
  (double_value x == inject_Z a / inject_Z b)%Q.
Proof.
  intros Hx Hb.
  apply exact_ratio_inv in Hx as (m & e & -> & Hv & E).
  unfold double_value.
  assert (HK : 0 < 2 ^ 1074) by (apply Z.pow_pos_nonneg; lia).
  set (K := 2 ^ 1074) in *. set (X := Z.pos m * 2 ^ (e + 1074)) in *.
  destruct K as [|k|k]; try lia. destruct b as [|p|p]; try lia.
  unfold Qeq. cbn. lia.
Qed.

Lemma int_of_Q_compat (p q : Q) : (p == q)%Q -> Exact.int_of_Q p = Exact.int_of_Q q.
Proof.
  unfold Qeq, Exact.int_of_Q. intros E.
  rewrite <- (Z.quot_mul_cancel_r (Qnum p) (Zpos (Qden p)) (Zpos (Qden q))) by lia.
  rewrite E.
  rewrite (Z.mul_comm (Zpos (Qden p))).
  apply Z.quot_mul_cancel_r; lia.
Qed.

(** Where nothing rounds the code computes the rectangle and the scale of
    the exact mapper. *)
Lemma getDisplayArea_unrounded (s : Hal) :
  0 < win_w s < 2 ^ 31 -> 0 < win_h s < 2 ^ 31 ->
  0 < screenWidth s -> 0 < screenHeight s ->
  unrounded s = true ->
  let exact := Exact.display_area (win_w s) (win_h s) (screenWidth s) (screenHeight s) in
  fst (getDisplayArea s) = fst exact /\
  (double_value (snd (getDisplayArea s)) == snd exact)%Q.
Proof.
  intros Hwx Hwy Hsw Hsh Hu. cbv zeta.
  unfold unrounded in Hu. cbv zeta in Hu.
  apply andb_prop in Hu as [Hu Hpy]. apply andb_prop in Hu as [Hu Hpx].
  apply andb_prop in Hu as [Hu Hys]. apply andb_prop in Hu as [Hy Hxs].
  rewrite exact_display_area_eq by assumption.
  unfold getDisplayArea.
  set (winx := win_w s) in *. set (winy := win_h s) in *.
  set (sw := screenWidth s) in *. set (sh := screenHeight s) in *.
  rewrite (dgt_exact _ _ (winx * sh) sw winy 1 Hpx Hy) by lia.
  rewrite Z.mul_1_r.
  destruct (Z.ltb_spec (winy * sw) (winx * sh)) as [Hlt | Hge]; cbn [fst snd].
  - assert (Hq : 0 <= (winy * sw) / sh <= winx).
    { split; [apply Z.div_pos; lia|].
      apply Z.lt_le_incl, Z.div_lt_upper_bound; lia. }
    rewrite (int_of_exact _ (winy * sw) sh Hpy)
      by (rewrite ?Z.quot_div_nonneg by lia; lia).
    split; [reflexivity|]. now apply double_value_exact.
  - assert (Hq : 0 <= (winx * sh) / sw <= winy).
    { split; [apply Z.div_pos; lia|].
      apply Z.div_le_upper_bound; lia. }
    rewrite (int_of_exact _ (winx * sh) sw Hpx)
      by (rewrite ?Z.quot_div_nonneg by lia; lia).
    split; [reflexivity|]. now apply double_value_exact.
Qed.

(** *** Rounding of the binary64 operations

    [binary_round_aux] on a mantissa of 53 digits or more keeps the first
    53 digits or takes the next mantissa up; hence the quotient and the
    product of two normal numbers are within one unit in the last place of
    the exact ones, and the conversion of an [int] is exact. *)

Lemma fexp_normal (e : Z) : -1021 <= e -> fexp 53 1024 e = e - 53.
Proof. intros He. unfold fexp, emin. lia. Qed.

Lemma shr_1_m (r : shr_record) : 0 <= shr_m r -> shr_m (shr_1 r) = shr_m r / 2.
Proof.
  destruct r as [m r s]. cbn [shr_m]. intros Hm.
  rewrite <- Z.div2_div.
  destruct m as [|[p|p|]|p]; try reflexivity. lia.
Qed.

Lemma iter_shr_1_m (p : positive) (r : shr_record) :
  0 <= shr_m r -> shr_m (SpecFloat.iter_pos shr_1 p r) = shr_m r / 2 ^ Z.pos p.
Proof.
  revert r. induction p as [p IH|p IH|]; intros r Hr; cbn [SpecFloat.iter_pos].
  - assert (H1 : 0 <= shr_m (shr_1 r)) by (rewrite shr_1_m by lia; apply Z.div_pos; lia).
    assert (H2 : 0 <= shr_m (SpecFloat.iter_pos shr_1 p (shr_1 r)))
      by (rewrite IH by lia; apply Z.div_pos; lia).
    rewrite IH, IH, shr_1_m by lia.
    rewrite !Z.div_div by lia. f_equal.
    rewrite <- (Z.pow_1_r 2) at 1. rewrite <- !Z.pow_add_r by lia. f_equal. lia.
  - assert (H2 : 0 <= shr_m (SpecFloat.iter_pos shr_1 p r))
      by (rewrite IH by lia; apply Z.div_pos; lia).
    rewrite IH, IH by lia.
    rewrite !Z.div_div by lia. f_equal.
    rewrite <- Z.pow_add_r by lia. f_equal. lia.
  - now rewrite shr_1_m.
Qed.

Lemma shr_m_spec (r : shr_record) (e n : Z) :
  0 <= n -> 0 <= shr_m r ->
  exists r', shr r e n = (r', e + n) /\ shr_m r' = shr_m r / 2 ^ n.
Proof.
  intros Hn Hr. destruct n as [|p|p]; [| |lia].
  - exists r. cbn. rewrite Z.add_0_r, Z.div_1_r. auto.
  - exists (SpecFloat.iter_pos shr_1 p r). cbn [shr]. split; [reflexivity|].
    now apply iter_shr_1_m.
Qed.

Lemma shr_m_of_loc (m : Z) (l : location) : shr_m (shr_record_of_loc m l) = m.
Proof. destruct l as [|[]]; reflexivity. Qed.

Lemma round_nearest_even_cases (m : Z) (l : location) :
  round_nearest_even m l = m \/ round_nearest_even m l = m + 1.
Proof.
  destruct l as [|[]]; cbn; auto. destruct (Z.even m); auto.
Qed.

Lemma digits2_pos_unique (m : positive) (k : Z) :
  2 ^ (k - 1) <= Z.pos m < 2 ^ k -> Z.pos (digits2_pos m) = k.
Proof.
  intros [Hlo Hhi]. pose proof (digits2_pos_bounds m) as [Dlo Dhi].
  set (d := Z.pos (digits2_pos m)) in *.
  destruct (Z.lt_trichotomy d k) as [Hlt|[Heq|Hgt]]; [|exact Heq|].
  - assert (2 ^ d <= 2 ^ (k - 1)) by (apply Z.pow_le_mono_r; lia). lia.
  - assert (0 <= k).
    { destruct (Z.lt_ge_cases k 0) as [Hn|]; [|lia].
      rewrite (Z.pow_neg_r 2 k) in Hhi by lia. lia. }
    assert (2 ^ k <= 2 ^ (d - 1)) by (apply Z.pow_le_mono_r; lia). lia.
Qed.

(** Rounding a positive mantissa of at least 53 digits in the normal
    range: the result is the mantissa cut to 53 digits, or the next one. *)
Lemma binary_round_aux_faithful (mx : positive) (ex : Z) (lx : location) :
  let d := Z.pos (digits2_pos mx) in
  53 <= d -> -1074 <= ex + (d - 53) <= 970 ->
  exists m e c,
    binary_round_aux 53 1024 false (Z.pos mx) ex lx = S754_finite false m e /\
    bounded 53 1024 m e = true /\
    ex + (d - 53) <= e <= ex + (d - 53) + c /\
    (c = 0 \/ c = 1) /\
    (d = 53 -> lx = loc_Exact -> c = 0) /\
    2 ^ 52 <= Z.pos mx / 2 ^ (d - 53) < 2 ^ 53 /\
    Z.pos m * 2 ^ (e + 1074)
    = (Z.pos mx / 2 ^ (d - 53) + c) * 2 ^ (ex + (d - 53) + 1074).
Proof.
  intros d Hd He.
  pose proof (digits2_pos_bounds mx) as [Dlo Dhi]. fold d in Dlo, Dhi.
  set (n := d - 53) in *. set (q := Z.pos mx / 2 ^ n).
  assert (Hq : 2 ^ 52 <= q < 2 ^ 53).
  { unfold q. replace (d - 1) with (52 + n) in Dlo by lia.
    replace d with (53 + n) in Dhi by lia.
    rewrite Z.pow_add_r in Dlo, Dhi by lia.
    assert (0 < 2 ^ n) by (apply Z.pow_pos_nonneg; lia).
    split.
    - apply Z.div_le_lower_bound; lia.
    - apply Z.div_lt_upper_bound; lia. }
  unfold binary_round_aux, shr_fexp. cbn [Zdigits2]. fold d.
  rewrite fexp_normal by lia. replace (d + ex - 53 - ex) with n by lia.
  destruct (shr_m_spec (shr_record_of_loc (Z.pos mx) lx) ex n) as (r1 & E1 & M1);
    [lia | rewrite shr_m_of_loc; lia |].
  rewrite E1. rewrite shr_m_of_loc in M1. fold q in M1. rewrite M1.
  set (m1 := round_nearest_even q (loc_of_shr_record r1)).
  assert (Hexact : d = 53 -> lx = loc_Exact -> m1 = q).
  { intros Hd53 ->. unfold m1. assert (Hn0 : n = 0) by lia.
    rewrite Hn0 in E1. cbn in E1. injection E1 as <-. reflexivity. }
  assert (Hm1 : m1 = q \/ m1 = q + 1) by apply round_nearest_even_cases.
  clearbody m1.
  destruct (Z.eq_dec m1 (2 ^ 53)) as [Etop|Hne].
  - (* the mantissa was rounded up to 2^53 *)
    assert (Ec : m1 = q + 1) by lia.
    rewrite Etop. change (Zdigits2 (2 ^ 53)) with 54.
    rewrite fexp_normal by lia.
    replace (54 + (ex + n) - 53 - (ex + n)) with 1 by lia.
    cbn [shr shr_record_of_loc SpecFloat.iter_pos shr_1 shr_m].
    change (2 ^ 53) with (Z.pos (2 ^ 53)%positive). cbn [shr_1 shr_m].
    destruct (Z.leb_spec (ex + n + 1) (1024 - 53)) as [_|Hbad]; [|lia].
    exists 4503599627370496%positive, (ex + n + 1), 1. split; [reflexivity|].
    split; [|split; [lia|split; [auto|split; [|split; [exact Hq|]]]]].
    + unfold bounded, canonical_mantissa.
      change (Z.pos (digits2_pos _)) with 53. rewrite fexp_normal by lia.
      apply andb_true_intro. split; [apply Z.eqb_eq; lia | apply Z.leb_le; lia].
    + intros Hd53 Hl. specialize (Hexact Hd53 Hl). lia.
    + rewrite <- Ec, Etop.
      replace (ex + n + 1 + 1074) with (1 + (ex + n + 1074)) by lia.
      rewrite Z.pow_add_r by lia.
      change (2 ^ 1) with 2. change (2 ^ 53) with 9007199254740992. lia.
  - assert (Hm1r : 2 ^ 52 <= m1 < 2 ^ 53) by lia.
    destruct m1 as [|p1|p1]; try lia.
    cbn [Zdigits2]. rewrite (digits2_pos_unique p1 53) by exact Hm1r.
    rewrite fexp_normal by lia.
    replace (53 + (ex + n) - 53 - (ex + n)) with 0 by lia.
    cbn [shr shr_record_of_loc shr_m].
    destruct (Z.leb_spec (ex + n) (1024 - 53)) as [_|Hbad]; [|lia].
    exists p1, (ex + n), (Z.pos p1 - q). split; [reflexivity|].
    split; [|split; [lia|split; [lia|split; [|split; [exact Hq|]]]]].
    + unfold bounded, canonical_mantissa.
      rewrite (digits2_pos_unique p1 53) by exact Hm1r. rewrite fexp_normal by lia.
      apply andb_true_intro. split; [apply Z.eqb_eq; lia | apply Z.leb_le; lia].
    + intros Hd53 Hl. specialize (Hexact Hd53 Hl). lia.
    + f_equal. lia.
Qed.

Lemma iter_xO (p k : positive) : Z.pos (Pos.iter xO p k) = Z.pos p * 2 ^ Z.pos k.
Proof.
  change (Pos.iter xO p k) with (shift_pos k p). rewrite shift_pos_correct.
  change (Zpower_pos 2 k) with (2 ^ Z.pos k). lia.
Qed.

Lemma normal_mantissa (m : positive) (e : Z) :
  bounded 53 1024 m e = true -> -1074 < e ->
  Z.pos (digits2_pos m) = 53 /\ 2 ^ 52 <= Z.pos m < 2 ^ 53.
Proof.
  intros Hb He. pose proof (digits2_pos_bounds m) as Hd.
  unfold bounded, canonical_mantissa in Hb. apply andb_prop in Hb as [Hc _].
  apply Z.eqb_eq in Hc. unfold fexp, emin in Hc.
  assert (E : Z.pos (digits2_pos m) = 53) by lia.
  rewrite E in Hd. split; [exact E | exact Hd].
Qed.

(** [(double)n] is exact for an [int] below 2^53. *)
Lemma double_of_int_scaled (n : Z) :
  0 < n < 2 ^ 53 ->
  exists m e,
    double_of_int n = S754_finite false m e /\
    bounded 53 1024 m e = true /\ -52 <= e <= 0 /\
    scaled m e = n * 2 ^ 1074.
Proof.
  intros Hn. destruct n as [|p|p]; try lia.
  pose proof (digits2_pos_bounds p) as [Dlo Dhi].
  remember (Z.pos (digits2_pos p)) as d eqn:Hdd.
  assert (Hd : 1 <= d <= 53).
  { split; [lia|].
    destruct (Z.le_gt_cases d 53) as [|Hgt]; [assumption|].
    assert (2 ^ 53 <= 2 ^ (d - 1)) by (apply Z.pow_le_mono_r; lia). lia. }
  unfold double_of_int, binary_normalize, binary_round. rewrite <- Hdd.
  rewrite Z.add_0_r, fexp_normal by lia. unfold shl_align. rewrite Z.sub_0_r.
  destruct (d - 53) as [|k|k] eqn:Ek; try lia.
  - destruct (binary_round_aux_faithful p 0 loc_Exact)
      as (m & e & c & E & Hb & He & _ & Hc & _ & Hv); rewrite <- ?Hdd; try lia.
    rewrite <- Hdd in *. assert (Hd53 : d = 53) by (clear -Ek; lia).
    rewrite (Hc Hd53 eq_refl) in Hv, He. exists m, e.
    split; [exact E|]. split; [exact Hb|]. split; [lia|].
    unfold scaled. rewrite Hv. replace (d - 53) with 0 by lia.
    rewrite Z.div_1_r. f_equal; lia.
  - assert (Hmz : Z.pos (Pos.iter xO p k) = Z.pos p * 2 ^ (53 - d))
      by (rewrite iter_xO; f_equal; f_equal; lia).
    assert (Hr : 2 ^ 52 <= Z.pos (Pos.iter xO p k) < 2 ^ 53).
    { rewrite Hmz.
      assert (H52 : 2 ^ 52 = 2 ^ (d - 1) * 2 ^ (53 - d))
        by (rewrite <- Z.pow_add_r by lia; f_equal; lia).
      assert (H53 : 2 ^ 53 = 2 ^ d * 2 ^ (53 - d))
        by (rewrite <- Z.pow_add_r by lia; f_equal; lia).
      assert (0 < 2 ^ (53 - d)) by (apply Z.pow_pos_nonneg; lia).
      rewrite H52, H53. split.
      - apply Z.mul_le_mono_nonneg_r; lia.
      - apply Z.mul_lt_mono_pos_r; lia. }
    pose proof (digits2_pos_unique _ 53 Hr) as Hdz.
    destruct (binary_round_aux_faithful (Pos.iter xO p k) (Z.neg k) loc_Exact)
      as (m & e & c & E & Hb & He & _ & Hc & _ & Hv); rewrite ?Hdz; try lia.
    rewrite Hdz in *. rewrite (Hc eq_refl eq_refl) in Hv, He. exists m, e.
    split; [exact E|]. split; [exact Hb|]. split; [lia|].
    unfold scaled. rewrite Hv, Z.sub_diag, Z.div_1_r, Z.add_0_r, Z.add_0_r, Hmz.
    rewrite <- Z.mul_assoc, <- Z.pow_add_r by lia. f_equal; f_equal; lia.
Qed.

Lemma rel_from_unit (R W T : Z) :
  2 ^ 52 <= R -> 0 < W -> (R - 1) * W <= T <= (R + 1) * W ->
  (2 ^ 52 - 1) * (R * W) <= 2 ^ 52 * T <= (2 ^ 52 + 1) * (R * W).
Proof.
  change (2 ^ 52) with 4503599627370496. intros HR HW [H1 H2]. nia.
Qed.

Lemma scale_bounds (a b c F : Z) :
  0 <= F -> a <= b <= c -> a * F <= b * F <= c * F.
Proof. intros HF [H1 H2]. split; apply Z.mul_le_mono_nonneg_r; assumption. Qed.

Lemma div_unit_bounds (q u : Z) :
  0 < u -> q / u * u <= q /\ q + 1 <= (q / u + 1) * u.
Proof.
  intros Hu. pose proof (Z.mul_div_le q u Hu). pose proof (Z.mul_succ_div_gt q u Hu).
  lia.
Qed.

(** The quotient of two positive normal [double]s is within one unit in
    the last place of the exact quotient. *)
Lemma ddiv_faithful (mx my : positive) (ex ey : Z) :
  bounded 53 1024 mx ex = true -> bounded 53 1024 my ey = true ->
  -500 <= ex <= 500 -> -500 <= ey <= 500 ->
  exists m e,
    ddiv (S754_finite false mx ex) (S754_finite false my ey) = S754_finite false m e /\
    bounded 53 1024 m e = true /\
    ex - ey - 53 <= e <= ex - ey - 51 /\
    (2 ^ 52 - 1) * (scaled m e * scaled my ey)
    <= 2 ^ 52 * (scaled mx ex * 2 ^ 1074)
    <= (2 ^ 52 + 1) * (scaled m e * scaled my ey).
Proof.
  intros Hbx Hby Hex Hey.
  destruct (normal_mantissa mx ex Hbx ltac:(lia)) as [Dx Rx].
  destruct (normal_mantissa my ey Hby ltac:(lia)) as [Dy Ry].
  unfold ddiv, SFdiv, SFdiv_core_binary. cbn [xorb Zdigits2]. rewrite Dx, Dy.
  replace (Z.min (fexp 53 1024 (53 + ex - (53 + ey))) (ex - ey)) with (ex - ey - 53)
    by (rewrite fexp_normal by lia; lia).
  replace (ex - ey - (ex - ey - 53)) with 53 by lia.
  rewrite Z.shiftl_mul_pow2 by lia.
  set (T := Z.pos mx * 2 ^ 53). set (e' := ex - ey - 53).
  assert (Hq : Z.div_eucl T (Z.pos my) = (T / Z.pos my, T mod Z.pos my))
    by (unfold Z.div, Z.modulo; now destruct (Z.div_eucl T (Z.pos my))).
  rewrite Hq. set (q := T / Z.pos my).
  assert (Hqm : q * Z.pos my <= T /\ T + 1 <= (q + 1) * Z.pos my)
    by (apply div_unit_bounds; lia).
  assert (HT : 2 ^ 105 <= T < 2 ^ 106).
  { unfold T. change (2 ^ 105) with (2 ^ 52 * 2 ^ 53).
    change (2 ^ 106) with (2 ^ 53 * 2 ^ 53). lia. }
  assert (Hqr : 2 ^ 52 <= q < 2 ^ 54).
  { change (2 ^ 105) with (2 ^ 52 * 2 ^ 53) in HT.
    change (2 ^ 106) with (2 ^ 54 * 2 ^ 52) in HT.
    change (2 ^ 52) with 4503599627370496 in *.
    change (2 ^ 53) with 9007199254740992 in *.
    change (2 ^ 54) with 18014398509481984 in *. nia. }
  destruct q as [|pq|pq] eqn:Eq; try lia.
  set (d := Z.pos (digits2_pos pq)).
  assert (Hd : d = 53 \/ d = 54).
  { destruct (Z.lt_ge_cases (Z.pos pq) (2 ^ 53)).
    - left. apply digits2_pos_unique. lia.
    - right. apply digits2_pos_unique. change (54 - 1) with 53. lia. }
  destruct (binary_round_aux_faithful pq e' (new_location (Z.pos my) (T mod Z.pos my)))
    as (m & e & c & E & Hb & He & Hc & _ & HQ & Hv); fold d; try (unfold e'; lia).
  fold d in He, HQ, Hv.
  exists m, e. split; [exact E|]. split; [exact Hb|]. split; [unfold e' in He; lia|].
  set (u := 2 ^ (d - 53)) in *.
  assert (Hu : 0 < u) by (apply Z.pow_pos_nonneg; lia).
  set (Qh := Z.pos pq / u) in *.
  destruct (div_unit_bounds (Z.pos pq) u Hu) as [U1 U2]. fold Qh in U1, U2.
  assert (Hrel : (2 ^ 52 - 1) * ((Qh + c) * (u * Z.pos my)) <= 2 ^ 52 * T
                 <= (2 ^ 52 + 1) * ((Qh + c) * (u * Z.pos my))).
  { apply rel_from_unit; [lia | lia |]. split.
    - apply Z.le_trans with (Qh * u * Z.pos my); [nia|].
      apply Z.le_trans with (Z.pos pq * Z.pos my); [|lia].
      apply Z.mul_le_mono_nonneg_r; lia.
    - apply Z.le_trans with ((Z.pos pq + 1) * Z.pos my); [lia|].
      apply Z.le_trans with ((Qh + 1) * u * Z.pos my); [|nia].
      apply Z.mul_le_mono_nonneg_r; lia. }
  set (pE := 2 ^ (e' + 1074)). set (pB := 2 ^ (ey + 1074)).
  assert (HpE : 0 < pE) by (apply Z.pow_pos_nonneg; unfold e'; lia).
  assert (HpB : 0 < pB) by (apply Z.pow_pos_nonneg; lia).
  assert (Hz : scaled m e * scaled my ey
               = (Qh + c) * (u * Z.pos my) * (pE * pB)).
  { unfold scaled. rewrite Hv.
    replace (e' + (d - 53) + 1074) with (d - 53 + (e' + 1074)) by lia.
    rewrite Z.pow_add_r by (unfold e'; lia). fold u pE pB. ring. }
  assert (Hx : scaled mx ex * 2 ^ 1074 = T * (pE * pB)).
  { unfold scaled, T, pE, pB. rewrite <- !Z.mul_assoc, <- !Z.pow_add_r
      by (unfold e'; lia).
    f_equal. f_equal. unfold e'. lia. }
  rewrite Hz, Hx.
  destruct (scale_bounds _ _ _ (pE * pB) ltac:(nia) Hrel) as [S1 S2].
  split; [rewrite !Z.mul_assoc in *; exact S1 | rewrite !Z.mul_assoc in *; exact S2].
Qed.

(** The product of two positive normal [double]s is within one unit in the
    last place of the exact product. *)
Lemma dmul_faithful (mx my : positive) (ex ey : Z) :
  bounded 53 1024 mx ex = true -> bounded 53 1024 my ey = true ->
  -500 <= ex <= 400 -> -500 <= ey <= 400 ->
  exists m e,
    dmul (S754_finite false mx ex) (S754_finite false my ey) = S754_finite false m e /\
    bounded 53 1024 m e = true /\
    ex + ey + 52 <= e <= ex + ey + 54 /\
    (2 ^ 52 - 1) * (scaled m e * 2 ^ 1074)
    <= 2 ^ 52 * (scaled mx ex * scaled my ey)
    <= (2 ^ 52 + 1) * (scaled m e * 2 ^ 1074).
Proof.
  intros Hbx Hby Hex Hey.
  destruct (normal_mantissa mx ex Hbx ltac:(lia)) as [Dx Rx].
  destruct (normal_mantissa my ey Hby ltac:(lia)) as [Dy Ry].
  unfold dmul, SFmul. cbn [xorb].
  assert (HP : 2 ^ 104 <= Z.pos (mx * my) < 2 ^ 106).
  { rewrite Pos2Z.inj_mul. change (2 ^ 104) with (2 ^ 52 * 2 ^ 52).
    change (2 ^ 106) with (2 ^ 53 * 2 ^ 53).
    change (2 ^ 52) with 4503599627370496 in *.
    change (2 ^ 53) with 9007199254740992 in *. nia. }
  set (d := Z.pos (digits2_pos (mx * my))).
  assert (Hd : d = 105 \/ d = 106).
  { destruct (Z.lt_ge_cases (Z.pos (mx * my)) (2 ^ 105)).
    - left. apply digits2_pos_unique. change (105 - 1) with 104. lia.
    - right. apply digits2_pos_unique. change (106 - 1) with 105. lia. }
  destruct (binary_round_aux_faithful (mx * my) (ex + ey) loc_Exact)
    as (m & e & c & E & Hb & He & Hc & _ & HQ & Hv); fold d; try lia.
  fold d in He, HQ, Hv.
  exists m, e. split; [exact E|]. split; [exact Hb|]. split; [lia|].
  set (u := 2 ^ (d - 53)) in *.
  assert (Hu : 0 < u) by (apply Z.pow_pos_nonneg; lia).
  set (Qh := Z.pos (mx * my) / u) in *.
  destruct (div_unit_bounds (Z.pos (mx * my)) u Hu) as [U1 U2]. fold Qh in U1, U2.
  assert (Hrel : (2 ^ 52 - 1) * ((Qh + c) * u) <= 2 ^ 52 * Z.pos (mx * my)
                 <= (2 ^ 52 + 1) * ((Qh + c) * u)).
  { apply rel_from_unit; [lia | lia |]. split; nia. }
  set (pE := 2 ^ (ex + ey + 1074)). set (K := 2 ^ 1074).
  assert (HpE : 0 < pE) by (apply Z.pow_pos_nonneg; lia).
  assert (HK : 0 < K) by (apply Z.pow_pos_nonneg; lia).
  assert (Hz : scaled m e * K = (Qh + c) * u * (pE * K)).
  { unfold scaled. rewrite Hv.
    replace (ex + ey + (d - 53) + 1074) with (d - 53 + (ex + ey + 1074)) by lia.
    rewrite Z.pow_add_r by lia. fold u pE. ring. }
  assert (Hx : scaled mx ex * scaled my ey = Z.pos (mx * my) * (pE * K)).
  { assert (Hp : pE * K = 2 ^ (ex + 1074) * 2 ^ (ey + 1074))
      by (unfold pE, K; rewrite <- !Z.pow_add_r by lia; f_equal; lia).
    rewrite Hp. unfold scaled. rewrite Pos2Z.inj_mul. ring. }
  rewrite Hz, Hx.
  destruct (scale_bounds _ _ _ (pE * K) ltac:(nia) Hrel) as [S1 S2].
  split; [rewrite !Z.mul_assoc in *; exact S1 | rewrite !Z.mul_assoc in *; exact S2].
Qed.

(** [(int)d] for a positive [double] below 2^31 is the whole part of its
    value. *)
Lemma int_of_double_scaled (m : positive) (e : Z) :
  -1074 <= e -> scaled m e / 2 ^ 1074 < 2 ^ 31 ->
  int_of_double (S754_finite false m e) = scaled m e / 2 ^ 1074.
Proof.
  intros He Hsmall. unfold scaled in *. unfold int_of_double.
  assert (Hv : (if 0 <=? e then Z.pos m * 2 ^ e else Z.quot (Z.pos m) (2 ^ (- e)))
               = Z.pos m * 2 ^ (e + 1074) / 2 ^ 1074).
  { destruct (Z.leb_spec 0 e) as [Hp|Hn].
    - rewrite Z.pow_add_r by lia. rewrite Z.mul_assoc. symmetry.
      apply Z.div_mul. apply Z.pow_nonzero; lia.
    - rewrite Z.quot_div_nonneg by (try apply Z.pow_pos_nonneg; lia).
      replace 1074 with (e + 1074 + - e) at 2 by lia.
      rewrite (Z.pow_add_r 2 (e + 1074) (- e)) by lia.
      rewrite (Z.mul_comm (2 ^ (e + 1074)) (2 ^ (- e))).
      symmetry. apply Z.div_mul_cancel_r; apply Z.pow_nonzero; lia. }
  cbv zeta. rewrite Hv.
  set (v := Z.pos m * 2 ^ (e + 1074) / 2 ^ 1074) in *.
  assert (0 <= v).
  { apply Z.div_pos; [|apply Z.pow_pos_nonneg; lia].
    assert (0 < 2 ^ (e + 1074)) by (apply Z.pow_pos_nonneg; lia). lia. }
  unfold INT_MIN.
  destruct (Z.leb_spec (- 2 ^ 31) v), (Z.ltb_spec v (2 ^ 31)); cbn [andb]; lia.
Qed.

Lemma dgt_scaled (m1 m2 : positive) (e1 e2 : Z) :
  bounded 53 1024 m1 e1 = true -> bounded 53 1024 m2 e2 = true ->
  dgt (S754_finite false m1 e1) (S754_finite false m2 e2)
  = (scaled m2 e2 <? scaled m1 e1).
Proof. intros H1 H2. unfold dgt, scaled. now apply SFltb_scaled. Qed.

(** A quotient and a product, each within one unit in the last place: how
    far the result [S2] (times [K]) can be from [a * n / b]. *)
Lemma two_roundings (K a b n S1 S2 : Z) :
  0 < K -> 0 < a < 2 ^ 24 -> 0 < b < 2 ^ 24 -> 0 < n < 2 ^ 24 ->
  (2 ^ 52 - 1) * (S1 * b) <= 2 ^ 52 * (a * K) <= (2 ^ 52 + 1) * (S1 * b) ->
  (2 ^ 52 - 1) * S2 <= 2 ^ 52 * (S1 * n) <= (2 ^ 52 + 1) * S2 ->
  (2 ^ 52 - 1) * (2 ^ 52 - 1) * (S2 * b) <= 2 ^ 52 * 2 ^ 52 * (a * n * K)
  /\ 2 ^ 52 * 2 ^ 52 * (a * n * K) <= (2 ^ 52 + 1) * (2 ^ 52 + 1) * (S2 * b).
Proof.
  change (2 ^ 52) with 4503599627370496. change (2 ^ 24) with 16777216.
  intros HK Ha Hb Hn [A1 A2] [B1 B2].
  assert (HS1 : 0 <= S1) by nia.
  split.
  - apply Z.le_trans with (4503599627370496 * (4503599627370496 - 1) * (S1 * b * n)).
    + replace ((4503599627370496 - 1) * (4503599627370496 - 1) * (S2 * b))
        with ((4503599627370496 - 1) * b * ((4503599627370496 - 1) * S2)) by ring.
      replace (4503599627370496 * (4503599627370496 - 1) * (S1 * b * n))
        with ((4503599627370496 - 1) * b * (4503599627370496 * (S1 * n))) by ring.
      apply Z.mul_le_mono_nonneg_l; [lia | exact B1].
    + replace (4503599627370496 * (4503599627370496 - 1) * (S1 * b * n))
        with (4503599627370496 * n * ((4503599627370496 - 1) * (S1 * b))) by ring.
      replace (4503599627370496 * 4503599627370496 * (a * n * K))
        with (4503599627370496 * n * (4503599627370496 * (a * K))) by ring.
      apply Z.mul_le_mono_nonneg_l; [lia | exact A1].
  - apply Z.le_trans with (4503599627370496 * (4503599627370496 + 1) * (S1 * b * n)).
    + replace (4503599627370496 * 4503599627370496 * (a * n * K))
        with (4503599627370496 * n * (4503599627370496 * (a * K))) by ring.
      replace (4503599627370496 * (4503599627370496 + 1) * (S1 * b * n))
        with (4503599627370496 * n * ((4503599627370496 + 1) * (S1 * b))) by ring.
      apply Z.mul_le_mono_nonneg_l; [lia | exact A2].
    + replace (4503599627370496 * (4503599627370496 + 1) * (S1 * b * n))
        with ((4503599627370496 + 1) * b * (4503599627370496 * (S1 * n))) by ring.
      replace ((4503599627370496 + 1) * (4503599627370496 + 1) * (S2 * b))
        with ((4503599627370496 + 1) * b * ((4503599627370496 + 1) * S2)) by ring.
      apply Z.mul_le_mono_nonneg_l; [lia | exact B2].
Qed.

(** Comparing such a result with a whole number [t]. *)
Lemma whole_below (K N b S2 t : Z) :
  0 < K -> 0 <= N < 2 ^ 48 -> 0 < b < 2 ^ 24 -> 0 <= t ->
  (2 ^ 52 - 1) * (2 ^ 52 - 1) * (S2 * b) <= 2 ^ 52 * 2 ^ 52 * (N * K) ->
  t * K <= S2 -> t * b <= N.
Proof.
  change (2 ^ 52) with 4503599627370496. change (2 ^ 24) with 16777216.
  change (2 ^ 48) with 281474976710656.
  intros HK HN Hb Ht L Hle.
  assert (H1 : (4503599627370496 - 1) * (4503599627370496 - 1) * (t * b) * K
               <= 4503599627370496 * 4503599627370496 * N * K).
  { apply Z.le_trans with ((4503599627370496 - 1) * (4503599627370496 - 1) * (S2 * b));
      [|lia].
    replace ((4503599627370496 - 1) * (4503599627370496 - 1) * (t * b) * K)
      with ((4503599627370496 - 1) * (4503599627370496 - 1) * b * (t * K)) by ring.
    replace ((4503599627370496 - 1) * (4503599627370496 - 1) * (S2 * b))
      with ((4503599627370496 - 1) * (4503599627370496 - 1) * b * S2) by ring.
    apply Z.mul_le_mono_nonneg_l; [lia | exact Hle]. }
  apply Z.mul_le_mono_pos_r in H1; [|exact HK]. nia.
Qed.

Lemma whole_above (K N b S2 t : Z) :
  0 < K -> 0 <= N -> 0 < b < 2 ^ 24 -> 0 <= t -> t * b < 2 ^ 49 ->
  2 ^ 52 * 2 ^ 52 * (N * K) <= (2 ^ 52 + 1) * (2 ^ 52 + 1) * (S2 * b) ->
  S2 <= t * K -> N <= t * b.
Proof.
  change (2 ^ 52) with 4503599627370496. change (2 ^ 24) with 16777216.
  change (2 ^ 49) with 562949953421312.
  intros HK HN Hb Ht Htb U Hle.
  assert (H1 : 4503599627370496 * 4503599627370496 * N * K
               <= (4503599627370496 + 1) * (4503599627370496 + 1) * (t * b) * K).
  { apply Z.le_trans with ((4503599627370496 + 1) * (4503599627370496 + 1) * (S2 * b));
      [lia|].
    replace ((4503599627370496 + 1) * (4503599627370496 + 1) * (t * b) * K)
      with ((4503599627370496 + 1) * (4503599627370496 + 1) * b * (t * K)) by ring.
    replace ((4503599627370496 + 1) * (4503599627370496 + 1) * (S2 * b))
      with ((4503599627370496 + 1) * (4503599627370496 + 1) * b * S2) by ring.
    apply Z.mul_le_mono_nonneg_l; [lia | exact Hle]. }
  apply Z.mul_le_mono_pos_r in H1; [|exact HK]. nia.
Qed.

(** The whole part of such a result: the exact quotient rounded down, or
    one less, the latter only where the quotient is whole. *)
Lemma rounded_floor (K N b S2 : Z) :
  0 < K -> 0 <= N < 2 ^ 48 -> 0 < b < 2 ^ 24 -> 0 <= S2 ->
  (2 ^ 52 - 1) * (2 ^ 52 - 1) * (S2 * b) <= 2 ^ 52 * 2 ^ 52 * (N * K) ->
  2 ^ 52 * 2 ^ 52 * (N * K) <= (2 ^ 52 + 1) * (2 ^ 52 + 1) * (S2 * b) ->
  0 <= S2 / K /\ N / b - 1 <= S2 / K <= N / b /\ (N mod b <> 0 -> S2 / K = N / b).
Proof.
  intros HK HN Hb HS L U.
  set (w := S2 / K). set (W := N / b).
  assert (Hw0 : 0 <= w) by (apply Z.div_pos; lia).
  destruct (div_unit_bounds S2 K HK) as [W1 W2]. fold w in W1, W2.
  destruct (div_unit_bounds N b ltac:(lia)) as [N1 N2]. fold W in N1, N2.
  assert (HW0 : 0 <= W) by (apply Z.div_pos; lia).
  assert (Hup : w * b <= N) by (apply (whole_below K N b S2 w); assumption || lia).
  assert (HwW : w <= W) by (apply Z.div_le_lower_bound; lia).
  assert (Hlo : N <= (w + 1) * b).
  { change (2 ^ 48) with 281474976710656 in HN. change (2 ^ 24) with 16777216 in Hb.
    apply (whole_above K N b S2 (w + 1)); try assumption;
      change (2 ^ 49) with 562949953421312; change (2 ^ 24) with 16777216; lia. }
  assert (HWw : W - 1 <= w).
  { destruct (Z.le_gt_cases (W - 1) w) as [|Hgt]; [assumption|]. exfalso.
    assert ((w + 1) * b + b <= W * b) by nia. lia. }
  split; [exact Hw0|]. split; [lia|].
  intros Hmod.
  assert (HNW : W * b < N).
  { pose proof (Z.div_mod N b ltac:(lia)) as E. fold W in E.
    pose proof (Z.mod_pos_bound N b ltac:(lia)). lia. }
  destruct (Z.eq_dec w W) as [|Hne]; [assumption|exfalso].
  assert (Hw : w = W - 1) by lia.
  assert (S2 <= W * K) by (subst w; lia).
  assert (N <= W * b).
  { change (2 ^ 48) with 281474976710656 in HN. change (2 ^ 24) with 16777216 in Hb.
    apply (whole_above K N b S2 W); try assumption;
      change (2 ^ 49) with 562949953421312; change (2 ^ 24) with 16777216; lia. }
  lia.
Qed.

Lemma cancel_factor (a b c K : Z) :
  0 < K -> a * K <= b * K <= c * K -> a <= b <= c.
Proof. intros HK [H1 H2]. split; apply Z.mul_le_mono_pos_r with K; assumption. Qed.

(** [(double)a / (double)b] for two sizes. *)
Lemma size_quotient (a b : Z) :
  0 < a < 2 ^ 24 -> 0 < b < 2 ^ 24 ->
  exists m e,
    ddiv (double_of_int a) (double_of_int b) = S754_finite false m e /\
    bounded 53 1024 m e = true /\ -105 <= e <= 1 /\
    (2 ^ 52 - 1) * (scaled m e * b) <= 2 ^ 52 * (a * 2 ^ 1074)
    <= (2 ^ 52 + 1) * (scaled m e * b).
Proof.
  intros Ha Hb.
  assert (Hlt : 2 ^ 24 < 2 ^ 53) by reflexivity.
  destruct (double_of_int_scaled a ltac:(lia)) as (ma & ea & Ea & Ba & Ra & Sa).
  destruct (double_of_int_scaled b ltac:(lia)) as (mb & eb & Eb & Bb & Rb & Sb).
  destruct (ddiv_faithful ma mb ea eb Ba Bb ltac:(lia) ltac:(lia))
    as (m & e & E & B & Re & Hrel).
  exists m, e. rewrite Ea, Eb. split; [exact E|]. split; [exact B|]. split; [lia|].
  rewrite Sa, Sb in Hrel.
  apply (cancel_factor _ _ _ (2 ^ 1074)); [apply Z.pow_pos_nonneg; lia|].
  replace ((2 ^ 52 - 1) * (scaled m e * b) * 2 ^ 1074)
    with ((2 ^ 52 - 1) * (scaled m e * (b * 2 ^ 1074))) by ring.
  replace ((2 ^ 52 + 1) * (scaled m e * b) * 2 ^ 1074)
    with ((2 ^ 52 + 1) * (scaled m e * (b * 2 ^ 1074))) by ring.
  replace (2 ^ 52 * (a * 2 ^ 1074) * 2 ^ 1074)
    with (2 ^ 52 * (a * 2 ^ 1074 * 2 ^ 1074)) by ring.
  exact Hrel.
Qed.

(** [scale * (double)n] for a scale from [size_quotient] and a size. *)
Lemma scale_product (m : positive) (e n : Z) :
  bounded 53 1024 m e = true -> -105 <= e <= 1 -> 0 < n < 2 ^ 24 ->
  exists m' e',
    dmul (S754_finite false m e) (double_of_int n) = S754_finite false m' e' /\
    bounded 53 1024 m' e' = true /\ -1074 <= e' /\
    (2 ^ 52 - 1) * scaled m' e' <= 2 ^ 52 * (scaled m e * n)
    <= (2 ^ 52 + 1) * scaled m' e'.
Proof.
  intros Bm Re Hn.
  assert (Hlt : 2 ^ 24 < 2 ^ 53) by reflexivity.
  destruct (double_of_int_scaled n ltac:(lia)) as (mn & en & En & Bn & Rn & Sn).
  destruct (dmul_faithful m mn e en Bm Bn ltac:(lia) ltac:(lia))
    as (m' & e' & E & B & Re' & Hrel).
  exists m', e'. rewrite En. split; [exact E|]. split; [exact B|]. split; [lia|].
  rewrite Sn in Hrel.
  apply (cancel_factor _ _ _ (2 ^ 1074)); [apply Z.pow_pos_nonneg; lia|].
  replace (2 ^ 52 * (scaled m e * n) * 2 ^ 1074)
    with (2 ^ 52 * (scaled m e * (n * 2 ^ 1074))) by ring.
  rewrite <- !Z.mul_assoc. exact Hrel.
Qed.

Lemma scaled_pos (m : positive) (e : Z) : -1074 <= e -> 0 < scaled m e.
Proof.
  intros He. unfold scaled.
  assert (0 < 2 ^ (e + 1074)) by (apply Z.pow_pos_nonneg; lia). lia.
Qed.

(** [(int)(((double)a / (double)b) * (double)n)] for three sizes: the
    exact [a * n / b] rounded down, or one less where that is whole. *)
Lemma scaled_size (a b n : Z) (m : positive) (e : Z) :
  0 < a < 2 ^ 24 -> 0 < b < 2 ^ 24 -> 0 < n < 2 ^ 24 ->
  ddiv (double_of_int a) (double_of_int b) = S754_finite false m e ->
  exists m' e',
    dmul (S754_finite false m e) (double_of_int n) = S754_finite false m' e' /\
    bounded 53 1024 m' e' = true /\
    (forall t, 0 <= t -> t * 2 ^ 1074 <= scaled m' e' -> t * b <= a * n) /\
    (forall t, 0 <= t -> t * b < 2 ^ 49 -> scaled m' e' <= t * 2 ^ 1074 ->
               a * n <= t * b) /\
    (a * n / b < 2 ^ 31 ->
     int_of_double (S754_finite false m' e') = scaled m' e' / 2 ^ 1074) /\
    0 <= scaled m' e' / 2 ^ 1074 /\
    a * n / b - 1 <= scaled m' e' / 2 ^ 1074 <= a * n / b /\
    ((a * n) mod b <> 0 -> scaled m' e' / 2 ^ 1074 = a * n / b).
Proof.
  intros Ha Hb Hn Ediv.
  destruct (size_quotient a b Ha Hb) as (m0 & e0 & E0 & B0 & R0 & Q0).
  rewrite Ediv in E0. injection E0 as <- <-.
  destruct (scale_product m e n B0 R0 Hn) as (m' & e' & E' & B' & R' & P').
  exists m', e'. split; [exact E'|]. split; [exact B'|].
  assert (HK : 0 < 2 ^ 1074) by (apply Z.pow_pos_nonneg; lia).
  set (K := 2 ^ 1074) in *.
  pose proof (scaled_pos m' e' R') as HS.
  destruct (two_roundings K a b n (scaled m e) (scaled m' e') HK Ha Hb Hn Q0 P')
    as [L U].
  assert (HN : 0 <= a * n < 2 ^ 48).
  { change (2 ^ 48) with (2 ^ 24 * 2 ^ 24). change (2 ^ 24) with 16777216 in *. nia. }
  destruct (rounded_floor K (a * n) b (scaled m' e') HK HN Hb ltac:(lia) L U)
    as (F0 & F1 & F2).
  split; [|split; [|split; [|split; [exact F0|split; [exact F1|exact F2]]]]].
  - intros t Ht Hle. now apply (whole_below K (a * n) b (scaled m' e') t).
  - intros t Ht Htb Hle.
    apply (whole_above K (a * n) b (scaled m' e') t); first [exact U | lia].
  - intros Hsmall. apply int_of_double_scaled; [exact R'|]. fold K. lia.
Qed.

(** The two outcomes of [getDisplayArea] on sizes below 2^24: the height
    fitted and the width scaled, or the other way round. *)
Lemma getDisplayArea_cases (s : Hal) :
  0 < win_w s < 2 ^ 24 -> 0 < win_h s < 2 ^ 24 ->
  0 < screenWidth s < 2 ^ 24 -> 0 < screenHeight s < 2 ^ 24 ->
  let winx := win_w s in
  let winy := win_h s in
  let sw := screenWidth s in
  let sh := screenHeight s in
  (exists m e w,
     getDisplayArea s
     = ({| r_x := Z.quot winx 2 - Z.quot w 2; r_y := 0; r_w := w; r_h := winy |},
        S754_finite false m e) /\
     winy * sw <= winx * sh /\
     (2 ^ 52 - 1) * (scaled m e * sh) <= 2 ^ 52 * (winy * 2 ^ 1074)
     <= (2 ^ 52 + 1) * (scaled m e * sh) /\
     0 <= w /\ winy * sw / sh - 1 <= w <= winy * sw / sh /\
     ((winy * sw) mod sh <> 0 -> w = winy * sw / sh)) \/
  (exists m e h,
     getDisplayArea s
     = ({| r_x := 0; r_y := Z.quot winy 2 - Z.quot h 2; r_w := winx; r_h := h |},
        S754_finite false m e) /\
     winx * sh <= winy * sw /\
     (2 ^ 52 - 1) * (scaled m e * sw) <= 2 ^ 52 * (winx * 2 ^ 1074)
     <= (2 ^ 52 + 1) * (scaled m e * sw) /\
     0 <= h /\ winx * sh / sw - 1 <= h <= winx * sh / sw /\
     ((winx * sh) mod sw <> 0 -> h = winx * sh / sw)).
Proof.
  intros Hwx Hwy Hsw Hsh winx winy sw sh.
  fold winx in Hwx. fold winy in Hwy. fold sw in Hsw. fold sh in Hsh.
  unfold getDisplayArea. fold winx winy sw sh.
  destruct (size_quotient winx sw Hwx Hsw) as (mx & ex & Ex & Bx & Rx & Qx).
  destruct (size_quotient winy sh Hwy Hsh) as (my & ey & Ey & By & Ry & Qy).
  destruct (scaled_size winx sw sh mx ex Hwx Hsw Hsh Ex)
    as (mp & ep & Ep & Bp & Pbelow & Pabove & Pint & P0 & P1 & P2).
  destruct (scaled_size winy sh sw my ey Hwy Hsh Hsw Ey)
    as (mq & eq & Eq & Bq & Qbelow & Qabove & Qint & Q0 & Q1 & Q2).
  assert (Hlt : 2 ^ 24 < 2 ^ 53) by reflexivity.
  destruct (double_of_int_scaled winy ltac:(lia)) as (mw & ew & Ew & Bw & Rw & Sw).
  rewrite Ex, Ey, Ep, Eq, Ew. rewrite (dgt_scaled mp mw ep ew Bp Bw), Sw.
  assert (Hbig : 2 ^ 24 * 2 ^ 24 < 2 ^ 49) by reflexivity.
  assert (H31 : 2 ^ 24 < 2 ^ 31) by reflexivity.
  destruct (Z.ltb_spec (winy * 2 ^ 1074) (scaled mp ep)) as [Hgt|Hle].
  - left. assert (Hbr : winy * sw <= winx * sh) by (apply Pbelow; lia).
    assert (Hq : winy * sw / sh <= winx) by (apply Z.div_le_upper_bound; lia).
    rewrite Qint by lia.
    exists my, ey, (scaled mq eq / 2 ^ 1074).
    split; [reflexivity|]. split; [exact Hbr|]. split; [exact Qy|].
    split; [exact Q0|]. split; [exact Q1 | exact Q2].
  - right.
    assert (Hbr : winx * sh <= winy * sw).
    { apply Pabove; [lia | | exact Hle]. change (2 ^ 24) with 16777216 in *.
      change (2 ^ 49) with 562949953421312. nia. }
    assert (Hq : winx * sh / sw <= winy) by (apply Z.div_le_upper_bound; lia).
    rewrite Pint by lia.
    exists mx, ex, (scaled mp ep / 2 ^ 1074).
    split; [reflexivity|]. split; [exact Hbr|]. split; [exact Qx|].
    split; [exact P0|]. split; [exact P1 | exact P2].
Qed.

(** The value of a positive [double] against a ratio of whole numbers. *)
Lemma double_value_near (m : positive) (e a b : Z) :
  0 < b ->
  (2 ^ 52 - 1) * (scaled m e * b) <= 2 ^ 52 * (a * 2 ^ 1074)
  <= (2 ^ 52 + 1) * (scaled m e * b) ->
  let v := double_value (S754_finite false m e) in
  (inject_Z (2 ^ 52 - 1) * v <= inject_Z (2 ^ 52) * (inject_Z a / inject_Z b))%Q /\
  (inject_Z (2 ^ 52) * (inject_Z a / inject_Z b) <= inject_Z (2 ^ 52 + 1) * v)%Q.
Proof.
  intros Hb [H1 H2]. cbv zeta. unfold double_value, scaled in *.
  assert (HK : 0 < 2 ^ 1074) by (apply Z.pow_pos_nonneg; lia).
  set (K := 2 ^ 1074) in *. set (X := Z.pos m * 2 ^ (e + 1074)) in *.
  set (c1 := 2 ^ 52 - 1) in *. set (c := 2 ^ 52) in *. set (c2 := 2 ^ 52 + 1) in *.
  clearbody c1 c c2 X.
  destruct K as [|k|k]; try lia. destruct b as [|p|p]; try lia.
  unfold Qle, Qdiv, Qmult, Qinv, inject_Z. cbn [Qnum Qden].
  rewrite !Pos.mul_1_l, !Z.mul_1_r. split; nia.
Qed.

Lemma spec_scale_fitted (winx winy sw sh : Z) :
  0 < sw -> 0 < sh ->
  (winy * sw <= winx * sh ->
   (spec_scale winx winy sw sh == inject_Z winy / inject_Z sh)%Q) /\
  (winx * sh <= winy * sw ->
   (spec_scale winx winy sw sh == inject_Z winx / inject_Z sw)%Q).
Proof.
  intros Hsw Hsh. unfold spec_scale. split; intros Hle.
  - apply Q.min_r. apply Qle_frac; lia.
  - apply Q.min_l. apply Qle_frac; lia.
Qed.

(** C1, as the code has it.  Take a window and a virtual display of
    positive sizes below 2^24.  The scale the code computes is the smaller
    of the two ratios window/virtual to within one part in 2^52, and is
    that ratio where no binary64 operation rounds.  The width and the
    height of the rectangle are the virtual size times the smaller ratio,
    truncated toward zero to whole pixels, or one pixel less; one pixel
    less only in a direction in which the product is a whole number, and
    never where no operation rounds.  The rectangle spans the window in
    one direction at least, exactly so; and it is placed at
    window/2 - size/2 (integer division) in each direction, inside the
    window, with margins that differ by one pixel at most.  A 640x480
    window on the 128x128 display gives scale 3.75 and the rectangle at
    (80,0) of size 480x480. *)
Theorem display_area_letterbox (s : Hal) :
  0 < win_w s < 2 ^ 24 -> 0 < win_h s < 2 ^ 24 ->
  0 < screenWidth s < 2 ^ 24 -> 0 < screenHeight s < 2 ^ 24 ->
  let r := fst (getDisplayArea s) in
  let v := double_value (snd (getDisplayArea s)) in
  let scale := spec_scale (win_w s) (win_h s) (screenWidth s) (screenHeight s) in
  let W := Exact.int_of_Q (scale * inject_Z (screenWidth s)) in
  let H := Exact.int_of_Q (scale * inject_Z (screenHeight s)) in
  ((inject_Z (2 ^ 52 - 1) * v <= inject_Z (2 ^ 52) * scale)%Q /\
   (inject_Z (2 ^ 52) * scale <= inject_Z (2 ^ 52 + 1) * v)%Q) /\
  (W - 1 <= r_w r <= W /\ H - 1 <= r_h r <= H) /\
  ((win_h s * screenWidth s) mod screenHeight s <> 0 -> r_w r = W) /\
  ((win_w s * screenHeight s) mod screenWidth s <> 0 -> r_h r = H) /\
  (r_w r = win_w s /\ (inject_Z (win_w s) == scale * inject_Z (screenWidth s))%Q \/
   r_h r = win_h s /\ (inject_Z (win_h s) == scale * inject_Z (screenHeight s))%Q) /\
  r_x r = Z.quot (win_w s) 2 - Z.quot (r_w r) 2 /\
  r_y r = Z.quot (win_h s) 2 - Z.quot (r_h r) 2 /\
  (0 <= r_w r /\ 0 <= r_x r /\ r_x r + r_w r <= win_w s) /\
  (0 <= r_h r /\ 0 <= r_y r /\ r_y r + r_h r <= win_h s) /\
  -1 <= (win_w s - (r_x r + r_w r)) - r_x r <= 1 /\
  -1 <= (win_h s - (r_y r + r_h r)) - r_y r <= 1 /\
  (unrounded s = true -> (v == scale)%Q /\ r_w r = W /\ r_h r = H) /\
  (win_w s = 640 -> win_h s = 480 -> screenWidth s = 128 -> screenHeight s = 128 ->
   r = {| r_x := 80; r_y := 0; r_w := 480; r_h := 480 |} /\ (v == 15 # 4)%Q).
Proof.
  intros Hwx Hwy Hsw Hsh. cbv zeta.
  assert (Hscn : win_w s = 640 -> win_h s = 480 ->
                 screenWidth s = 128 -> screenHeight s = 128 ->
                 fst (getDisplayArea s) = {| r_x := 80; r_y := 0; r_w := 480; r_h := 480 |} /\
                 (double_value (snd (getDisplayArea s)) == 15 # 4)%Q).
  { intros E1 E2 E3 E4. unfold getDisplayArea. rewrite E1, E2, E3, E4.
    split; reflexivity. }
  assert (Hexact : unrounded s = true ->
            (double_value (snd (getDisplayArea s))
             == spec_scale (win_w s) (win_h s) (screenWidth s) (screenHeight s))%Q /\
            r_w (fst (getDisplayArea s))
            = Exact.int_of_Q (spec_scale (win_w s) (win_h s) (screenWidth s)
                                (screenHeight s) * inject_Z (screenWidth s)) /\
            r_h (fst (getDisplayArea s))
            = Exact.int_of_Q (spec_scale (win_w s) (win_h s) (screenWidth s)
                                (screenHeight s) * inject_Z (screenHeight s))).
  { intros Hu.
    assert (H31 : 2 ^ 24 < 2 ^ 31) by reflexivity.
    destruct (getDisplayArea_unrounded s ltac:(lia) ltac:(lia) ltac:(lia) ltac:(lia) Hu)
      as [Hr Hs].
    destruct (exact_mapper_letterbox (win_w s) (win_h s) (screenWidth s)
                (screenHeight s)) as (E1 & E2 & E3 & _); try lia.
    rewrite Hr. split; [rewrite Hs; exact E1|].
    split; [rewrite E2 | rewrite E3]; apply int_of_Q_compat; rewrite E1; reflexivity. }
  assert (Hback : forall a b, 0 < b ->
            (inject_Z a == inject_Z a / inject_Z b * inject_Z b)%Q).
  { intros a b Hb. field. intros E. apply (inject_Z_injective b 0) in E. lia. }
  destruct (spec_scale_fitted (win_w s) (win_h s) (screenWidth s) (screenHeight s))
    as [Sy Sx]; [lia | lia |].
  set (scale := spec_scale (win_w s) (win_h s) (screenWidth s) (screenHeight s)) in *.
  destruct (getDisplayArea_cases s Hwx Hwy Hsw Hsh)
    as [(m & e & w & E & Hbr & Hrel & Hw0 & Hw & Hwmod)
       |(m & e & h & E & Hbr & Hrel & Hh0 & Hh & Hhmod)];
    cbv zeta in E; rewrite E in *; cbn [fst snd r_x r_y r_w r_h].
  - specialize (Sy Hbr).
    assert (EW : Exact.int_of_Q (scale * inject_Z (screenWidth s))
                 = win_h s * screenWidth s / screenHeight s).
    { rewrite (int_of_Q_compat _ (inject_Z (win_h s) / inject_Z (screenHeight s)
                                   * inject_Z (screenWidth s)))
        by (rewrite Sy; reflexivity).
      rewrite int_of_scaled by lia. apply Z.quot_div_nonneg; lia. }
    assert (EH : Exact.int_of_Q (scale * inject_Z (screenHeight s)) = win_h s).
    { rewrite (int_of_Q_compat _ (inject_Z (win_h s) / inject_Z (screenHeight s)
                                   * inject_Z (screenHeight s)))
        by (rewrite Sy; reflexivity).
      rewrite int_of_scaled by lia. apply Z.quot_mul; lia. }
    assert (Hq : win_h s * screenWidth s / screenHeight s <= win_w s)
      by (apply Z.div_le_upper_bound; lia).
    pose proof (quot_half_margins (win_w s) w ltac:(lia)) as Hm. cbv zeta in Hm.
    rewrite EW, EH.
    destruct (double_value_near m e (win_h s) (screenHeight s) ltac:(lia) Hrel)
      as [V1 V2]. cbv zeta in V1, V2.
    split; [split; [rewrite Sy; exact V1 | rewrite Sy; exact V2]|].
    split; [lia|]. split; [exact Hwmod|]. split; [reflexivity|].
    split; [right; split; [reflexivity | rewrite Sy; now apply Hback]|].
    split; [reflexivity|]. split; [now rewrite Z.sub_diag|].
    split; [lia|]. split; [lia|]. split; [lia|]. split; [lia|].
    split; [| exact Hscn].
    intros Hu. destruct (Hexact Hu) as (A & B & C).
    cbn [fst snd r_w r_h] in A, B, C. rewrite EW in B.
    split; [exact A | split; [exact B | reflexivity]].
  - specialize (Sx Hbr).
    assert (EW : Exact.int_of_Q (scale * inject_Z (screenWidth s)) = win_w s).
    { rewrite (int_of_Q_compat _ (inject_Z (win_w s) / inject_Z (screenWidth s)
                                   * inject_Z (screenWidth s)))
        by (rewrite Sx; reflexivity).
      rewrite int_of_scaled by lia. apply Z.quot_mul; lia. }
    assert (EH : Exact.int_of_Q (scale * inject_Z (screenHeight s))
                 = win_w s * screenHeight s / screenWidth s).
    { rewrite (int_of_Q_compat _ (inject_Z (win_w s) / inject_Z (screenWidth s)
                                   * inject_Z (screenHeight s)))
        by (rewrite Sx; reflexivity).
      rewrite int_of_scaled by lia. apply Z.quot_div_nonneg; lia. }
    assert (Hq : win_w s * screenHeight s / screenWidth s <= win_h s)
      by (apply Z.div_le_upper_bound; lia).
    pose proof (quot_half_margins (win_h s) h ltac:(lia)) as Hm. cbv zeta in Hm.
    rewrite EW, EH.
    destruct (double_value_near m e (win_w s) (screenWidth s) ltac:(lia) Hrel)
      as [V1 V2]. cbv zeta in V1, V2.
    split; [split; [rewrite Sx; exact V1 | rewrite Sx; exact V2]|].
    split; [lia|]. split; [reflexivity|]. split; [exact Hhmod|].
    split; [left; split; [reflexivity | rewrite Sx; now apply Hback]|].
    split; [now rewrite Z.sub_diag|]. split; [reflexivity|].
    split; [lia|]. split; [lia|]. split; [lia|]. split; [lia|].
    split; [| exact Hscn].
    intros Hu. destruct (Hexact Hu) as (A & B & C).
    cbn [fst snd r_w r_h] in A, B, C. rewrite EH in C.
    split; [exact A | split; [reflexivity | exact C]].
Qed.

Lemma display_area_letterbox_witness :
  (fst (getDisplayArea sample_hal) = {| r_x := 80; r_y := 0; r_w := 480; r_h := 480 |} /\
   (double_value (snd (getDisplayArea sample_hal)) == 15 # 4)%Q) /\
  (let s := GFX_SetBackBufferSize 128 96 (hal_init 200 100 128 128 []) in
   unrounded s = false /\
   r_w (fst (getDisplayArea s))
   = Exact.int_of_Q (spec_scale 200 100 128 96 * inject_Z 128)).
Proof.
  split.
  - destruct (display_area_letterbox sample_hal)
      as (_ & _ & _ & _ & _ & _ & _ & _ & _ & _ & _ & _ & Hscn);
      [cbn; lia | cbn; lia | cbn; lia | cbn; lia |].
    apply Hscn; reflexivity.
  - cbv zeta. split; [reflexivity|].
    destruct (display_area_letterbox
                (GFX_SetBackBufferSize 128 96 (hal_init 200 100 128 128 [])))
      as (_ & _ & Hw & _); [cbn; lia | cbn; lia | cbn; lia | cbn; lia |].
    apply Hw. vm_compute. discriminate.
Defined.

(** On the 128x128 display nothing rounds, whatever the window up to
    4096 pixels a side: the divisor is a power of two. *)
Lemma unrounded_128 (winx winy : Z) (evs : list SDL_Event) :
  1 <= winx <= 4096 -> 1 <= winy <= 4096 ->
  unrounded (hal_init winx winy 128 128 evs) = true.
Proof.
  intros Hx Hy.
  assert (Hall : forallb (fun n => unrounded (hal_init (Z.of_nat n) (Z.of_nat n) 128 128 []))
                         (seq 1 4096) = true) by (vm_compute; reflexivity).
  rewrite forallb_forall in Hall.
  assert (Hn : forall n, 1 <= n <= 4096 -> unrounded (hal_init n n 128 128 []) = true).
  { intros n Hn. rewrite <- (Z2Nat.id n) by lia. apply Hall.
    apply in_seq. lia. }
  pose proof (Hn winx Hx) as Hwx. pose proof (Hn winy Hy) as Hwy.
  unfold unrounded in *. cbn [win_w win_h screenWidth screenHeight hal_init] in *.
  apply andb_prop in Hwx as [Hwx X4]. apply andb_prop in Hwx as [Hwx X3].
  apply andb_prop in Hwx as [Hwx X2]. apply andb_prop in Hwx as [X0 X1].
  apply andb_prop in Hwy as [Hwy Y4]. apply andb_prop in Hwy as [Hwy Y3].
  apply andb_prop in Hwy as [Hwy Y2]. apply andb_prop in Hwy as [Y0 Y1].
  rewrite Y0, X1, Y2, X3, Y4. reflexivity.
Qed.

(** Two sizes on which the rectangle is not the virtual size times the
    scale.  A 200x100 window on a 128x96 display: the scale is 100/96 and
    the width 133, the product being 133 and a third.  A 435x435 window on
    a 100x100 display: the scale is 4.35 and the product 435, but the
    binary64 quotient lies below 4.35, its product with 100 rounds to
    434.99999999999994 and the height is 434. *)
Lemma display_area_size_counterexample :
  (let s := GFX_SetBackBufferSize 128 96 (hal_init 200 100 128 128 []) in
   fst (getDisplayArea s) = {| r_x := 34; r_y := 0; r_w := 133; r_h := 100 |} /\
   (spec_scale 200 100 128 96 * inject_Z 128 == 400 # 3)%Q /\
   ~ (inject_Z 133 == 400 # 3)%Q) /\
  (let s := GFX_SetBackBufferSize 100 100 (hal_init 435 435 128 128 []) in
   fst (getDisplayArea s) = {| r_x := 0; r_y := 0; r_w := 435; r_h := 434 |} /\
   (spec_scale 435 435 100 100 * inject_Z 100 == inject_Z 435)%Q /\
   (double_value (snd (getDisplayArea s)) < 435 # 100)%Q /\
   (double_value (dmul (snd (getDisplayArea s)) (double_of_int 100)) < inject_Z 435)%Q /\
   unrounded s = false).
Proof.
  cbv zeta. split.
  - split; [reflexivity|]. split; [reflexivity|]. intros E. discriminate E.
  - repeat split.
Qed.

(** ** Palette table *)

Section PaletteFacts.
Variable M : Z -> Z -> Z -> pixel_t.
Variable registry : string -> PaletteInfo.

Lemma u8_index (i : Z) : (Z.to_nat (to_u8 i) < 256)%nat.
Proof. pose proof (to_u8_range i). lia. Qed.

Lemma apply_op_original (s : Hal) (op : PaletteOp) :
  original_palette (apply_op M s op) = original_palette s.
Proof. destruct op; reflexivity. Qed.

Lemma apply_op_palettes_ok (s : Hal) (op : PaletteOp) :
  palettes_ok s -> palettes_ok (apply_op M s op).
Proof.
  intros (Hp & Ho). unfold palettes_ok.
  destruct op; cbn; rewrite ?length_insert; auto.
Qed.

Lemma apply_ops_original (ops : list PaletteOp) (s : Hal) :
  original_palette (foldl (apply_op M) s ops) = original_palette s.
Proof.
  revert s. induction ops as [|op ops IH]; intros s; cbn; [reflexivity|].
  now rewrite IH, apply_op_original.
Qed.

Lemma apply_ops_palettes_ok (ops : list PaletteOp) (s : Hal) :
  palettes_ok s -> palettes_ok (foldl (apply_op M) s ops).
Proof.
  revert s. induction ops as [|op ops IH]; intros s Hok; cbn; [exact Hok|].
  apply IH. now apply apply_op_palettes_ok.
Qed.

Lemma select_entries (info : PaletteInfo) (n : nat) (s : Hal) :
  palettes_ok s -> (n <= 256)%nat ->
  let s' := foldl (select_entry M info) s (seq 0 n) in
  palettes_ok s' /\
  forall i, (i < n)%nat ->
    palette s' !! i = Some (entry_pixel M info i) /\
    original_palette s' !! i = Some (entry_pixel M info i).
Proof.
  intros Hok. induction n as [|n IH]; intros Hn; cbv zeta.
  - split; [exact Hok|]. intros i Hi. lia.
  - rewrite seq_S, foldl_app. cbn [foldl].
    destruct IH as ((Hp & Ho) & IH); [lia|].
    set (s1 := foldl (select_entry M info) s (seq 0 n)) in *.
    split.
    + unfold palettes_ok, select_entry. cbn. now rewrite !length_insert.
    + intros i Hi. unfold select_entry. cbn.
      destruct (decide (i = n)) as [-> | Hne].
      * rewrite !list_lookup_insert_eq by lia. split; reflexivity.
      * rewrite !list_lookup_insert_ne by congruence. apply IH. lia.
Qed.

Lemma GFX_SelectPalette_palettes (name : string) (s s1 : Hal) :
  palettes_ok s -> GFX_SelectPalette M registry name s = Some s1 ->
  palettes_ok s1 /\
  forall i, (i < pal_size (registry name))%nat ->
    palette s1 !! i = Some (entry_pixel M (registry name) i) /\
    original_palette s1 !! i = Some (entry_pixel M (registry name) i).
Proof.
  intros Hok. unfold GFX_SelectPalette.
  destruct (256 <? pal_size (registry name))%nat eqn:E; [discriminate|].
  intros [= <-]. apply select_entries; [exact Hok|].
  apply Nat.ltb_ge in E. exact E.
Qed.

(** C9.  After a palette was selected, whatever sequence of set-index,
    restore-index and restore-all calls follows, the original palette is
    the one of selection time.  [GFX_SetPaletteIndex(i, r, g, b)] writes
    entry [i] of the working palette and nothing else, in either palette;
    [GFX_RestorePaletteIndex(i)] makes working entry [i] equal to original
    entry [i] of selection time and touches no other entry.  Selecting,
    then setting index 3 to (10,20,30), then restoring index 3 leaves
    working entry 3 equal to original entry 3, which for a table of more
    than three colours is the entry the selection wrote. *)
Theorem palette_override_and_restore (name : string) (s0 s1 : Hal)
        (ops : list PaletteOp) (i : Z) :
  palettes_ok s0 ->
  GFX_SelectPalette M registry name s0 = Some s1 ->
  let s2 := foldl (apply_op M) s1 ops in
  let n := Z.to_nat (to_u8 i) in
  original_palette s2 = original_palette s1 /\
  (forall r g b,
     let s3 := GFX_SetPaletteIndex M i r g b s2 in
     original_palette s3 = original_palette s2 /\
     palette s3 !! n = Some (GFX_GetPixel M (to_u8 r) (to_u8 g) (to_u8 b)) /\
     (forall j, j <> n -> palette s3 !! j = palette s2 !! j)) /\
  (let s3 := GFX_RestorePaletteIndex i s2 in
   original_palette s3 = original_palette s1 /\
   palette s3 !! n = original_palette s1 !! n /\
   is_Some (palette s3 !! n) /\
   (forall j, j <> n -> palette s3 !! j = palette s2 !! j)) /\
  (let s3 := GFX_RestorePaletteIndex 3 (GFX_SetPaletteIndex M 3 10 20 30 s1) in
   palette s3 !! 3%nat = original_palette s1 !! 3%nat /\
   ((3 < pal_size (registry name))%nat ->
    palette s3 !! 3%nat = palette s1 !! 3%nat /\
    palette s3 !! 3%nat = Some (entry_pixel M (registry name) 3))).
Proof.
  intros Hok0 Hsel. cbv zeta.
  destruct (GFX_SelectPalette_palettes name s0 s1 Hok0 Hsel) as (Hok1 & Hent).
  pose proof (apply_ops_palettes_ok ops s1 Hok1) as (Hp2 & Ho2).
  pose proof (apply_ops_original ops s1) as Horig.
  pose proof (u8_index i) as Hi.
  set (s2 := foldl (apply_op M) s1 ops) in *.
  split; [exact Horig|]. split; [|split].
  - intros r g b. split; [reflexivity|]. cbn. split.
    + apply list_lookup_insert_eq. lia.
    + intros j Hj. apply list_lookup_insert_ne. congruence.
  - split; [exact Horig|]. cbn. rewrite list_lookup_insert_eq by lia.
    rewrite Horig at 1.
    destruct (lookup_lt_is_Some_2 (original_palette s1) (Z.to_nat (to_u8 i)))
      as [x Hx]; [destruct Hok1; lia|].
    rewrite (list_lookup_total_correct _ _ _ Hx).
    split; [symmetry; exact Hx|]. split; [eauto|].
    intros j Hj. apply list_lookup_insert_ne. congruence.
  - destruct Hok1 as (Hp1 & Ho1).
    cbn. change (Z.to_nat (to_u8 3)) with 3%nat.
    rewrite !list_lookup_insert_eq by (rewrite ?length_insert; lia).
    destruct (lookup_lt_is_Some_2 (original_palette s1) 3) as [x Hx]; [lia|].
    rewrite (list_lookup_total_correct _ _ _ Hx).
    split; [symmetry; exact Hx|].
    intros H3. destruct (Hent 3%nat H3) as (Ep & Eo).
    rewrite Ep. rewrite Eo in Hx. injection Hx as <-. split; reflexivity.
Qed.
End PaletteFacts.

Lemma palette_override_and_restore_witness :
  exists s1,
    GFX_SelectPalette rgb565 sample_registry "pico8" sample_hal = Some s1 /\
    palette (GFX_RestorePaletteIndex 3 (GFX_SetPaletteIndex rgb565 3 10 20 30 s1))
      !! 3%nat = original_palette s1 !! 3%nat.
Proof.
  destruct (GFX_SelectPalette rgb565 sample_registry "pico8" sample_hal)
    as [s1|] eqn:E; [|discriminate].
  exists s1. split; [reflexivity|].
  destruct (palette_override_and_restore rgb565 sample_registry "pico8"
              sample_hal s1 [] 3 (conj eq_refl eq_refl) E)
    as (_ & _ & _ & Hscn & _).
  exact Hscn.
Defined.

(** ** Framebuffer compositor *)

Section CompositorFacts.
Variable sizeof_pixel_t : Z.
Variable buffer : Z -> Z.
Variable pal : list pixel_t.

Lemma copy_row_pairs (fuel : nat) (po bo w x : Z) (m : Surface) :
  (Z.to_nat ((w - x + 1) / 2) <= fuel)%nat ->
  copy_row buffer pal fuel po bo w x m
  = copy_pairs buffer pal (Z.to_nat ((w - x + 1) / 2)) po bo x m.
Proof.
  revert x m. induction fuel as [|fuel IH]; intros x m Hf.
  - replace (Z.to_nat ((w - x + 1) / 2)) with 0%nat by lia. reflexivity.
  - cbn [copy_row]. destruct (Z.ltb_spec x w) as [Hlt | Hge].
    + assert (E : Z.to_nat ((w - x + 1) / 2)
                  = S (Z.to_nat ((w - (x + 1 + 1) + 1) / 2))).
      { replace (w - x + 1) with ((w - (x + 1 + 1) + 1) + 1 * 2) by lia.
        rewrite Z.div_add by lia.
        assert (0 <= (w - (x + 1 + 1) + 1) / 2) by (apply Z.div_pos; lia).
        lia. }
      rewrite E. cbn [copy_pairs]. rewrite IH by lia.
      replace (x + 1 + 1) with (x + 2) by lia. reflexivity.
    + replace (Z.to_nat ((w - x + 1) / 2)) with 0%nat; [reflexivity|].
      assert ((w - x + 1) / 2 <= 0); [|lia].
      apply Z.lt_succ_r, Z.div_lt_upper_bound; lia.
Qed.

(** The fuel given to the inner loop is enough. *)
Lemma copy_row_covered (po bo w : Z) (m : Surface) :
  copy_row buffer pal (Z.to_nat w) po bo w 0 m
  = copy_pairs buffer pal (Z.to_nat ((w + 1) / 2)) po bo 0 m.
Proof.
  rewrite copy_row_pairs; rewrite Z.sub_0_r; [reflexivity|].
  destruct (Z_lt_le_dec w 1) as [Hlt | Hge].
  - assert ((w + 1) / 2 <= 0); [|lia].
    apply Z.lt_succ_r, Z.div_lt_upper_bound; lia.
  - apply Z2Nat.inj_le; [apply Z.div_pos; lia | lia |].
    apply Z.div_le_upper_bound; lia.
Qed.

Lemma copy_pairs_mem (n : nat) (po bo x : Z) (m : Surface) (a : Z) :
  pixels_mem (copy_pairs buffer pal n po bo x m) a =
  if (po + x <=? a) && (a <? po + x + 2 * Z.of_nat n)
  then source_pixel buffer pal (bo + (a - po)) else pixels_mem m a.
Proof.
  revert x m. induction n as [|n IH]; intros x m.
  - cbn [copy_pairs].
    destruct (Z.leb_spec (po + x) a), (Z.ltb_spec a (po + x + 2 * Z.of_nat 0));
      cbn; try reflexivity; lia.
  - cbn [copy_pairs]. rewrite IH. cbn [pixels_mem copy_pixel].
    destruct (Z.leb_spec (po + (x + 2)) a),
             (Z.ltb_spec a (po + (x + 2) + 2 * Z.of_nat n)),
             (Z.leb_spec (po + x) a),
             (Z.ltb_spec a (po + x + 2 * Z.of_nat (S n)));
      cbn; try reflexivity; try lia.
    all: destruct (Z.eqb_spec a (po + (x + 1))) as [E1 | N1];
      [first [lia | replace (bo + (a - po)) with (bo + (x + 1)) by lia; reflexivity]|].
    all: destruct (Z.eqb_spec a (po + x)) as [E2 | N2];
      [first [lia | replace (bo + (a - po)) with (bo + x) by lia; reflexivity]|].
    all: first [reflexivity | lia].
Qed.

Lemma copy_pairs_reads (n : nat) (po bo x : Z) (m : Surface) (o : Z) :
  In o (src_reads (copy_pairs buffer pal n po bo x m)) <->
  In o (src_reads m) \/ bo + x <= o < bo + x + 2 * Z.of_nat n.
Proof.
  revert x m. induction n as [|n IH]; intros x m.
  - cbn [copy_pairs]. split; [auto | intros [Hin | Hr]; [exact Hin | lia]].
  - cbn [copy_pairs]. rewrite IH. cbn [src_reads copy_pixel In].
    split; [intros [[E | [E | Hin]] | Hr] | intros [Hin | Hr]]; auto; try lia.
Qed.

Lemma copy_pairs_writes (n : nat) (po bo x : Z) (m : Surface) (d : Z) :
  In d (dst_writes (copy_pairs buffer pal n po bo x m)) <->
  In d (dst_writes m) \/ po + x <= d < po + x + 2 * Z.of_nat n.
Proof.
  revert x m. induction n as [|n IH]; intros x m.
  - cbn [copy_pairs]. split; [auto | intros [Hin | Hr]; [exact Hin | lia]].
  - cbn [copy_pairs]. rewrite IH. cbn [dst_writes copy_pixel In].
    split; [intros [[E | [E | Hin]] | Hr] | intros [Hin | Hr]]; auto; try lia.
Qed.

Lemma covered_nat (w : Z) : 0 <= w -> 2 * Z.of_nat (Z.to_nat ((w + 1) / 2)) = covered w.
Proof.
  intros Hw. unfold covered. rewrite Z2Nat.id; [reflexivity|].
  apply Z.div_pos; lia.
Qed.

Lemma covered_even (w : Z) : Z.even w = true -> covered w = w.
Proof.
  intros He. unfold covered. apply Zeven_bool_iff, Zeven_ex_iff in He as [k ->].
  pose proof (Z.div_mod (2 * k + 1) 2). pose proof (Z.mod_pos_bound (2 * k + 1) 2).
  lia.
Qed.

Lemma covered_odd (w : Z) : Z.odd w = true -> covered w = w + 1.
Proof.
  intros Ho. unfold covered. apply Zodd_bool_iff, Zodd_ex_iff in Ho as [k ->].
  pose proof (Z.div_mod (2 * k + 1 + 1) 2).
  pose proof (Z.mod_pos_bound (2 * k + 1 + 1) 2).
  lia.
Qed.

(** The source offsets read by [rows] rows: in row [r], the [covered w]
    offsets from [r * w] on. *)
Lemma copy_rows_reads (rows : nat) (pitch po bo w : Z) (m : Surface) (o : Z) :
  0 <= w ->
  In o (src_reads (copy_rows sizeof_pixel_t buffer pal rows pitch po bo w m)) <->
  In o (src_reads m) \/
  exists r, 0 <= r < Z.of_nat rows /\ bo + r * w <= o < bo + r * w + covered w.
Proof.
  intros Hw. revert po bo m. induction rows as [|rows IH]; intros po bo m.
  - cbn [copy_rows]. split; [auto | intros [Hin | (r & Hr & _)]; [exact Hin | lia]].
  - cbn [copy_rows]. rewrite IH, copy_row_covered, copy_pairs_reads, covered_nat
      by exact Hw.
    split.
    + intros [[Hin | Hr] | (r & Hr & Ho)]; [auto | |].
      * right. exists 0. lia.
      * right. exists (r + 1). lia.
    + intros [Hin | (r & Hr & Ho)]; [auto|].
      destruct (Z.eq_dec r 0) as [-> | Hr0]; [left; right; lia|].
      right. exists (r - 1). lia.
Qed.

Lemma copy_rows_writes (rows : nat) (pitch po bo w : Z) (m : Surface) (d : Z) :
  0 <= w ->
  let pp := Z.quot pitch sizeof_pixel_t in
  In d (dst_writes (copy_rows sizeof_pixel_t buffer pal rows pitch po bo w m)) <->
  In d (dst_writes m) \/
  exists r, 0 <= r < Z.of_nat rows /\ po + r * pp <= d < po + r * pp + covered w.
Proof.
  intros Hw pp. revert po bo m. induction rows as [|rows IH]; intros po bo m.
  - cbn [copy_rows]. split; [auto | intros [Hin | (r & Hr & _)]; [exact Hin | lia]].
  - cbn [copy_rows]. rewrite IH, copy_row_covered, copy_pairs_writes, covered_nat
      by exact Hw.
    fold pp. split.
    + intros [[Hin | Hr] | (r & Hr & Ho)]; [auto | |].
      * right. exists 0. lia.
      * right. exists (r + 1). lia.
    + intros [Hin | (r & Hr & Ho)]; [auto|].
      destruct (Z.eq_dec r 0) as [-> | Hr0]; [left; right; lia|].
      right. exists (r - 1). lia.
Qed.

(** The destination after [rows] rows whose covered columns fit in the
    stride. *)
Lemma copy_rows_mem (rows : nat) (pitch po bo w : Z) (m : Surface) :
  0 <= w ->
  let pp := Z.quot pitch sizeof_pixel_t in
  covered w <= pp ->
  let m' := copy_rows sizeof_pixel_t buffer pal rows pitch po bo w m in
  (forall r c, 0 <= r < Z.of_nat rows -> 0 <= c < covered w ->
     pixels_mem m' (po + r * pp + c) = source_pixel buffer pal (bo + r * w + c)) /\
  (forall a, (forall r, 0 <= r < Z.of_nat rows ->
                        ~ (po + r * pp <= a < po + r * pp + covered w)) ->
     pixels_mem m' a = pixels_mem m a).
Proof.
  intros Hw pp Hpp. revert po bo m.
  induction rows as [|rows IH]; intros po bo m; cbv zeta.
  - cbn [copy_rows]. split; [intros r c Hr; lia | reflexivity].
  - cbn [copy_rows]. fold pp.
    specialize (IH (po + pp) (bo + w)
                   (copy_row buffer pal (Z.to_nat w) po bo w 0 m)).
    cbv zeta in IH. destruct IH as (IHin & IHout).
    split.
    + intros r c Hr Hc.
      destruct (Z.eq_dec r 0) as [-> | Hr0].
      * rewrite IHout by (intros r Hr'; nia).
        rewrite copy_row_covered, copy_pairs_mem, covered_nat by exact Hw.
        destruct (Z.leb_spec (po + 0) (po + 0 * pp + c)); [|lia].
        destruct (Z.ltb_spec (po + 0 * pp + c) (po + 0 + covered w)); [|lia].
        cbn. f_equal. lia.
      * replace (po + r * pp + c) with (po + pp + (r - 1) * pp + c) by lia.
        rewrite IHin by lia. f_equal. lia.
    + intros a Ha.
      rewrite IHout.
      * rewrite copy_row_covered, copy_pairs_mem, covered_nat by exact Hw.
        specialize (Ha 0 ltac:(lia)).
        destruct (Z.leb_spec (po + 0) a), (Z.ltb_spec a (po + 0 + covered w));
          cbn; try reflexivity. lia.
      * intros r Hr Hin. apply (Ha (r + 1)); lia.
Qed.
End CompositorFacts.

(** X18: the part of the copy that holds: for an even width that fits in
    the stride, [GFX_CopyBackBuffer] writes to every pixel of the [w]
    columns and [h] rows the palette entry of its source byte, rows being
    [pitch / sizeof(pixel_t)] pixels apart, and reads and writes nothing
    outside them. *)
Lemma GFX_CopyBackBuffer_even_width (sizeof_pixel_t : Z) (buffer : Z -> Z)
      (pal : list pixel_t) (res pitch w h : Z) (m : Surface) :
  0 <= res -> 0 < w -> 0 < h -> Z.even w = true ->
  let pp := Z.quot pitch sizeof_pixel_t in
  w <= pp ->
  exists m',
    GFX_CopyBackBuffer sizeof_pixel_t buffer pal res pitch w h m = Ok m' /\
    (forall x y, 0 <= x < w -> 0 <= y < h ->
       pixels_mem m' (y * pp + x) = source_pixel buffer pal (y * w + x)) /\
    (forall o, In o (src_reads m') ->
       In o (src_reads m) \/ exists x y, 0 <= x < w /\ 0 <= y < h /\ o = y * w + x) /\
    (forall d, In d (dst_writes m') ->
       In d (dst_writes m) \/ exists x y, 0 <= x < w /\ 0 <= y < h /\ d = y * pp + x) /\
    (forall a, (forall x y, 0 <= x < w -> 0 <= y < h -> a <> y * pp + x) ->
       pixels_mem m' a = pixels_mem m a).
Proof.
  intros Hres Hw Hh He pp Hpp. unfold GFX_CopyBackBuffer.
  destruct (Z.ltb_spec res 0) as [Hneg | _]; [lia|].
  eexists. split; [reflexivity|].
  pose proof (covered_even w He) as Hc.
  destruct (copy_rows_mem sizeof_pixel_t buffer pal (Z.to_nat h) pitch 0 0 w m)
    as (Hin & Hout); [lia | fold pp; lia |].
  fold pp in Hin, Hout. rewrite Hc in Hin, Hout.
  split; [|split; [|split]].
  - intros x y Hx Hy. specialize (Hin y x ltac:(lia) ltac:(lia)).
    rewrite !Z.add_0_l in Hin. exact Hin.
  - intros o Ho. apply copy_rows_reads in Ho; [|lia].
    destruct Ho as [Ho | (r & Hr & Ho)]; [auto|].
    right. exists (o - r * w), r. lia.
  - intros d Hd. apply copy_rows_writes in Hd; [|lia]. fold pp in Hd.
    destruct Hd as [Hd | (r & Hr & Hd)]; [auto|].
    right. exists (d - r * pp), r. lia.
  - intros a Ha. apply Hout. intros r Hr Hin'.
    apply (Ha (a - r * pp) r); lia.
Qed.

Lemma GFX_CopyBackBuffer_even_width_witness :
  exists m',
    GFX_CopyBackBuffer 2 (fun o => o) (palette sample_hal) 0 8 2 1 sample_surface = Ok m' /\
    pixels_mem m' 1 = source_pixel (fun o => o) (palette sample_hal) 1.
Proof.
  destruct (GFX_CopyBackBuffer_even_width 2 (fun o => o) (palette sample_hal)
              0 8 2 1 sample_surface) as (m' & E & Hpix & _);
    [lia | lia | lia | reflexivity | vm_compute; discriminate |].
  exists m'. split; [exact E|]. apply (Hpix 1 0); lia.
Defined.

(** C8, for an odd width.  With [w = 2k+1] columns and [h = j+1] rows the
    last turn of the inner loop copies column [w] as well: on the last row
    it reads the source byte at offset [h * w], one past the [w * h] bytes
    of the buffer, and writes the destination pixel in column [w].  For a
    1x1 buffer the offsets read are 0 and 1, and so are those written. *)
Theorem GFX_CopyBackBuffer_odd_width_overrun (sizeof_pixel_t : Z)
        (buffer : Z -> Z) (pal : list pixel_t) (pitch : Z) (k j : nat) (m : Surface) :
  let w := 2 * Z.of_nat k + 1 in
  let h := Z.of_nat j + 1 in
  (exists m',
     GFX_CopyBackBuffer sizeof_pixel_t buffer pal 0 pitch w h m = Ok m' /\
     In (h * w) (src_reads m') /\
     In ((h - 1) * Z.quot pitch sizeof_pixel_t + w) (dst_writes m')) /\
  (forall m1,
     GFX_CopyBackBuffer sizeof_pixel_t buffer pal 0 pitch 1 1
       {| pixels_mem := pixels_mem m; src_reads := []; dst_writes := [] |} = Ok m1 ->
     src_reads m1 = [1; 0] /\ dst_writes m1 = [1; 0] /\
     pixels_mem m1 1 = source_pixel buffer pal 1).
Proof.
  intros w h. split.
  - unfold GFX_CopyBackBuffer. cbn [Z.ltb Z.compare].
    eexists. split; [reflexivity|].
    assert (Hodd : Z.odd w = true).
    { apply Zodd_bool_iff, Zodd_ex_iff. exists (Z.of_nat k). reflexivity. }
    pose proof (covered_odd w Hodd) as Hc.
    split.
    + apply copy_rows_reads; [lia|]. right. exists (h - 1). lia.
    + apply copy_rows_writes; [lia|]. right. exists (h - 1). lia.
  - intros m1 [= <-]. repeat split.
Qed.

(** ** More bit-level facts *)

Lemma set_state_bit_high (state bit : Z) (condition value : bool) (i : Z) :
  0 <= bit -> 0 <= i ->
  Z.testbit (set_state_bit state bit condition value) i =
  if condition
  then (i <? 8) && (if bit =? i then value else Z.testbit state i)
  else Z.testbit state i.
Proof.
  intros Hb Hi. unfold set_state_bit.
  destruct condition; [|reflexivity].
  destruct value; rewrite to_u8_testbit.
  - rewrite Z.lor_spec, shiftl_1_testbit by lia.
    destruct (bit =? i); [now rewrite orb_true_r | now rewrite orb_false_r].
  - rewrite Z.land_spec, Z.lnot_spec, shiftl_1_testbit by lia.
    destruct (bit =? i); cbn; [now rewrite andb_false_r | now rewrite andb_true_r].
Qed.

Lemma below_pow2 (z k : Z) :
  0 <= z -> 0 <= k -> (forall i, k <= i -> Z.testbit z i = false) -> z < 2 ^ k.
Proof.
  intros Hz Hk Hbits.
  destruct (Z.eq_dec z 0) as [->|Hnz]; [apply Z.pow_pos_nonneg; lia|].
  destruct (Z.lt_ge_cases z (2 ^ k)) as [|Hge]; [assumption|exfalso].
  assert (Hlog : k <= Z.log2 z) by (apply Z.log2_le_pow2; lia).
  specialize (Hbits _ Hlog). rewrite Z.bit_log2 in Hbits by lia. discriminate.
Qed.

Lemma testbit_above (z k i : Z) :
  0 <= z < 2 ^ k -> k <= i -> Z.testbit z i = false.
Proof.
  intros Hz Hi.
  destruct (Z.eq_dec z 0) as [->|Hnz]; [apply Z.bits_0|].
  apply Z.bits_above_log2; [lia|].
  assert (Z.log2 z < k) by (apply Z.log2_lt_pow2; lia). lia.
Qed.

Lemma hat_bits_testbit (hatval h i : Z) :
  0 <= i ->
  Z.testbit (hat_bits hatval h) i =
  if i =? 0 then Z.testbit hatval 3
  else if i =? 1 then Z.testbit hatval 1
  else if i =? 2 then Z.testbit hatval 0
  else if i =? 3 then Z.testbit hatval 2
  else (i <? 8) && Z.testbit h i.
Proof.
  intros Hi. unfold hat_bits.
  rewrite !set_state_bit_high by lia.
  change SDL_HAT_LEFT with (Z.shiftl 1 3). change SDL_HAT_RIGHT with (Z.shiftl 1 1).
  change SDL_HAT_UP with (Z.shiftl 1 0). change SDL_HAT_DOWN with (Z.shiftl 1 2).
  rewrite !bit_truthy by lia.
  destruct (Z.eqb_spec 3 i), (Z.eqb_spec 2 i), (Z.eqb_spec 1 i), (Z.eqb_spec 0 i),
    (Z.eqb_spec i 0), (Z.eqb_spec i 1), (Z.eqb_spec i 2), (Z.eqb_spec i 3); try lia;
    destruct (Z.ltb_spec i 8); try lia; cbn; try reflexivity;
    repeat rewrite andb_true_r; try reflexivity.
Qed.

Lemma button_bits_testbit (button state j i : Z) :
  0 <= i < 8 ->
  Z.testbit (button_bits button state j) i =
  if (button =? 1) && (i =? 4) then truthy state
  else if (button =? 0) && (i =? 5) then truthy state
  else if (button =? 7) && (i =? 6) then truthy state
  else Z.testbit j i.
Proof.
  intros Hi. unfold button_bits.
  rewrite !set_state_bit_testbit by lia.
  destruct (Z.eqb_spec button 1), (Z.eqb_spec button 0), (Z.eqb_spec button 7); try lia;
    cbn [andb]; bit_cases i; reflexivity.
Qed.


(** ** Ranges of the masks *)

Lemma set_state_bit_keeps_clear (state bit : Z) (condition value : bool) (i : Z) :
  0 <= bit -> 0 <= i -> bit <> i -> Z.testbit state i = false ->
  Z.testbit (set_state_bit state bit condition value) i = false.
Proof.
  intros Hb Hi Hne Hs. rewrite set_state_bit_high by lia.
  destruct condition; [|assumption].
  destruct (Z.eqb_spec bit i); [lia|]. rewrite Hs. apply andb_false_r.
Qed.

Lemma key_bits_range (sym : Z) (down : bool) (k : Z) :
  0 <= k < 256 -> 0 <= key_bits sym down k < 256.
Proof. intros Hk. unfold key_bits. now repeat apply set_state_bit_range. Qed.

Lemma axis_bits_range (axis value j : Z) :
  0 <= j < 128 -> 0 <= axis_bits axis value j < 128.
Proof.
  intros Hj. split.
  - unfold axis_bits. apply set_state_bit_range. repeat apply set_state_bit_range. lia.
  - apply (below_pow2 _ 7); [|lia|].
    + unfold axis_bits. apply set_state_bit_range. repeat apply set_state_bit_range. lia.
    + intros i Hi. unfold axis_bits.
      repeat (apply set_state_bit_keeps_clear; [lia | lia | lia |]).
      apply (testbit_above _ 7); lia.
Qed.

Lemma button_bits_range (button state j : Z) :
  0 <= j < 128 -> 0 <= button_bits button state j < 128.
Proof.
  intros Hj. split.
  - unfold button_bits. apply set_state_bit_range. repeat apply set_state_bit_range. lia.
  - apply (below_pow2 _ 7); [|lia|].
    + unfold button_bits. apply set_state_bit_range. repeat apply set_state_bit_range. lia.
    + intros i Hi. unfold button_bits.
      repeat (apply set_state_bit_keeps_clear; [lia | lia | lia |]).
      apply (testbit_above _ 7); lia.
Qed.

Lemma hat_bits_range (hatval h : Z) : 0 <= h < 256 -> 0 <= hat_bits hatval h < 256.
Proof. intros Hh. unfold hat_bits. now repeat apply set_state_bit_range. Qed.

Lemma hat_bits_low (hatval h : Z) : 0 <= h < 16 -> 0 <= hat_bits hatval h < 16.
Proof.
  intros Hh. split; [apply hat_bits_range; lia|].
  apply (below_pow2 _ 4); [apply hat_bits_range; lia | lia |].
  intros i Hi. rewrite hat_bits_testbit by lia.
  destruct (Z.eqb_spec i 0), (Z.eqb_spec i 1), (Z.eqb_spec i 2), (Z.eqb_spec i 3);
    try lia.
  rewrite (testbit_above h 4) by lia. apply andb_false_r.
Qed.

Lemma axis_bits_exclusive (axis value j : Z) :
  Z.testbit j 0 && Z.testbit j 1 = false ->
  Z.testbit j 2 && Z.testbit j 3 = false ->
  Z.testbit (axis_bits axis value j) 0 && Z.testbit (axis_bits axis value j) 1 = false /\
  Z.testbit (axis_bits axis value j) 2 && Z.testbit (axis_bits axis value j) 3 = false.
Proof.
  intros H01 H23. rewrite !axis_bits_testbit by lia.
  destruct (Z.eqb_spec axis 0), (Z.eqb_spec axis 1); try lia; cbn [andb Z.eqb];
    split; try assumption;
    rewrite Z.gtb_ltb; destruct (Z.ltb_spec value (-1500)), (Z.ltb_spec 1500 value);
    try reflexivity; lia.
Qed.

Lemma masks_ok_init (winx winy w h : Z) (evs : list SDL_Event) :
  masks_ok (hal_init winx winy w h evs).
Proof. unfold masks_ok; cbn. repeat split; lia. Qed.

Section Invariant.
Context `{TouchFlags}.

Lemma handle_masks_ok (ev : SDL_Event) (s s' : Hal) :
  handle ev s = Some s' -> masks_ok s -> masks_ok s'.
Proof.
  unfold handle, masks_ok. intros Hh (Hk & Hj & Hh' & Hs & H01 & H23).
  destruct ev as [|t sym kmod|y|axis value|hatval|t button state|tf|]; cbn in Hh.
  - injection Hh as <-. auto 10.
  - repeat match type of Hh with
           | context [if ?c then _ else _] => destruct c
           end; injection Hh as <-; cbn;
      pose proof (key_bits_range sym (is_keydown t) _ Hk); auto 10.
  - injection Hh as <-. cbn. auto 10.
  - injection Hh as <-. cbn.
    destruct (axis_bits_exclusive axis value (joyState s) H01 H23).
    pose proof (axis_bits_range axis value _ Hj). auto 10.
  - injection Hh as <-. cbn. pose proof (hat_bits_low hatval _ Hh'). auto 10.
  - injection Hh as <-. unfold set_joyState.
    cbn [keyState joyState hatState simState]. rewrite !button_bits_testbit by lia.
    rewrite !andb_false_r. cbn [andb].
    pose proof (button_bits_range button state _ Hj). auto 10.
  - destruct (processTouchEvent tf s) as [s1|] eqn:E; [|discriminate].
    injection Hh as <-.
    destruct (processTouchEvent_frame tf s s1 E) as (-> & -> & -> & -> & _).
    auto 10.
  - injection Hh as <-. auto 10.
Qed.

Lemma EVT_ProcessEvents_handle (s : Hal) (e : SDL_Event) (q : list SDL_Event) :
  pending s = e :: q ->
  snd <$> EVT_ProcessEvents s = handle e (set_pending q s).
Proof.
  intros Hp. unfold EVT_ProcessEvents, SDL_PollEvent, handle. rewrite Hp.
  destruct e; reflexivity.
Qed.

Lemma EVT_ProcessEvents_idle (s : Hal) :
  pending s = [] -> EVT_ProcessEvents s = Some (true, s).
Proof. intros Hp. unfold EVT_ProcessEvents, SDL_PollEvent. now rewrite Hp. Qed.

Lemma call_masks_ok (c : HalCall) (s s' : Hal) :
  call c s = Some s' -> masks_ok s -> masks_ok s'.
Proof.
  intros Hc Hm. destruct c as [ev| |state|b x y| |]; cbn in Hc.
  - eauto using handle_masks_ok.
  - destruct (pending s) as [|e q] eqn:Hp.
    + rewrite (EVT_ProcessEvents_idle s Hp) in Hc. now injection Hc as <-.
    + rewrite (EVT_ProcessEvents_handle s e q Hp) in Hc.
      apply (handle_masks_ok _ _ _ Hc). exact Hm.
  - injection Hc as <-. destruct Hm as (Hk & Hj & Hh & Hs & H01 & H23).
    unfold masks_ok; cbn. pose proof (to_u8_range state). auto 10.
  - injection Hc as <-. unfold INP_GetMouseState.
    destruct (scaleMouse s x y). exact Hm.
  - injection Hc as <-. destruct Hm as (Hk & Hj & Hh & Hs & H01 & H23).
    unfold masks_ok; cbn. repeat split; auto; lia.
  - injection Hc as <-. exact Hm.
Qed.

Lemma call_arrays_ok (c : HalCall) (s s' : Hal) :
  call c s = Some s' -> arrays_ok s -> arrays_ok s'.
Proof.
  intros Hc Ha. destruct c as [ev| |state|b x y| |]; cbn in Hc.
  - eauto using handle_arrays_ok.
  - destruct (pending s) as [|e q] eqn:Hp.
    + rewrite (EVT_ProcessEvents_idle s Hp) in Hc. now injection Hc as <-.
    + rewrite (EVT_ProcessEvents_handle s e q Hp) in Hc.
      apply (handle_arrays_ok _ _ _ Hc). exact Ha.
  - injection Hc as <-. exact Ha.
  - injection Hc as <-. unfold INP_GetMouseState.
    destruct (scaleMouse s x y). exact Ha.
  - injection Hc as <-. exact Ha.
  - injection Hc as <-. now apply HAL_EndFrame_arrays_ok.
Qed.

Lemma INP_GetInputState_range (s : Hal) : masks_ok s -> 0 <= INP_GetInputState s < 256.
Proof.
  intros (Hk & Hj & Hh & Hs & _). unfold INP_GetInputState.
  assert (Hnn : 0 <= Z.lor (Z.lor (Z.lor (keyState s) (joyState s)) (hatState s)) (simState s))
    by (repeat (apply Z.lor_nonneg; split); lia).
  split; [exact Hnn|].
  apply (below_pow2 _ 8); [exact Hnn | lia |].
  intros i Hi. rewrite !Z.lor_spec.
  rewrite (testbit_above (keyState s) 8), (testbit_above (joyState s) 8),
    (testbit_above (hatState s) 8), (testbit_above (simState s) 8) by lia.
  reflexivity.
Qed.

End Invariant.


(** ** Reachable states and the routing of events *)

Section Isolation.
Context `{TouchFlags}.

Lemma handle_pending (ev : SDL_Event) (s s' : Hal) :
  handle ev s = Some s' -> pending s' = pending s.
Proof.
  unfold handle. intros Hh.
  destruct ev as [|t sym kmod|y|axis value|hatval|t button state|tf|]; cbn in Hh.
  2: repeat match type of Hh with
            | context [if ?c then _ else _] => destruct c
            end.
  all: try (injection Hh as <-; reflexivity).
  destruct (processTouchEvent tf s) as [s1|] eqn:E; [|discriminate].
  injection Hh as <-. now apply (processTouchEvent_frame tf s s1 E).
Qed.

Lemma call_pending (c : HalCall) (s s' : Hal) :
  call c s = Some s' ->
  Forall finger_in_range (pending s) -> Forall finger_in_range (pending s').
Proof.
  intros Hc Hp. destruct c as [ev| |state|b x y| |]; cbn in Hc.
  - now rewrite (handle_pending _ _ _ Hc).
  - destruct (pending s) as [|e q] eqn:Hq.
    + rewrite (EVT_ProcessEvents_idle s Hq) in Hc. injection Hc as <-. now rewrite Hq.
    + rewrite (EVT_ProcessEvents_handle s e q Hq) in Hc.
      rewrite (handle_pending _ _ _ Hc). cbn. now inversion Hp.
  - now injection Hc as <-.
  - injection Hc as <-. unfold INP_GetMouseState. now destruct (scaleMouse s x y).
  - now injection Hc as <-.
  - now injection Hc as <-.
Qed.

Lemma call_defined (c : HalCall) (s : Hal) :
  arrays_ok s -> Forall finger_in_range (pending s) -> call_in_range c ->
  exists s', call c s = Some s'.
Proof.
  intros Ha Hp Hc. destruct c as [ev| |state|b x y| |]; cbn; eauto.
  - now apply handle_defined.
  - destruct (pending s) as [|e q] eqn:Hq.
    + rewrite (EVT_ProcessEvents_idle s Hq). cbn. eauto.
    + rewrite (EVT_ProcessEvents_handle s e q Hq).
      apply handle_defined; [exact Ha | now inversion Hp].
Qed.

(** X1: whatever sequence of calls of the input and frame interface is
    issued on a state whose masks and arrays are in order, none of them
    performs an undefined access as long as no finger id is negative, and
    the state reached keeps the invariant: every mask fits its [uint8_t],
    the joystick mask stays below bit 7 and never asserts both directions of
    an axis, the hat mask stays within bits 0 to 3; so [INP_GetInputState]
    returns a value in 0..255. *)
Theorem reachable_masks_ok (cs : list HalCall) (s : Hal) :
  masks_ok s -> arrays_ok s ->
  Forall finger_in_range (pending s) -> Forall call_in_range cs ->
  exists s',
    calls cs s = Some s' /\ masks_ok s' /\ arrays_ok s' /\
    0 <= INP_GetInputState s' < 256.
Proof.
  revert s. induction cs as [|c cs IH]; intros s Hm Ha Hp Hcs; cbn.
  - exists s. repeat split; try apply Hm; try apply Ha;
      now apply INP_GetInputState_range.
  - inversion Hcs as [|? ? Hc Hcs']; subst.
    destruct (call_defined c s Ha Hp Hc) as [s1 E]. rewrite E.
    apply IH; eauto using call_masks_ok, call_arrays_ok, call_pending.
Qed.

(** X2: [INP_ProcessInputEvents] writes each static from its own kind of
    event only: the keyboard mask and the three hot-key flags change on
    keyboard events only, the joystick mask on axis and button events only,
    the hat mask on hat events only, the wheel counter on wheel events only,
    the touch table on finger events only; the simulated mask, both
    palettes and the display size are never written.  The window size and
    the event queue are left as they were by every event other than the
    key-down of F11, the one event on which the handler asks SDL to change
    the window. *)
Theorem event_writes_own_static (ev : SDL_Event) (s s' : Hal) :
  handle ev s = Some s' ->
  (kind_of ev <> KeyKind ->
   keyState s' = keyState s /\ fullscreen s' = fullscreen s /\
   debug_trace_state s' = debug_trace_state s /\
   reload_requested s' = reload_requested s) /\
  (kind_of ev <> JoyKind -> joyState s' = joyState s) /\
  (kind_of ev <> HatKind -> hatState s' = hatState s) /\
  (kind_of ev <> WheelKind -> mouseWheel s' = mouseWheel s) /\
  (kind_of ev <> TouchKind -> touchState s' = touchState s) /\
  simState s' = simState s /\
  palette s' = palette s /\ original_palette s' = original_palette s /\
  screenWidth s' = screenWidth s /\ screenHeight s' = screenHeight s /\
  (is_fullscreen_toggle ev = false ->
   win_w s' = win_w s /\ win_h s' = win_h s /\ pending s' = pending s).
Proof.
  unfold handle. intros Hh.
  destruct ev as [|t sym kmod|y|axis value|hatval|t button state|tf|]; cbn in Hh.
  2: repeat match type of Hh with
            | context [if ?c then _ else _] => destruct c
            end.
  all: try (injection Hh as <-; cbn; repeat split; try reflexivity; intros; congruence).
  destruct (processTouchEvent tf s) as [s1|] eqn:E; [|discriminate].
  injection Hh as <-. unfold processTouchEvent in E.
  destruct (fingerId tf <? touchState_size); [|injection E as <-; tauto].
  destruct (array_get (touchState s) (to_int32 (fingerId tf))); [|discriminate].
  destruct (scaleMouse s _ _). injection E as <-.
  cbn; repeat split; try reflexivity; intros; congruence.
Qed.

Lemma hat_bits_idem (hatval h : Z) :
  hat_bits hatval (hat_bits hatval h) = hat_bits hatval h.
Proof.
  apply Z.bits_inj'. intros i Hi. rewrite !hat_bits_testbit by lia.
  destruct (i =? 0), (i =? 1), (i =? 2), (i =? 3); try reflexivity.
  destruct (i <? 8); reflexivity.
Qed.

(** X3: a hat event recomputes the four direction bits of the hat mask
    from the hat position alone: bit 0 is LEFT (SDL bit 3), bit 1 RIGHT (SDL
    bit 1), bit 2 UP (SDL bit 0), bit 3 DOWN (SDL bit 2), whatever the mask
    held before; bits 4 to 7 are kept.  Handling the same event again
    changes nothing, and a centred hat clears the mask. *)
Theorem hat_event_recomputes_directions (s : Hal) (hatval : Z) :
  exists s',
    INP_ProcessInputEvents (SDL_JOYHATMOTION hatval) s = Some (true, s') /\
    (forall i, 0 <= i ->
       Z.testbit (hatState s') i =
       if i =? 0 then Z.testbit hatval 3
       else if i =? 1 then Z.testbit hatval 1
       else if i =? 2 then Z.testbit hatval 0
       else if i =? 3 then Z.testbit hatval 2
       else (i <? 8) && Z.testbit (hatState s) i) /\
    (0 <= hatState s < 16 ->
     hatState s' = Z.b2z (Z.testbit hatval 3) + 2 * Z.b2z (Z.testbit hatval 1)
                   + 4 * Z.b2z (Z.testbit hatval 0) + 8 * Z.b2z (Z.testbit hatval 2)) /\
    INP_ProcessInputEvents (SDL_JOYHATMOTION hatval) s' = Some (true, s') /\
    (0 <= hatState s < 16 -> Z.land hatval 15 = 0 -> hatState s' = 0).
Proof.
  exists (set_hatState (hat_bits hatval (hatState s)) s).
  split; [reflexivity|]. cbn [hatState set_hatState].
  assert (Hbits : forall i, 0 <= i ->
            Z.testbit (hat_bits hatval (hatState s)) i =
            if i =? 0 then Z.testbit hatval 3
            else if i =? 1 then Z.testbit hatval 1
            else if i =? 2 then Z.testbit hatval 0
            else if i =? 3 then Z.testbit hatval 2
            else (i <? 8) && Z.testbit (hatState s) i)
    by (intros; now apply hat_bits_testbit).
  assert (Hclosed : 0 <= hatState s < 16 ->
            hat_bits hatval (hatState s)
            = Z.b2z (Z.testbit hatval 3) + 2 * Z.b2z (Z.testbit hatval 1)
              + 4 * Z.b2z (Z.testbit hatval 0) + 8 * Z.b2z (Z.testbit hatval 2)).
  { intros Hh. apply Z.bits_inj'. intros i Hi. rewrite Hbits by lia.
    destruct (Z.testbit hatval 3), (Z.testbit hatval 1), (Z.testbit hatval 0),
      (Z.testbit hatval 2); cbn [Z.b2z];
      (destruct (Z.lt_ge_cases i 4);
       [ assert (E : i = 0 \/ i = 1 \/ i = 2 \/ i = 3) by lia;
         destruct E as [->|[->|[->| ->]]]; reflexivity
       | destruct (Z.eqb_spec i 0), (Z.eqb_spec i 1), (Z.eqb_spec i 2),
           (Z.eqb_spec i 3); try lia;
         rewrite (testbit_above (hatState s) 4) by lia; rewrite andb_false_r;
         symmetry; apply (testbit_above _ 4); lia ]). }
  split; [exact Hbits|]. split; [exact Hclosed|]. split.
  - unfold INP_ProcessInputEvents, set_hatState. cbn [hatState].
    now rewrite hat_bits_idem.
  - intros Hh H0. rewrite Hclosed by exact Hh.
    assert (Hb : forall i, 0 <= i < 4 -> Z.testbit hatval i = false).
    { intros i Hi. assert (Hl : Z.testbit (Z.land hatval 15) i = false)
        by (rewrite H0; apply Z.bits_0).
      rewrite Z.land_spec in Hl. replace (Z.testbit 15 i) with true in Hl.
      - now rewrite andb_true_r in Hl.
      - assert (E : i = 0 \/ i = 1 \/ i = 2 \/ i = 3) by lia.
        destruct E as [->|[->|[->| ->]]]; reflexivity. }
    rewrite !Hb by lia. reflexivity.
Qed.
End Isolation.

Lemma reachable_masks_ok_witness :
  exists s',
    calls [CallProcessInputEvents (SDL_JOYAXISMOTION 0 (-2000));
           CallSetSimState 300; CallEndFrame] sample_hal = Some s' /\
    0 <= INP_GetInputState s' < 256.
Proof.
  destruct (reachable_masks_ok
              [CallProcessInputEvents (SDL_JOYAXISMOTION 0 (-2000));
               CallSetSimState 300; CallEndFrame] sample_hal)
    as (s' & E & _ & _ & Hr).
  - apply masks_ok_init.
  - apply hal_init_arrays_ok.
  - constructor.
  - repeat constructor.
  - exists s'. split; [exact E | exact Hr].
Defined.

Lemma event_writes_own_static_witness :
  joyState (set_mouseWheel 3 sample_hal) = joyState sample_hal.
Proof.
  destruct (event_writes_own_static (SDL_MOUSEWHEEL 3) sample_hal
              (set_mouseWheel 3 sample_hal)) as (_ & Hjoy & _); [reflexivity|].
  apply Hjoy. discriminate.
Defined.


(** ** Joystick buttons and hot keys *)

Section Buttons.
Context `{TouchFlags}.

(** X4: a joystick button event maps button 1 to bit 4, button 0 to bit 5
    and button 7 to bit 6 of the joystick mask; the bit takes the value of
    the event's [state] field, whichever of the two event types carries it.
    Every other bit, every other button and every other mask is left as it
    was. *)
Theorem joy_button_mapping (s : Hal) (ty : JoyButtonEventType) (button state : Z) :
  exists s',
    INP_ProcessInputEvents (JoyButtonEvent ty button state) s = Some (true, s') /\
    (forall i, 0 <= i < 8 ->
       Z.testbit (joyState s') i =
       if (button =? 1) && (i =? 4) then truthy state
       else if (button =? 0) && (i =? 5) then truthy state
       else if (button =? 7) && (i =? 6) then truthy state
       else Z.testbit (joyState s) i) /\
    (button <> 0 -> button <> 1 -> button <> 7 -> s' = s) /\
    (forall ty', INP_ProcessInputEvents (JoyButtonEvent ty' button state) s
                 = Some (true, s')) /\
    keyState s' = keyState s /\ hatState s' = hatState s /\
    simState s' = simState s /\ touchState s' = touchState s.
Proof.
  exists (set_joyState (button_bits button state (joyState s)) s).
  split; [reflexivity|]. split; [|split; [|split]].
  - intros i Hi. cbn [joyState set_joyState]. now apply button_bits_testbit.
  - intros H0 H1 H7. unfold button_bits, set_state_bit.
    destruct (Z.eqb_spec button 1), (Z.eqb_spec button 0), (Z.eqb_spec button 7);
      try lia.
    now destruct s.
  - reflexivity.
  - repeat split.
Qed.


End Buttons.


(** ** Reload request and event queue *)

Section Latch.
Context `{TouchFlags}.

Lemma handle_keeps_reload (ev : SDL_Event) (s s' : Hal) :
  handle ev s = Some s' -> reload_requested s = true -> reload_requested s' = true.
Proof.
  unfold handle. intros Hh Hr.
  destruct ev as [|t sym kmod|y|axis value|hatval|t button state|tf|]; cbn in Hh.
  2: repeat match type of Hh with
            | context [if ?c then _ else _] => destruct c
            end.
  all: try (injection Hh as <-; first [exact Hr | reflexivity]).
  destruct (processTouchEvent tf s) as [s1|] eqn:E; [|discriminate].
  injection Hh as <-. unfold processTouchEvent in E.
  destruct (fingerId tf <? touchState_size); [|now injection E as <-].
  destruct (array_get (touchState s) (to_int32 (fingerId tf))); [|discriminate].
  destruct (scaleMouse s _ _). now injection E as <-.
Qed.

Lemma call_keeps_reload (c : HalCall) (s s' : Hal) :
  call c s = Some s' -> is_start_frame c = false ->
  reload_requested s = true -> reload_requested s' = true.
Proof.
  intros Hc Hn Hr. destruct c as [ev| |state|b x y| |]; cbn in Hc; try discriminate.
  - eauto using handle_keeps_reload.
  - destruct (pending s) as [|e q] eqn:Hq.
    + rewrite (EVT_ProcessEvents_idle s Hq) in Hc. now injection Hc as <-.
    + rewrite (EVT_ProcessEvents_handle s e q Hq) in Hc.
      apply (handle_keeps_reload _ _ _ Hc). exact Hr.
  - now injection Hc as <-.
  - injection Hc as <-. unfold INP_GetMouseState. now destruct (scaleMouse s x y).
  - now injection Hc as <-.
Qed.

(** X6: once Ctrl+R has set the reload flag, [DEBUG_ReloadRequested]
    stays true through any calls of the interface other than
    [HAL_StartFrame], which clears it; the hot key leaves the input state as
    it was. *)
Theorem reload_request_latched (s s1 s2 : Hal) (kmod : Z) (cs : list HalCall) :
  truthy (Z.land kmod KMOD_CTRL) = true ->
  handle (KeyboardEvent SDL_KEYDOWN SDLK_r kmod) s = Some s1 ->
  forallb (fun c => negb (is_start_frame c)) cs = true ->
  calls cs s1 = Some s2 ->
  DEBUG_ReloadRequested s1 = true /\
  DEBUG_ReloadRequested s2 = true /\
  DEBUG_ReloadRequested (HAL_StartFrame s2) = false /\
  INP_GetInputState s1 = INP_GetInputState s.
Proof.
  intros Hc H1 Hcs H2.
  assert (E1 : s1 = set_reload_requested true s).
  { unfold handle, INP_ProcessInputEvents in H1. rewrite Hc in H1.
    now injection H1 as <-. }
  assert (Hr1 : reload_requested s1 = true) by now rewrite E1.
  split; [exact Hr1|]. split; [|split; [reflexivity | now rewrite E1]].
  unfold DEBUG_ReloadRequested. clear E1 H1.
  revert s1 Hr1 H2. induction cs as [|c cs IH]; intros s1 Hr1 H2; cbn in H2.
  - now injection H2 as <-.
  - cbn in Hcs. apply andb_prop in Hcs as [Hc1 Hcs].
    destruct (call c s1) as [s3|] eqn:E; [|discriminate].
    apply (IH Hcs s3); [|exact H2].
    apply (call_keeps_reload c s1 s3 E); [now destruct (is_start_frame c) | exact Hr1].
Qed.






End Latch.

Lemma reload_request_latched_witness :
  DEBUG_ReloadRequested
    (HAL_EndFrame (set_keyState 1 (set_reload_requested true sample_hal))) = true.
Proof.
  destruct (reload_request_latched sample_hal (set_reload_requested true sample_hal)
              (HAL_EndFrame (set_keyState 1 (set_reload_requested true sample_hal)))
              64
              [CallProcessInputEvents (KeyboardEvent SDL_KEYDOWN SDLK_LEFT 0);
               CallEndFrame]) as (_ & Hlatched & _);
    [reflexivity | reflexivity | reflexivity | reflexivity | exact Hlatched].
Defined.



(** ** Mouse *)

Section Mouse.
Context `{TouchFlags}.

Lemma handle_mouseWheel (ev : SDL_Event) (s s' : Hal) :
  handle ev s = Some s' -> mouseWheel s' = mouseWheel s + wheel_total [ev].
Proof.
  unfold handle. intros Hh.
  destruct ev as [|t sym kmod|y|axis value|hatval|t button state|tf|]; cbn in Hh.
  2: repeat match type of Hh with
            | context [if ?c then _ else _] => destruct c
            end.
  all: try (injection Hh as <-; cbn; lia).
  destruct (processTouchEvent tf s) as [s1|] eqn:E; [|discriminate].
  injection Hh as <-. unfold processTouchEvent in E.
  destruct (fingerId tf <? touchState_size); [|injection E as <-; cbn; lia].
  destruct (array_get (touchState s) (to_int32 (fingerId tf))); [|discriminate].
  destruct (scaleMouse s _ _). injection E as <-. cbn. lia.
Qed.

Lemma handle_all_mouseWheel (evs : list SDL_Event) (s s' : Hal) :
  handle_all evs s = Some s' -> mouseWheel s' = mouseWheel s + wheel_total evs.
Proof.
  revert s. induction evs as [|ev evs IH]; intros s Hh; cbn [handle_all] in Hh.
  - injection Hh as <-. cbn. lia.
  - destruct (handle ev s) as [s1|] eqn:E; [|discriminate].
    rewrite (IH s1 Hh), (handle_mouseWheel _ _ _ E).
    unfold wheel_total. cbn [foldr]. destruct ev; lia.
Qed.

Lemma INP_GetMouseState_snd (b x y : Z) (s : Hal) :
  snd (INP_GetMouseState b x y s) = set_mouseWheel 0 s.
Proof. unfold INP_GetMouseState. now destruct (scaleMouse s x y). Qed.

Lemma INP_GetMouseState_wheel (b x y : Z) (s : Hal) :
  ms_wheel (fst (INP_GetMouseState b x y s)) = mouseWheel s.
Proof. unfold INP_GetMouseState. now destruct (scaleMouse s x y). Qed.

Lemma wheel_in_int_total (w : Z) (evs : list SDL_Event) :
  INT_MIN <= w <= INT_MAX -> wheel_in_int w evs = true ->
  INT_MIN <= w + wheel_total evs <= INT_MAX.
Proof.
  revert w. induction evs as [|ev evs IH]; intros w Hw Hin.
  - cbn. lia.
  - assert (Hstep : forall y, wheel_total (SDL_MOUSEWHEEL y :: evs) = y + wheel_total evs)
      by reflexivity.
    destruct ev as [|t sym kmod|y|axis value|hatval|t button state|tf|];
      cbn [wheel_in_int] in Hin;
      try (change (wheel_total (_ :: evs)) with (wheel_total evs); now apply IH).
    apply andb_prop in Hin as [Hin Hrest]. apply andb_prop in Hin as [Hin Hhi].
    apply andb_prop in Hin as [_ Hlo].
    apply Z.leb_le in Hlo, Hhi. rewrite Hstep.
    specialize (IH (w + y) ltac:(lia) Hrest). lia.
Qed.

(** X8: as long as no addition overflows the [int] counter, the wheel
    counter adds up the [y] of every wheel event and nothing else;
    [INP_GetMouseState] reports the sum accumulated since the last read, a
    value in the range of [int], and resets it, so a second read without
    new wheel events reports 0.  Reading the mouse leaves the input state
    and the touch table alone. *)
Theorem mouse_wheel_drained_on_read (s : Hal) (evs : list SDL_Event)
        (b x y b' x' y' : Z) :
  arrays_ok s -> Forall finger_in_range evs ->
  INT_MIN <= mouseWheel s <= INT_MAX -> wheel_in_int (mouseWheel s) evs = true ->
  exists s1,
    handle_all evs s = Some s1 /\
    (let r1 := INP_GetMouseState b x y s1 in
     let r2 := INP_GetMouseState b' x' y' (snd r1) in
     ms_wheel (fst r1) = mouseWheel s + wheel_total evs /\
     INT_MIN <= ms_wheel (fst r1) <= INT_MAX /\
     mouseWheel (snd r1) = 0 /\
     ms_wheel (fst r2) = 0 /\
     snd r2 = snd r1 /\
     INP_GetInputState (snd r1) = INP_GetInputState s1 /\
     touchState (snd r1) = touchState s1).
Proof.
  intros Ha Hr Hw Hin. destruct (handle_all_defined evs s Ha Hr) as [s1 H1].
  exists s1. split; [exact H1|]. cbv zeta.
  rewrite !INP_GetMouseState_wheel, !INP_GetMouseState_snd.
  rewrite (handle_all_mouseWheel _ _ _ H1).
  pose proof (wheel_in_int_total _ _ Hw Hin). repeat split; lia.
Qed.

(** X9: the button mask [INP_GetMouseState] reports has bit 0 for the
    left, bit 1 for the right and bit 2 for the middle button (SDL's bits 0,
    2 and 1), and lies in 0..7; the reported position is [scaleMouse] of the
    window position, and depends on the window and display sizes only. *)
Theorem mouse_buttons_remapped (s : Hal) (b x y : Z) :
  let ms := fst (INP_GetMouseState b x y s) in
  Z.testbit (ms_buttons ms) 0 = Z.testbit b 0 /\
  Z.testbit (ms_buttons ms) 1 = Z.testbit b 2 /\
  Z.testbit (ms_buttons ms) 2 = Z.testbit b 1 /\
  0 <= ms_buttons ms < 8 /\
  (ms_x ms, ms_y ms) = scaleMouse s x y /\
  (forall s', win_w s' = win_w s -> win_h s' = win_h s ->
              screenWidth s' = screenWidth s -> screenHeight s' = screenHeight s ->
              (ms_x (fst (INP_GetMouseState b x y s')),
               ms_y (fst (INP_GetMouseState b x y s'))) = (ms_x ms, ms_y ms)).
Proof.
  assert (Hpos : forall s', (ms_x (fst (INP_GetMouseState b x y s')),
                             ms_y (fst (INP_GetMouseState b x y s')))
                            = scaleMouse s' x y).
  { intros s'. unfold INP_GetMouseState. now destruct (scaleMouse s' x y). }
  assert (Hbtn : ms_buttons (fst (INP_GetMouseState b x y s))
                 = Z.lor (Z.lor (if Z.testbit b 0 then 1 else 0)
                                (if Z.testbit b 2 then 2 else 0))
                         (if Z.testbit b 1 then 4 else 0)).
  { unfold INP_GetMouseState. destruct (scaleMouse s x y). cbn [fst ms_buttons].
    change (SDL_BUTTON SDL_BUTTON_LEFT) with (Z.shiftl 1 0).
    change (SDL_BUTTON SDL_BUTTON_RIGHT) with (Z.shiftl 1 2).
    change (SDL_BUTTON SDL_BUTTON_MIDDLE) with (Z.shiftl 1 1).
    now rewrite !bit_truthy by lia. }
  cbv zeta. rewrite Hbtn, Hpos.
  split; [|split; [|split; [|split; [|split]]]].
  1-4: destruct (Z.testbit b 0), (Z.testbit b 1), (Z.testbit b 2); cbv;
       first [reflexivity | split; [discriminate | reflexivity]].
  - reflexivity.
  - intros s' Hw Hh Hsw Hsh. rewrite Hpos.
    unfold scaleMouse, getDisplayArea. now rewrite Hw, Hh, Hsw, Hsh.
Qed.
End Mouse.

Lemma mouse_wheel_drained_on_read_witness :
  exists s1,
    handle_all [SDL_MOUSEWHEEL 2; SDL_MOUSEWHEEL (-5)] sample_hal = Some s1 /\
    ms_wheel (fst (INP_GetMouseState 0 100 100 s1)) = -3.
Proof.
  destruct (mouse_wheel_drained_on_read sample_hal
              [SDL_MOUSEWHEEL 2; SDL_MOUSEWHEEL (-5)] 0 100 100 0 100 100)
    as (s1 & E & Hw & _).
  - apply hal_init_arrays_ok.
  - repeat constructor.
  - vm_compute. split; discriminate.
  - reflexivity.
  - exists s1. split; [exact E | exact Hw].
Defined.


(** ** Touch mask *)

Lemma touch_mask_fold (s : Hal) (k : nat) (i : Z) :
  (k <= 8)%nat -> 0 <= i ->
  Z.testbit (foldl (touch_mask_step s) 0 (seq 0 k)) i
  = (i <? Z.of_nat k) && slot_active s i.
Proof.
  intros Hk Hi. induction k as [|k IH].
  - cbn [seq foldl]. rewrite Z.bits_0. change (Z.of_nat 0) with 0.
    destruct (Z.ltb_spec i 0); [lia | reflexivity].
  - rewrite seq_S, foldl_app. cbn [foldl Nat.add].
    specialize (IH ltac:(lia)). unfold touch_mask_step at 1.
    assert (Hstep : (i <? Z.of_nat (S k))
                    = (i <? Z.of_nat k) || (Z.of_nat k =? i)).
    { destruct (Z.ltb_spec i (Z.of_nat (S k))), (Z.ltb_spec i (Z.of_nat k)),
        (Z.eqb_spec (Z.of_nat k) i); try reflexivity; lia. }
    assert (Hact : Z.of_nat k = i -> slot_active s i
                   = match touchState s !! k with
                     | Some t => negb (ti_state t =? TouchState.None)
                     | None => false
                     end).
    { intros <-. unfold slot_active. now rewrite Nat2Z.id. }
    rewrite Hstep.
    destruct (touchState s !! k) as [t|] eqn:Et.
    + destruct (negb (ti_state t =? TouchState.None)) eqn:En.
      * rewrite to_u8_testbit, Z.lor_spec, shiftl_1_testbit, IH by lia.
        destruct (Z.eqb_spec (Z.of_nat k) i) as [E|E].
        -- rewrite (Hact E). destruct (Z.ltb_spec i 8); [|lia].
           now rewrite !orb_true_r.
        -- rewrite !orb_false_r. destruct (Z.ltb_spec i 8); [reflexivity|].
           destruct (Z.ltb_spec i (Z.of_nat k)); [lia | reflexivity].
      * rewrite IH. destruct (Z.eqb_spec (Z.of_nat k) i) as [E|E].
        -- rewrite (Hact E). now rewrite !andb_false_r.
        -- now rewrite orb_false_r.
    + rewrite IH. destruct (Z.eqb_spec (Z.of_nat k) i) as [E|E].
      * rewrite (Hact E). now rewrite !andb_false_r.
      * now rewrite orb_false_r.
Qed.

Lemma INP_GetTouchMask_testbit (s : Hal) (i : Z) :
  0 <= i -> Z.testbit (INP_GetTouchMask s) i = (i <? 8) && slot_active s i.
Proof. intros Hi. unfold INP_GetTouchMask. now apply (touch_mask_fold s 8). Qed.

Lemma touch_mask_nonneg (s : Hal) (l : list nat) (m : Z) :
  0 <= m -> 0 <= foldl (touch_mask_step s) m l.
Proof.
  revert m. induction l as [|n l IH]; intros m Hm; [exact Hm|].
  cbn [foldl]. apply IH. unfold touch_mask_step.
  destruct (touchState s !! n) as [t|]; [|exact Hm].
  destruct (negb _); [apply to_u8_range | exact Hm].
Qed.

(** X10: bit [i] of [INP_GetTouchMask] is set exactly when slot [i] of
    the touch table holds a state other than [None]; the mask lies in
    0..255, is 0 exactly when all eight slots are idle, and is 0 at program
    start. *)
Theorem touch_mask_marks_active_slots (s : Hal) :
  (forall i, 0 <= i ->
     Z.testbit (INP_GetTouchMask s) i = (i <? 8) && slot_active s i) /\
  0 <= INP_GetTouchMask s < 256 /\
  (INP_GetTouchMask s = 0 <-> forall i, 0 <= i < 8 -> slot_active s i = false) /\
  (forall winx winy w h evs, INP_GetTouchMask (hal_init winx winy w h evs) = 0).
Proof.
  assert (Hnn : 0 <= INP_GetTouchMask s) by (apply touch_mask_nonneg; lia).
  split; [|split; [|split]].
  - intros i Hi. now apply INP_GetTouchMask_testbit.
  - split; [exact Hnn|]. apply (below_pow2 _ 8); [exact Hnn | lia |].
    intros i Hi. rewrite INP_GetTouchMask_testbit by lia.
    destruct (Z.ltb_spec i 8); [lia | reflexivity].
  - split.
    + intros H0 i Hi. pose proof (INP_GetTouchMask_testbit s i ltac:(lia)) as Hb.
      rewrite H0, Z.bits_0 in Hb. destruct (Z.ltb_spec i 8); [|lia].
      now rewrite andb_true_l in Hb.
    + intros Hall. apply Z.bits_inj'. intros i Hi.
      rewrite INP_GetTouchMask_testbit, Z.bits_0 by lia.
      destruct (Z.ltb_spec i 8); [|reflexivity]. now rewrite Hall by lia.
  - reflexivity.
Qed.


(** ** Life of a touch *)

Section Lifecycle.
Context `{TouchFlags}.
Import TouchState.

Lemma flush_slot_idem (t : TouchInfo) : flush_slot (flush_slot t) = flush_slot t.
Proof.
  assert (Hjr : has_flag JustReleased (flush_slot t) = false).
  { rewrite has_JustReleased, flush_slot_testbit
      by (pose proof flag_bits_range; lia).
    rewrite has_JustReleased.
    destruct (Z.testbit (ti_state t) JustReleased_bit);
      [reflexivity | apply andb_false_r]. }
  assert (Hst : ti_state (flush_slot (flush_slot t)) = ti_state (flush_slot t)).
  { rewrite (flush_slot_state (flush_slot t)), Hjr, (flush_slot_state t).
    destruct (has_flag JustReleased t); [reflexivity|].
    now rewrite <- Z.land_assoc, Z.land_diag. }
  destruct (flush_slot t) as [x y st] eqn:E1.
  destruct (flush_slot {| ti_x := x; ti_y := y; ti_state := st |}) as [x' y' st'] eqn:E2.
  cbn in Hst. subst st'.
  unfold flush_slot in E2. cbn [ti_x ti_y] in E2. now injection E2 as <- <- _.
Qed.

Lemma flush_slot_position (t : TouchInfo) :
  ti_x (flush_slot t) = ti_x t /\ ti_y (flush_slot t) = ti_y t.
Proof. split; reflexivity. Qed.

(** X11: [HAL_EndFrame] is idempotent: a second end of frame without
    events in between changes nothing.  After it no slot carries
    [JustPressed] or [JustReleased], every slot keeps its position, the
    input state is untouched, and it commutes with [HAL_StartFrame]. *)
Theorem HAL_EndFrame_idempotent (s : Hal) :
  HAL_EndFrame (HAL_EndFrame s) = HAL_EndFrame s /\
  (forall i t, touchState s !! i = Some t ->
     exists t', touchState (HAL_EndFrame s) !! i = Some t' /\
                ti_x t' = ti_x t /\ ti_y t' = ti_y t /\
                has_flag JustPressed t' = false /\ has_flag JustReleased t' = false) /\
  INP_GetInputState (HAL_EndFrame s) = INP_GetInputState s /\
  HAL_EndFrame (HAL_StartFrame s) = HAL_StartFrame (HAL_EndFrame s).
Proof.
  split; [|split; [|split; reflexivity]].
  - unfold HAL_EndFrame, flushTouchEvents, set_touchState. cbn [touchState].
    f_equal. rewrite map_map. apply map_ext. intros t. apply flush_slot_idem.
  - intros i t Ht. exists (flush_slot t). split.
    + unfold HAL_EndFrame. rewrite flushTouchEvents_slot, Ht. reflexivity.
    + split; [reflexivity|]. split; [reflexivity|]. split.
      * rewrite has_JustPressed, flush_slot_testbit
          by (pose proof flag_bits_range; lia).
        rewrite Z.eqb_refl. now rewrite andb_false_r.
      * rewrite has_JustReleased, flush_slot_testbit
          by (pose proof flag_bits_range; lia).
        rewrite has_JustReleased.
        destruct (Z.testbit (ti_state t) JustReleased_bit);
          [reflexivity | apply andb_false_r].
Qed.

Lemma flags_facts :
  Z.lor JustPressed Pressed <> 0 /\ Pressed <> 0 /\ Z.lor Pressed JustReleased <> 0 /\
  Z.land (Z.lor JustPressed Pressed) (Z.lnot JustPressed) = Pressed /\
  Z.testbit (Z.lor JustPressed Pressed) JustReleased_bit = false /\
  Z.testbit (Z.lor Pressed JustReleased) JustReleased_bit = true.
Proof.
  pose proof flag_bits_range as (Hjp & Hp & Hjr).
  pose proof flag_bits_distinct as (D1 & D2 & D3).
  unfold JustPressed, Pressed, JustReleased.
  assert (Hne : forall z b, Z.testbit z b = true -> z <> 0).
  { intros z b Hb ->. rewrite Z.bits_0 in Hb. discriminate. }
  split; [|split; [|split; [|split; [|split]]]].
  - apply (Hne _ Pressed_bit). rewrite Z.lor_spec, !shiftl_1_testbit by lia.
    rewrite Z.eqb_refl. apply orb_true_r.
  - apply (Hne _ Pressed_bit). rewrite shiftl_1_testbit by lia. apply Z.eqb_refl.
  - apply (Hne _ Pressed_bit). rewrite Z.lor_spec, !shiftl_1_testbit by lia.
    now rewrite Z.eqb_refl.
  - apply Z.bits_inj'. intros i Hi.
    rewrite Z.land_spec, Z.lor_spec, Z.lnot_spec, !shiftl_1_testbit by lia.
    destruct (Z.eqb_spec JustPressed_bit i), (Z.eqb_spec Pressed_bit i);
      try reflexivity; lia.
  - rewrite Z.lor_spec, !shiftl_1_testbit by lia.
    destruct (Z.eqb_spec JustPressed_bit JustReleased_bit),
      (Z.eqb_spec Pressed_bit JustReleased_bit); try reflexivity; lia.
  - rewrite Z.lor_spec, !shiftl_1_testbit by lia.
    rewrite Z.eqb_refl. apply orb_true_r.
Qed.

Lemma slot_active_lookup (s : Hal) (i : Z) (t : TouchInfo) :
  touchState s !! Z.to_nat i = Some t ->
  slot_active s i = negb (ti_state t =? TouchState.None).
Proof. intros Ht. unfold slot_active. now rewrite Ht. Qed.

Lemma routed_slot (ev : SDL_TouchFingerEvent) (s s' : Hal) (t : TouchInfo) :
  0 <= fingerId ev < 8 -> touchState s !! Z.to_nat (fingerId ev) = Some t ->
  processTouchEvent ev s = Some s' ->
  touchState s' !! Z.to_nat (fingerId ev)
  = Some {| ti_x := fst (touch_position s ev); ti_y := snd (touch_position s ev);
            ti_state := Z.lor (ti_state t) (event_flags (tf_type ev)) |}.
Proof.
  intros Hid Ht Hp. rewrite (processTouchEvent_routed ev s t Hid Ht) in Hp.
  injection Hp as <-. cbn [touchState set_touchState].
  apply list_lookup_insert_eq. now apply lookup_lt_Some in Ht.
Qed.

(** X12: the life of a touch in an idle slot: finger-down gives
    [JustPressed | Pressed], the end of that frame leaves [Pressed],
    finger-up gives [Pressed | JustReleased], the end of that frame returns
    the slot to [None].  The slot holds the position of the last event, and
    its bit of the touch mask is set from the finger-down until the frame of
    the finger-up ends. *)
Theorem touch_lifecycle (s : Hal) (id : Z) (x y x' y' : float) (t : TouchInfo) :
  0 <= id < 8 -> touchState s !! Z.to_nat id = Some t ->
  ti_state t = TouchState.None ->
  let down := {| tf_type := SDL_FINGERDOWN; fingerId := id; tf_x := x; tf_y := y |} in
  let up := {| tf_type := SDL_FINGERUP; fingerId := id; tf_x := x'; tf_y := y' |} in
  exists s1 s3 t1 t2 t3 t4,
    processTouchEvent down s = Some s1 /\
    processTouchEvent up (HAL_EndFrame s1) = Some s3 /\
    touchState s1 !! Z.to_nat id = Some t1 /\
    touchState (HAL_EndFrame s1) !! Z.to_nat id = Some t2 /\
    touchState s3 !! Z.to_nat id = Some t3 /\
    touchState (HAL_EndFrame s3) !! Z.to_nat id = Some t4 /\
    ti_state t1 = Z.lor JustPressed Pressed /\
    ti_state t2 = Pressed /\
    ti_state t3 = Z.lor Pressed JustReleased /\
    ti_state t4 = TouchState.None /\
    (ti_x t2, ti_y t2) = touch_position s down /\
    (ti_x t4, ti_y t4) = touch_position (HAL_EndFrame s1) up /\
    Z.testbit (INP_GetTouchMask s) id = false /\
    Z.testbit (INP_GetTouchMask s1) id = true /\
    Z.testbit (INP_GetTouchMask (HAL_EndFrame s1)) id = true /\
    Z.testbit (INP_GetTouchMask s3) id = true /\
    Z.testbit (INP_GetTouchMask (HAL_EndFrame s3)) id = false.
Proof.
  intros Hid Ht Hnone down up.
  destruct flags_facts as (F1 & F2 & F3 & F4 & F5 & F6).
  assert (Hlt : (id <? 8) = true) by (apply Z.ltb_lt; lia).
  pose proof (processTouchEvent_routed down s t Hid Ht) as E1.
  set (s1 := set_touchState _ s) in E1.
  pose proof (routed_slot down s s1 t Hid Ht E1) as L1.
  cbn [fingerId down tf_type event_flags] in L1. rewrite Hnone in L1.
  change (Z.lor TouchState.None ?f) with f in L1.
  set (t1 := {| ti_x := _ |}) in L1.
  assert (L2 : touchState (HAL_EndFrame s1) !! Z.to_nat id = Some (flush_slot t1)).
  { unfold HAL_EndFrame. now rewrite flushTouchEvents_slot, L1. }
  assert (S2 : ti_state (flush_slot t1) = Pressed).
  { rewrite flush_slot_state, has_JustReleased. cbn [ti_state t1].
    now rewrite F5, F4. }
  pose proof (processTouchEvent_routed up (HAL_EndFrame s1) _ Hid L2) as E3.
  set (s3 := set_touchState _ (HAL_EndFrame s1)) in E3.
  pose proof (routed_slot up (HAL_EndFrame s1) s3 _ Hid L2 E3) as L3.
  cbn [fingerId up tf_type event_flags] in L3. rewrite S2 in L3.
  set (t3 := {| ti_x := _ |}) in L3.
  assert (L4 : touchState (HAL_EndFrame s3) !! Z.to_nat id = Some (flush_slot t3)).
  { unfold HAL_EndFrame. now rewrite flushTouchEvents_slot, L3. }
  assert (S4 : ti_state (flush_slot t3) = TouchState.None).
  { rewrite flush_slot_state, has_JustReleased. cbn [ti_state t3]. now rewrite F6. }
  exists s1, s3, t1, (flush_slot t1), t3, (flush_slot t3).
  split; [exact E1|]. split; [exact E3|].
  split; [exact L1|]. split; [exact L2|]. split; [exact L3|]. split; [exact L4|].
  split; [reflexivity|]. split; [exact S2|]. split; [reflexivity|]. split; [exact S4|].
  split; [now destruct (touch_position s down)|].
  split; [now destruct (touch_position (HAL_EndFrame s1) up)|].
  rewrite !INP_GetTouchMask_testbit by lia. rewrite Hlt. cbn [andb].
  rewrite (slot_active_lookup _ _ _ Ht), (slot_active_lookup _ _ _ L1),
    (slot_active_lookup _ _ _ L2), (slot_active_lookup _ _ _ L3),
    (slot_active_lookup _ _ _ L4).
  rewrite Hnone, S2, S4. cbn [ti_state t1 t3]. unfold TouchState.None.
  repeat split; try reflexivity; apply negb_true_iff, Z.eqb_neq; assumption.
Qed.

(** X13: a finger id in [-2^31, 0) passes the capacity test of
    [processTouchEvent] and indexes the table below its first slot: the
    access is out of bounds, for the handler and for the event pump
    alike. *)
Theorem negative_finger_id_out_of_bounds (s : Hal) (ev : SDL_TouchFingerEvent) :
  - 2 ^ 31 <= fingerId ev < 0 ->
  processTouchEvent ev s = Datatypes.None /\
  INP_ProcessInputEvents (TouchFingerEvent ev) s = Datatypes.None /\
  (forall q, EVT_ProcessEvents (set_pending (TouchFingerEvent ev :: q) s)
             = Datatypes.None).
Proof.
  intros Hid.
  assert (Hp : forall s0, processTouchEvent ev s0 = Datatypes.None).
  { intros s0. unfold processTouchEvent, touchState_size.
    destruct (Z.ltb_spec (fingerId ev) 8); [|lia].
    rewrite to_int32_small by lia. rewrite array_get_None by lia. reflexivity. }
  split; [apply Hp|]. split.
  - unfold INP_ProcessInputEvents. now rewrite Hp.
  - intros q. unfold EVT_ProcessEvents, SDL_PollEvent. cbn [pending set_pending].
    unfold INP_ProcessInputEvents. now rewrite Hp.
Qed.
End Lifecycle.

Lemma touch_lifecycle_witness :
  exists s1 s3 t4,
    processTouchEvent (sample_touch SDL_FINGERDOWN 2) sample_hal = Some s1 /\
    processTouchEvent (sample_touch SDL_FINGERUP 2) (HAL_EndFrame s1) = Some s3 /\
    touchState (HAL_EndFrame s3) !! 2%nat = Some t4 /\
    ti_state t4 = TouchState.None.
Proof.
  destruct (touch_lifecycle sample_hal 2
              (tf_x (sample_touch SDL_FINGERDOWN 2)) (tf_y (sample_touch SDL_FINGERDOWN 2))
              (tf_x (sample_touch SDL_FINGERUP 2)) (tf_y (sample_touch SDL_FINGERUP 2))
              TouchInfo_default)
    as (s1 & s3 & t1 & t2 & t3 & t4 & E1 & E3 & _ & _ & _ & L4 & _ & _ & _ & S4 & _).
  - lia.
  - reflexivity.
  - reflexivity.
  - exists s1, s3, t4. repeat split; assumption.
Defined.

Lemma negative_finger_id_out_of_bounds_witness :
  processTouchEvent (sample_touch SDL_FINGERDOWN (-1)) sample_hal = None.
Proof.
  destruct (negative_finger_id_out_of_bounds sample_hal
              (sample_touch SDL_FINGERDOWN (-1))) as (Hnone & _); [cbn; lia|].
  exact Hnone.
Defined.


(** ** Palette selection *)

Lemma sample_hal_palettes_ok : palettes_ok sample_hal.
Proof. split; reflexivity. Qed.

Section PaletteMore.
Variable M : Z -> Z -> Z -> pixel_t.
Variable registry : string -> PaletteInfo.

Lemma select_entries_tail (info : PaletteInfo) (n : nat) (s : Hal) (i : nat) :
  (n <= i)%nat ->
  let s' := foldl (select_entry M info) s (seq 0 n) in
  palette s' !! i = palette s !! i /\
  original_palette s' !! i = original_palette s !! i.
Proof.
  intros Hi. induction n as [|n IH]; cbv zeta; [split; reflexivity|].
  rewrite seq_S, foldl_app. cbn [foldl]. unfold select_entry at 1 3.
  cbn [palette original_palette set_palette set_original_palette Nat.add].
  rewrite !list_lookup_insert_ne by lia. apply IH. lia.
Qed.

Lemma select_entries_rest (info : PaletteInfo) (l : list nat) (s : Hal) :
  let s' := foldl (select_entry M info) s l in
  s' = set_palette (palette s') (set_original_palette (original_palette s') s).
Proof.
  revert s. induction l as [|n l IH]; intros s; cbv zeta; [now destruct s|].
  cbn [foldl]. rewrite IH at 1. reflexivity.
Qed.

(** X14: [GFX_SelectPalette] writes the first [size] entries of both
    palettes and leaves every entry from [size] on as it was, so after a
    shorter table the tail of the previous palette remains; nothing but the
    palettes changes.  A table of more than 256 entries is written past the
    arrays. *)
Theorem select_palette_keeps_tail (name : string) (s : Hal) :
  palettes_ok s ->
  let size := pal_size (registry name) in
  ((256 < size)%nat -> GFX_SelectPalette M registry name s = None) /\
  ((size <= 256)%nat ->
   exists s1,
     GFX_SelectPalette M registry name s = Some s1 /\
     palettes_ok s1 /\
     (forall i, (i < size)%nat ->
        palette s1 !! i = Some (entry_pixel M (registry name) i) /\
        original_palette s1 !! i = Some (entry_pixel M (registry name) i)) /\
     (forall i, (size <= i)%nat ->
        palette s1 !! i = palette s !! i /\
        original_palette s1 !! i = original_palette s !! i) /\
     s1 = set_palette (palette s1) (set_original_palette (original_palette s1) s)).
Proof.
  intros Hok size. unfold GFX_SelectPalette. fold size. split.
  - intros Hbig. apply Nat.ltb_lt in Hbig. now rewrite Hbig.
  - intros Hsmall. assert (E : (256 <? size)%nat = false) by (apply Nat.ltb_ge; lia).
    rewrite E. eexists. split; [reflexivity|].
    destruct (select_entries M (registry name) size s Hok Hsmall) as (Hok1 & Hin).
    split; [exact Hok1|]. split; [exact Hin|]. split.
    + intros i Hi. now apply select_entries_tail.
    + apply select_entries_rest.
Qed.

(** X15: [GFX_CreateBackBuffer] throws when no texture could be created;
    otherwise it sets the display size to its arguments, selects the pico8
    palette and restores, so that the working palette equals the original
    one in every entry: the table's colours below its size, the previous
    original entries above (overrides of the working palette are
    dropped). *)
Theorem create_back_buffer_resets_palette (x y : Z) (s : Hal) :
  palettes_ok s ->
  let size := pal_size (registry "pico8") in
  (exists msg, GFX_CreateBackBuffer M registry false x y s = Throw msg) /\
  ((256 < size)%nat -> GFX_CreateBackBuffer M registry true x y s = Ok None) /\
  ((size <= 256)%nat ->
   exists s',
     GFX_CreateBackBuffer M registry true x y s = Ok (Some s') /\
     screenWidth s' = x /\ screenHeight s' = y /\
     palettes_ok s' /\
     palette s' = original_palette s' /\
     (forall i, (i < size)%nat ->
        palette s' !! i = Some (entry_pixel M (registry "pico8") i)) /\
     (forall i, (size <= i)%nat -> palette s' !! i = original_palette s !! i)).
Proof.
  intros Hok size. unfold GFX_CreateBackBuffer, GFX_SelectPalette. cbn [negb].
  fold size. split; [eexists; reflexivity|]. split.
  - intros Hbig. apply Nat.ltb_lt in Hbig. now rewrite Hbig.
  - intros Hsmall. assert (E : (256 <? size)%nat = false) by (apply Nat.ltb_ge; lia).
    rewrite E. eexists. split; [reflexivity|].
    assert (Hok' : palettes_ok (set_screen x y s)) by exact Hok.
    destruct (select_entries M (registry "pico8") size _ Hok' Hsmall) as (Hok1 & Hin).
    pose proof (select_entries_rest (registry "pico8") (seq 0 size) (set_screen x y s))
      as Hrest.
    cbv zeta in Hrest. unfold GFX_RestorePalette.
    split; [rewrite Hrest; reflexivity|]. split; [rewrite Hrest; reflexivity|].
    split; [split; cbn; apply Hok1|]. split; [reflexivity|]. split.
    + intros i Hi. cbn. now apply Hin.
    + intros i Hi. cbn.
      now apply (select_entries_tail (registry "pico8") size (set_screen x y s)).
Qed.
End PaletteMore.

Lemma select_palette_keeps_tail_witness :
  exists s1,
    GFX_SelectPalette rgb565 sample_registry "pico8" sample_hal = Some s1 /\
    palette s1 !! 16%nat = palette sample_hal !! 16%nat.
Proof.
  destruct (select_palette_keeps_tail rgb565 sample_registry "pico8" sample_hal
              sample_hal_palettes_ok) as (_ & Hsmall).
  destruct Hsmall as (s1 & E & _ & _ & Ht & _); [cbn; lia|].
  exists s1. split; [exact E|]. apply Ht. cbn. lia.
Defined.

Lemma create_back_buffer_resets_palette_witness :
  exists s',
    GFX_CreateBackBuffer rgb565 sample_registry true 128 128 sample_hal = Ok (Some s') /\
    palette s' = original_palette s'.
Proof.
  destruct (create_back_buffer_resets_palette rgb565 sample_registry 128 128 sample_hal
              sample_hal_palettes_ok) as (_ & _ & Hsmall).
  destruct Hsmall as (s' & E & _ & _ & _ & Hp & _); [cbn; lia|].
  exists s'. split; [exact E | exact Hp].
Defined.


(** ** Palette overrides *)

Section PaletteOps.
Variable M : Z -> Z -> Z -> pixel_t.

Lemma set_palette_twice (l l' : list pixel_t) (s : Hal) :
  set_palette l (set_palette l' s) = set_palette l s.
Proof. reflexivity. Qed.

Lemma palette_set_palette (l : list pixel_t) (s : Hal) : palette (set_palette l s) = l.
Proof. reflexivity. Qed.

Lemma original_set_palette (l : list pixel_t) (s : Hal) :
  original_palette (set_palette l s) = original_palette s.
Proof. reflexivity. Qed.

Lemma to_u8_of_nat (n : nat) : (n < 256)%nat -> Z.to_nat (to_u8 (Z.of_nat n)) = n.
Proof. intros Hn. unfold to_u8. rewrite Z.mod_small by lia. lia. Qed.

Lemma restore_indices (n : nat) (s : Hal) :
  palettes_ok s -> (n <= 256)%nat ->
  exists l,
    foldl (fun s i => GFX_RestorePaletteIndex (Z.of_nat i) s) s (seq 0 n)
    = set_palette l s /\
    length l = 256%nat /\
    forall j, l !! j = if (j <? n)%nat then original_palette s !! j
                       else palette s !! j.
Proof.
  intros (Hp & Ho). induction n as [|n IH]; intros Hn.
  - exists (palette s). split; [now destruct s|]. split; [exact Hp|]. reflexivity.
  - destruct IH as (l & El & Hl & Hj); [lia|].
    rewrite seq_S, foldl_app, El. cbn [foldl Nat.add].
    unfold GFX_RestorePaletteIndex. rewrite to_u8_of_nat by lia.
    cbn [palette original_palette set_palette].
    exists (<[n := original_palette s !!! n]> l).
    split; [reflexivity|]. split; [now rewrite length_insert|].
    intros j. destruct (decide (j = n)) as [->|Hne].
    + rewrite list_lookup_insert_eq by lia.
      destruct (Nat.ltb_spec n (S n)); [|lia].
      symmetry. apply list_lookup_lookup_total_lt. lia.
    + rewrite list_lookup_insert_ne by congruence. rewrite Hj.
      destruct (Nat.ltb_spec j n), (Nat.ltb_spec j (S n)); try reflexivity; lia.
Qed.

Lemma apply_ops_rest (ops : list PaletteOp) (s : Hal) :
  foldl (apply_op M) s ops = set_palette (palette (foldl (apply_op M) s ops)) s.
Proof.
  revert s. induction ops as [|op ops IH]; intros s; [now destruct s|].
  cbn [foldl]. rewrite IH at 1. now destruct op.
Qed.

(** X16: [GFX_RestorePalette] does what [GFX_RestorePaletteIndex] does
    when called for each of the 256 indices; it is idempotent, undoes any
    sequence of overrides and restores, and after it restoring an index
    changes nothing. *)
Theorem restore_palette_is_restore_of_every_index (s : Hal) :
  palettes_ok s ->
  foldl (fun s i => GFX_RestorePaletteIndex (Z.of_nat i) s) s (seq 0 256)
  = GFX_RestorePalette s /\
  GFX_RestorePalette (GFX_RestorePalette s) = GFX_RestorePalette s /\
  (forall ops, GFX_RestorePalette (foldl (apply_op M) s ops) = GFX_RestorePalette s) /\
  (forall i, GFX_RestorePaletteIndex i (GFX_RestorePalette s) = GFX_RestorePalette s).
Proof.
  intros Hok. split; [|split; [|split]].
  - destruct (restore_indices 256 s Hok ltac:(lia)) as (l & El & Hl & Hj).
    rewrite El. unfold GFX_RestorePalette. f_equal.
    apply list_eq. intros j. rewrite Hj.
    destruct (Nat.ltb_spec j 256); [reflexivity|].
    destruct Hok as (Hp & Ho).
    rewrite !lookup_ge_None_2 by lia. reflexivity.
  - reflexivity.
  - intros ops. rewrite apply_ops_rest. reflexivity.
  - intros i. unfold GFX_RestorePaletteIndex, GFX_RestorePalette.
    cbn [palette original_palette set_palette].
    rewrite list_insert_id; [reflexivity|].
    apply list_lookup_lookup_total_lt. destruct Hok as (_ & Ho).
    pose proof (u8_index i). lia.
Qed.

(** X17: overrides of different entries commute, a second override of an
    entry replaces the first, and restoring an entry discards its override.
    Index and colour channels are [uint8_t]: [i + 256] designates entry [i],
    and a channel value is taken modulo 256. *)
Theorem palette_overrides_compose (s : Hal) (i j r g b r' g' b' : Z) :
  (to_u8 i <> to_u8 j ->
   GFX_SetPaletteIndex M i r g b (GFX_SetPaletteIndex M j r' g' b' s)
   = GFX_SetPaletteIndex M j r' g' b' (GFX_SetPaletteIndex M i r g b s)) /\
  GFX_SetPaletteIndex M i r g b (GFX_SetPaletteIndex M i r' g' b' s)
  = GFX_SetPaletteIndex M i r g b s /\
  GFX_SetPaletteIndex M (i + 256) r g b s = GFX_SetPaletteIndex M i r g b s /\
  GFX_SetPaletteIndex M i (r + 256) (g + 256) (b + 256) s
  = GFX_SetPaletteIndex M i r g b s /\
  GFX_RestorePaletteIndex i (GFX_SetPaletteIndex M i r g b s)
  = GFX_RestorePaletteIndex i s /\
  GFX_RestorePaletteIndex (i + 256) s = GFX_RestorePaletteIndex i s.
Proof.
  assert (Hwrap : forall z, to_u8 (z + 256) = to_u8 z).
  { intros z. unfold to_u8. change (2 ^ 8) with 256.
    rewrite <- (Z.mul_1_l 256) at 1. apply Z.mod_add. lia. }
  unfold GFX_SetPaletteIndex, GFX_RestorePaletteIndex.
  rewrite !set_palette_twice, !palette_set_palette, !original_set_palette.
  split; [|split; [|split; [|split; [|split]]]].
  - intros Hne. f_equal. apply list_insert_insert_ne.
    pose proof (to_u8_range i). pose proof (to_u8_range j). lia.
  - f_equal. apply list_insert_insert_eq.
  - now rewrite Hwrap.
  - now rewrite !Hwrap.
  - f_equal. apply list_insert_insert_eq.
  - now rewrite Hwrap.
Qed.
End PaletteOps.

Lemma restore_palette_is_restore_of_every_index_witness :
  foldl (fun s i => GFX_RestorePaletteIndex (Z.of_nat i) s)
        (GFX_SetPaletteIndex rgb565 3 10 20 30 sample_hal) (seq 0 256)
  = GFX_RestorePalette (GFX_SetPaletteIndex rgb565 3 10 20 30 sample_hal).
Proof.
  destruct (restore_palette_is_restore_of_every_index rgb565
              (GFX_SetPaletteIndex rgb565 3 10 20 30 sample_hal)) as (Hall & _);
    [split; reflexivity | exact Hall].
Defined.


(** ** Back-buffer copy and the palette *)

Section CompositorMore.
Variable sizeof_pixel_t : Z.
Variable buffer : Z -> Z.

Lemma copy_rows_nothing (pal : list pixel_t) (rows : nat) (pitch po bo w : Z)
      (m : Surface) :
  w <= 0 -> copy_rows sizeof_pixel_t buffer pal rows pitch po bo w m = m.
Proof.
  intros Hw. revert po bo. induction rows as [|rows IH]; intros po bo; [reflexivity|].
  cbn [copy_rows]. replace (Z.to_nat w) with 0%nat by lia. cbn [copy_row]. apply IH.
Qed.

(** X19: [GFX_CopyBackBuffer] throws when the texture cannot be locked,
    whatever the sizes; with a width or a height of zero or less it reads
    and writes nothing. *)
Theorem copy_back_buffer_degenerate (pal : list pixel_t) (res pitch w h : Z)
        (m : Surface) :
  (res < 0 ->
   exists msg, GFX_CopyBackBuffer sizeof_pixel_t buffer pal res pitch w h m = Throw msg) /\
  (0 <= res -> w <= 0 \/ h <= 0 ->
   GFX_CopyBackBuffer sizeof_pixel_t buffer pal res pitch w h m = Ok m).
Proof.
  unfold GFX_CopyBackBuffer. split.
  - intros Hres. destruct (Z.ltb_spec res 0); [eexists; reflexivity | lia].
  - intros Hres Hdeg. destruct (Z.ltb_spec res 0); [lia|]. f_equal.
    destruct (Z.le_gt_cases w 0) as [Hw|Hw].
    + now apply copy_rows_nothing.
    + replace (Z.to_nat h) with 0%nat by lia. reflexivity.
Qed.

Variable M : Z -> Z -> Z -> pixel_t.

(** X20: the copy goes through the working palette: after
    [GFX_SetPaletteIndex(i, r, g, b)], a copy of even width shows the colour
    (r, g, b) at every pixel whose source byte is [i] and the previous
    working entry at every other pixel. *)
Theorem copy_back_buffer_shows_override (s : Hal) (i r g b : Z)
        (res pitch w h : Z) (m : Surface) :
  palettes_ok s -> 0 <= res -> 0 < w -> 0 < h -> Z.even w = true ->
  let pp := Z.quot pitch sizeof_pixel_t in
  w <= pp ->
  let s' := GFX_SetPaletteIndex M i r g b s in
  exists m',
    GFX_CopyBackBuffer sizeof_pixel_t buffer (palette s') res pitch w h m = Ok m' /\
    forall x y, 0 <= x < w -> 0 <= y < h ->
      Some (pixels_mem m' (y * pp + x)) =
      if to_u8 (buffer (y * w + x)) =? to_u8 i
      then Some (GFX_GetPixel M (to_u8 r) (to_u8 g) (to_u8 b))
      else palette s !! Z.to_nat (to_u8 (buffer (y * w + x))).
Proof.
  intros (Hp & Ho) Hres Hw Hh He pp Hpp s'. unfold GFX_CopyBackBuffer.
  destruct (Z.ltb_spec res 0) as [Hneg | _]; [lia|].
  eexists. split; [reflexivity|].
  pose proof (covered_even w He) as Hc.
  destruct (copy_rows_mem sizeof_pixel_t buffer (palette s') (Z.to_nat h) pitch 0 0 w m)
    as (Hin & _); [lia | fold pp; lia |].
  fold pp in Hin. rewrite Hc in Hin.
  intros x y Hx Hy. specialize (Hin y x ltac:(lia) ltac:(lia)).
  rewrite !Z.add_0_l in Hin. rewrite Hin. unfold source_pixel.
  set (c := to_u8 (buffer (y * w + x))).
  assert (Hc8 : 0 <= c < 256) by apply to_u8_range.
  pose proof (to_u8_range i) as Hi8.
  assert (Hlen : length (palette s') = 256%nat).
  { unfold s', GFX_SetPaletteIndex. cbn [palette set_palette].
    now rewrite length_insert. }
  rewrite <- (list_lookup_lookup_total_lt (palette s') (Z.to_nat c)) by lia.
  unfold s', GFX_SetPaletteIndex. cbn [palette set_palette].
  destruct (Z.eqb_spec c (to_u8 i)) as [E|E].
  - rewrite E. apply list_lookup_insert_eq. lia.
  - apply list_lookup_insert_ne. lia.
Qed.
End CompositorMore.

Lemma copy_back_buffer_shows_override_witness :
  exists m',
    GFX_CopyBackBuffer 2 (fun o => 3)
      (palette (GFX_SetPaletteIndex rgb565 3 255 0 0 sample_hal)) 0 8 2 1 sample_surface
    = Ok m' /\
    Some (pixels_mem m' 1) = Some (GFX_GetPixel rgb565 255 0 0).
Proof.
  destruct (copy_back_buffer_shows_override 2 (fun o => 3) rgb565 sample_hal 3 255 0 0
              0 8 2 1 sample_surface sample_hal_palettes_ok)
    as (m' & E & Hpix);
    [lia | lia | lia | reflexivity | vm_compute; discriminate |].
  exists m'. split; [exact E|]. apply (Hpix 1 0); lia.
Defined.


(** ** Joystick selection and timers *)

Lemma scan_joysticks_chosen (numbuttons : list Z) (n j : Z) :
  j <> -1 -> scan_joysticks numbuttons n j = j.
Proof.
  intros Hj. revert n. induction numbuttons as [|nb rest IH]; intros n; [reflexivity|].
  cbn [scan_joysticks]. destruct (Z.eqb_spec j (-1)); [lia|]. apply IH.
Qed.

Lemma scan_joysticks_first (numbuttons : list Z) (n : Z) :
  0 <= n ->
  let r := scan_joysticks numbuttons n (-1) in
  (r = -1 /\ Forall (fun nb => nb <= 1) numbuttons) \/
  (n <= r /\
   (exists nb, numbuttons !! Z.to_nat (r - n) = Some nb /\ 1 < nb) /\
   forall k nb, (k < Z.to_nat (r - n))%nat -> numbuttons !! k = Some nb -> nb <= 1).
Proof.
  revert n. induction numbuttons as [|nb rest IH]; intros n Hn; cbv zeta.
  - left. split; [reflexivity | constructor].
  - cbn [scan_joysticks]. rewrite Z.eqb_refl. cbn [andb].
    rewrite Z.gtb_ltb. destruct (Z.ltb_spec 1 nb) as [Hnb|Hnb].
    + right. rewrite scan_joysticks_chosen by lia.
      replace (Z.to_nat (n - n)) with 0%nat by lia.
      split; [lia|]. split; [exists nb; split; [reflexivity | lia]|].
      intros k nb' Hk. lia.
    + destruct (IH (n + 1) ltac:(lia)) as [(Hr & Hall)|(Hr & (nb' & Hl & Hb) & Hmin)].
      * left. split; [exact Hr | constructor; [lia | exact Hall]].
      * right. set (r := scan_joysticks rest (n + 1) (-1)) in *.
        replace (Z.to_nat (r - n)) with (S (Z.to_nat (r - (n + 1)))) by lia.
        split; [lia|]. split; [exists nb'; split; [exact Hl | exact Hb]|].
        intros [|k] nb2 Hk Hl2.
        -- injection Hl2 as <-. exact Hnb.
        -- apply (Hmin k); [lia | exact Hl2].
Qed.

(** X21: [GFX_Init] opens the first joystick that reports more than one
    button: every joystick before it has at most one, and when no joystick
    has more than one button none is opened. *)
Theorem GFX_Init_opens_first_usable_joystick (numbuttons : list Z) :
  match GFX_Init_joystick numbuttons with
  | Some i =>
      0 <= i /\
      (exists nb, numbuttons !! Z.to_nat i = Some nb /\ 1 < nb) /\
      forall k nb, (k < Z.to_nat i)%nat -> numbuttons !! k = Some nb -> nb <= 1
  | None => Forall (fun nb => nb <= 1) numbuttons
  end.
Proof.
  unfold GFX_Init_joystick.
  destruct (scan_joysticks_first numbuttons 0 ltac:(lia))
    as [(Hr & Hall)|(Hr & Hsel & Hmin)]; cbv zeta in *.
  - rewrite Hr. exact Hall.
  - set (r := scan_joysticks numbuttons 0 (-1)) in *.
    rewrite Z.sub_0_r in Hsel, Hmin.
    destruct (Z.geb_spec r 0); [|lia]. auto.
Qed.

(** X22: [TIME_GetElapsedTime_ms] is right across the wrap of the 32-bit
    tick counter: [d] milliseconds after [start] it returns [d], for every
    [d] below 2^32.  The result is always in range, and a tick count behind
    [start] reads as almost 2^32. *)
Theorem elapsed_ms_across_wrap (start d : Z) :
  0 <= start < 2 ^ 32 -> 0 <= d < 2 ^ 32 ->
  TIME_GetElapsedTime_ms (to_u32 (start + d)) start = d /\
  (forall ticks, 0 <= TIME_GetElapsedTime_ms ticks start < 2 ^ 32) /\
  (forall ticks, 0 <= ticks < start ->
     TIME_GetElapsedTime_ms ticks start = 2 ^ 32 - (start - ticks)).
Proof.
  intros Hs Hd. unfold TIME_GetElapsedTime_ms, to_u32. split; [|split].
  - rewrite Zminus_mod_idemp_l. replace (start + d - start) with d by lia.
    apply Z.mod_small. lia.
  - intros ticks. apply Z.mod_pos_bound. lia.
  - intros ticks Ht.
    replace (ticks - start) with (2 ^ 32 - (start - ticks) + (-1) * 2 ^ 32) by lia.
    rewrite Z.mod_add by lia. apply Z.mod_small. lia.
Qed.

(** X23: [TIME_GetElapsedProfileTime_us] and [TIME_GetElapsedProfileTime_ms]
    return the elapsed counter ticks scaled to micro- and milliseconds,
    rounded down, also across a wrap of the 64-bit counter, as long as the
    ticks times 10^6 stay below 2^64; then the millisecond value is the
    microsecond value divided by 1000.  Beyond that the product wraps modulo
    2^64 before the division.  A zero frequency is a division by zero. *)
Theorem elapsed_profile_time_exact (start d frequency : Z) :
  0 <= start < 2 ^ 64 -> 0 <= d -> 0 < frequency ->
  let now := to_u64 (start + d) in
  (d * 1000000 < 2 ^ 64 ->
   TIME_GetElapsedProfileTime_us now frequency start = Some (d * 1000000 / frequency) /\
   TIME_GetElapsedProfileTime_ms now frequency start = Some (d * 1000 / frequency) /\
   d * 1000 / frequency = d * 1000000 / frequency / 1000) /\
  (d < 2 ^ 64 ->
   TIME_GetElapsedProfileTime_us now frequency start
   = Some ((d * 1000000) mod 2 ^ 64 / frequency)) /\
  TIME_GetElapsedProfileTime_us now 0 start = None.
Proof.
  intros Hs Hd Hf now.
  assert (Hdiff : d < 2 ^ 64 -> to_u64 (now - start) = d).
  { intros Hd'. unfold now, to_u64. rewrite Zminus_mod_idemp_l.
    replace (start + d - start) with d by lia. apply Z.mod_small. lia. }
  unfold TIME_GetElapsedProfileTime_us, TIME_GetElapsedProfileTime_ms,
    elapsed_profile_time.
  destruct (Z.eqb_spec frequency 0); [lia|].
  split; [|split; [|reflexivity]].
  - intros Hsmall. rewrite Hdiff by lia. unfold to_u64.
    rewrite !Z.mod_small by lia. split; [reflexivity|]. split; [reflexivity|].
    rewrite Z.div_div by lia.
    replace (d * 1000000) with (d * 1000 * 1000) by lia.
    symmetry. apply Z.div_mul_cancel_r; lia.
  - intros Hd'. rewrite Hdiff by lia. reflexivity.
Qed.

Lemma elapsed_ms_across_wrap_witness :
  TIME_GetElapsedTime_ms (to_u32 (4294967290 + 16)) 4294967290 = 16.
Proof.
  destruct (elapsed_ms_across_wrap 4294967290 16) as (Hd & _); [lia | lia | exact Hd].
Defined.

Lemma elapsed_profile_time_exact_witness :
  TIME_GetElapsedProfileTime_us (to_u64 (5 + 3000)) 1000000000 5 = Some 3.
Proof.
  destruct (elapsed_profile_time_exact 5 3000 1000000000) as (Hexact & _);
    [lia | lia | lia |].
  destruct Hexact as (Hus & _); [lia | exact Hus].
Defined.


(** ** Saved game states *)

Section FileFacts.
Variable encrypt : string -> string.
Variable decrypt : string -> string.
Variable pref_path : string.

Lemma FILE_LoadFile_data (name : string) (fs : FileSystem) :
  fst (FILE_LoadFile decrypt name fs)
  = decrypt (default "" (files fs !! file_of fs (c_str name))).
Proof.
  unfold FILE_LoadFile, SDL_RWFromFile_r.
  destruct (files fs !! file_of fs (c_str name)) as [content|]; [|reflexivity].
  cbn [default]. destruct content; reflexivity.
Qed.

Lemma FILE_SaveGameState_file_of (name data : string) (fs : FileSystem) :
  file_of (FILE_SaveGameState encrypt pref_path name data fs) = file_of fs.
Proof.
  unfold FILE_SaveGameState, SDL_RWFromFile_w.
  now destruct (can_write fs (c_str (pref_path +:+ name))).
Qed.

Lemma FILE_SaveGameState_files (name data : string) (fs : FileSystem) :
  can_write fs (c_str (pref_path +:+ name)) = true ->
  files (FILE_SaveGameState encrypt pref_path name data fs)
  = <[file_of fs (c_str (pref_path +:+ name)) := encrypt data]>
      (<[file_of fs (c_str (pref_path +:+ name)) := ""]> (files fs)).
Proof.
  intros Hw. unfold FILE_SaveGameState, SDL_RWFromFile_w. now rewrite Hw.
Qed.

(** X24: a game state saved with [FILE_SaveGameState] is what
    [FILE_LoadGameState] returns under the same name, provided the file
    could be opened for writing and decryption inverts encryption on the
    data; this holds for an empty encrypted payload too.  Saving closes the
    handle it opens; loading leaves one handle open when the file is
    empty. *)
Theorem save_game_state_round_trip (name data : string) (fs : FileSystem) :
  decrypt (encrypt data) = data ->
  can_write fs (c_str (pref_path +:+ name)) = true ->
  let fs1 := FILE_SaveGameState encrypt pref_path name data fs in
  let r := FILE_LoadGameState decrypt pref_path name fs1 in
  fst r = data /\
  files fs1 !! file_of fs (c_str (pref_path +:+ name)) = Some (encrypt data) /\
  open_handles fs1 = open_handles fs /\
  files (snd r) = files fs1 /\
  open_handles (snd r)
  = if (String.length (encrypt data) =? 0)%nat
    then S (open_handles fs) else open_handles fs.
Proof.
  intros Hcrypt Hw fs1 r.
  assert (Hof : file_of fs1 = file_of fs) by apply FILE_SaveGameState_file_of.
  assert (Hfiles : files fs1 !! file_of fs (c_str (pref_path +:+ name))
                   = Some (encrypt data)).
  { unfold fs1. rewrite FILE_SaveGameState_files by exact Hw.
    apply lookup_insert_eq. }
  assert (Hopen : open_handles fs1 = open_handles fs).
  { unfold fs1, FILE_SaveGameState, SDL_RWFromFile_w. rewrite Hw. reflexivity. }
  split; [|split; [exact Hfiles|split; [exact Hopen|]]].
  - unfold r, FILE_LoadGameState. rewrite FILE_LoadFile_data, Hof, Hfiles.
    exact Hcrypt.
  - unfold r, FILE_LoadGameState, FILE_LoadFile, SDL_RWFromFile_r.
    rewrite Hof, Hfiles.
    destruct (String.length (encrypt data) =? 0)%nat; cbn; rewrite ?Hopen; auto.
Qed.

(** X25: saving a game state changes one file, the one its path
    designates.  Loading a name whose path designates another file gives
    what it gave before; loading a name whose path designates the same
    file, be it another name, gives the data saved.  No other file
    changes, nor does the file any path designates, and when the file
    cannot be opened for writing nothing changes at all.  Loading a file
    that does not exist returns the decryption of the empty string and
    leaves the file system as it was. *)
Theorem save_game_state_is_local (name name' data : string) (fs : FileSystem) :
  let fs1 := FILE_SaveGameState encrypt pref_path name data fs in
  let saved := file_of fs (c_str (pref_path +:+ name)) in
  (file_of fs (c_str (pref_path +:+ name')) <> saved ->
   fst (FILE_LoadGameState decrypt pref_path name' fs1)
   = fst (FILE_LoadGameState decrypt pref_path name' fs)) /\
  (file_of fs (c_str (pref_path +:+ name')) = saved ->
   can_write fs (c_str (pref_path +:+ name)) = true ->
   fst (FILE_LoadGameState decrypt pref_path name' fs1) = decrypt (encrypt data)) /\
  (forall file, file <> saved -> files fs1 !! file = files fs !! file) /\
  file_of fs1 = file_of fs /\
  (can_write fs (c_str (pref_path +:+ name)) = false -> fs1 = fs) /\
  (forall path, files fs !! file_of fs (c_str path) = None ->
     fst (FILE_LoadFile decrypt path fs) = decrypt "" /\
     snd (FILE_LoadFile decrypt path fs) = fs).
Proof.
  intros fs1 saved.
  assert (Hof : file_of fs1 = file_of fs) by apply FILE_SaveGameState_file_of.
  assert (Hother : forall file, file <> saved -> files fs1 !! file = files fs !! file).
  { intros file Hne. unfold fs1, FILE_SaveGameState, SDL_RWFromFile_w.
    destruct (can_write fs (c_str (pref_path +:+ name))); [|reflexivity].
    cbn [SDL_RWclose SDL_RWwrite files file_of].
    now rewrite !lookup_insert_ne by (intros E; apply Hne; symmetry; exact E). }
  split; [|split; [|split; [exact Hother|split; [exact Hof|split]]]].
  - intros Hne. unfold FILE_LoadGameState. rewrite !FILE_LoadFile_data, Hof.
    now rewrite Hother.
  - intros Heq Hw. unfold FILE_LoadGameState. rewrite FILE_LoadFile_data, Hof, Heq.
    unfold fs1. rewrite FILE_SaveGameState_files by exact Hw.
    fold saved. now rewrite lookup_insert_eq.
  - intros Hw. unfold fs1, FILE_SaveGameState, SDL_RWFromFile_w. now rewrite Hw.
  - intros path Hnone. unfold FILE_LoadFile, SDL_RWFromFile_r. now rewrite Hnone.
Qed.
End FileFacts.

(** Two names, one file: the name handed to [SDL_RWFromFile] ends at its
    first NUL, so a state saved as [slot1] is what loading [slot1\0x]
    returns. *)
Example saved_state_read_under_longer_name :
  let name' := "slot1" +:+ String Ascii.zero "x" in
  name' <> "slot1" /\
  fst (FILE_LoadGameState String.rev "/pref/" name'
         (FILE_SaveGameState String.rev "/pref/" "slot1" "tac08" sample_fs)) = "tac08".
Proof. cbv zeta. split; [discriminate | reflexivity]. Qed.

Lemma save_game_state_round_trip_witness :
  fst (FILE_LoadGameState String.rev "/pref/" "slot1"
         (FILE_SaveGameState String.rev "/pref/" "slot1" "tac08" sample_fs)) = "tac08".
Proof.
  destruct (save_game_state_round_trip String.rev String.rev "/pref/" "slot1" "tac08"
              sample_fs) as (Hdata & _); [reflexivity | reflexivity | exact Hdata].
Defined.


(** ** Default display *)

Lemma display_area_128 (winx winy : Z) (evs : list SDL_Event) :
  1 <= winx <= 4096 -> 1 <= winy <= 4096 ->
  let s := hal_init winx winy 128 128 evs in
  let r := fst (getDisplayArea s) in
  let side := Z.min winx winy in
  r_w r = side /\ r_h r = side /\
  r_x r = Z.quot winx 2 - Z.quot side 2 /\
  r_y r = Z.quot winy 2 - Z.quot side 2 /\
  (double_value (snd (getDisplayArea s)) == inject_Z side / inject_Z 128)%Q.
Proof.
  intros Hx Hy s r side.
  destruct (getDisplayArea_unrounded s) as [Hr Hs];
    [cbn; lia | cbn; lia | cbn; lia | cbn; lia | now apply unrounded_128 |].
  cbv zeta in Hr, Hs. fold r in Hr.
  change (win_w s) with winx in Hr, Hs. change (win_h s) with winy in Hr, Hs.
  change (screenWidth s) with 128 in Hr, Hs. change (screenHeight s) with 128 in Hr, Hs.
  rewrite exact_display_area_eq in Hr, Hs by lia. cbv zeta in Hr, Hs.
  rewrite !Z.quot_mul in Hr by lia.
  destruct (Z.ltb_spec (winy * 128) (winx * 128)) as [Hlt|Hge].
  - assert (Em : side = winy) by (unfold side; lia).
    rewrite Hr, Hs, Em. cbn [fst snd r_x r_y r_w r_h].
    repeat split; try reflexivity. lia.
  - assert (Em : side = winx) by (unfold side; lia).
    rewrite Hr, Hs, Em. cbn [fst snd r_x r_y r_w r_h].
    repeat split; try reflexivity. lia.
Qed.

(** X26: on the 128x128 display in a window of up to 4096 pixels a side,
    the destination rectangle is the centred square whose side is the
    smaller window dimension, and the scale is that side over 128. *)
Theorem default_display_is_centred_square (s : Hal) :
  screenWidth s = 128 -> screenHeight s = 128 ->
  1 <= win_w s <= 4096 -> 1 <= win_h s <= 4096 ->
  let r := fst (getDisplayArea s) in
  let side := Z.min (win_w s) (win_h s) in
  r_w r = side /\ r_h r = side /\
  r_x r = Z.quot (win_w s) 2 - Z.quot side 2 /\
  r_y r = Z.quot (win_h s) 2 - Z.quot side 2 /\
  (double_value (snd (getDisplayArea s)) == inject_Z side / inject_Z 128)%Q.
Proof.
  intros Hsw Hsh Hx Hy.
  change (getDisplayArea s)
    with (getDisplayArea (hal_init (win_w s) (win_h s) (screenWidth s)
                                   (screenHeight s) [])).
  rewrite Hsw, Hsh. now apply display_area_128.
Qed.

Lemma exact_scale_finite (s : Hal) :
  unrounded s = true ->
  exists m e, snd (getDisplayArea s) = S754_finite false m e.
Proof.
  unfold unrounded. intros Hu.
  apply andb_prop in Hu as [Hu _]. apply andb_prop in Hu as [Hu _].
  apply andb_prop in Hu as [Hu Hy]. apply andb_prop in Hu as [_ Hx].
  apply exact_ratio_inv in Hx as (mx & ex & Ex & _).
  apply exact_ratio_inv in Hy as (my & ey & Ey & _).
  unfold getDisplayArea. destruct (dgt _ _); cbn [snd]; eauto.
Qed.

(** X27: where the scale is exact, [scaleMouse] maps the top-left corner
    of the destination rectangle to the virtual pixel (0, 0). *)
Theorem scaleMouse_origin (s : Hal) :
  unrounded s = true ->
  let r := fst (getDisplayArea s) in
  scaleMouse s (r_x r) (r_y r) = (0, 0).
Proof.
  intros Hu r. destruct (exact_scale_finite s Hu) as (m & e & Hscale).
  unfold scaleMouse. subst r.
  destruct (getDisplayArea s) as [r scale]. cbn [fst snd] in *. subst scale.
  rewrite !Z.sub_diag. reflexivity.
Qed.

Lemma default_display_is_centred_square_witness :
  r_w (fst (getDisplayArea (hal_init 800 600 128 128 []))) = 600.
Proof.
  destruct (default_display_is_centred_square (hal_init 800 600 128 128 []))
    as (Hw & _); [reflexivity | reflexivity | cbn; lia | cbn; lia | exact Hw].
Defined.

Lemma scaleMouse_origin_witness : scaleMouse sample_hal 80 0 = (0, 0).
Proof.
  apply (scaleMouse_origin sample_hal). reflexivity.
Defined.

